(** * ultrasequence: the frame extractor, the range compressor, File,
      Sequence and Parser of [ultrasequence/sequencer.py]

    Python values are embedded as follows.
    - [str] is [string]; a character is an [ascii], read as the code point
      of the same number (0..255).  On that range the classes of [re] are
      exact: [\d] is '0'..'9', [\D] its complement, [.] everything but the
      line feed.
    - [int] is [Z].  [int(s)] and [str(n)] convert any number of digits:
      the cap that interpreters since 3.11 put on the digits of a
      conversion (4300 by default, never set below 640) is not embedded,
      and what is stated of the conversion of arbitrary digits carries
      the bound of 640 digits.
    - A [dict] whose iteration order no claim reads ([Sequence._frames]) is
      a [gmap]; the dict that is emptied with [popitem]
      ([Parser._sequences]) is an insertion-ordered association list.
    - A function that may raise returns a [result]; a method that may raise
      after having touched [self] returns the state it leaves behind next
      to the result.
    - A list object that a callee mutates lives in a [heap] of list
      objects and is passed by reference.
    - Paths are POSIX paths.

    Not embedded: the [Stat] bundle and the stat properties of [File],
    [Sequence.size] and the printing of a [Parser].  The walk of the
    directory is embedded on its own ([get_files_in_directory], over an
    operating system given as functions); [parse_directory] is handed the
    listing. *)

From Stdlib Require Import ZArith List String Ascii Lia Bool DecimalString
  DecimalZ Permutation.
From stdpp Require Import gmap strings list sorting.

Local Open Scope Z_scope.

(** ** Exceptions *)

Inductive exn :=
| ValueError (msg : string)
| IndexError (msg : string)
| TypeError (msg : string)
| KeyError (msg : string).

Inductive result (A : Type) :=
| Ok (a : A)
| Raise (e : exn).
Arguments Ok {A} a.
Arguments Raise {A} e.

#[global] Instance result_ret : MRet result := fun _ a => Ok a.
#[global] Instance result_bind : MBind result := fun _ _ f r =>
  match r with
  | Ok a => f a
  | Raise e => Raise e
  end.

(** ** Characters and strings *)

Definition newline : ascii := ascii_of_nat 10.

Definition is_digit (c : ascii) : bool :=
  let n := N_of_ascii c in ((48 <=? n) && (n <=? 57))%N.

Fixpoint all_chars (p : ascii -> bool) (s : string) : bool :=
  match s with
  | EmptyString => true
  | String c s' => p c && all_chars p s'
  end.

Fixpoint has_char (p : ascii -> bool) (s : string) : bool :=
  match s with
  | EmptyString => false
  | String c s' => p c || has_char p s'
  end.

(** [s[-1]] when [s] is not empty. *)
Fixpoint last_char (s : string) : option ascii :=
  match s with
  | EmptyString => None
  | String c EmptyString => Some c
  | String _ s' => last_char s'
  end.

(** ** The fragment of [re] that [FRAMENUM_RE] is written in

    Repetition is only ever applied to a one-character class, so the
    matcher is structural.  It is the backtracking matcher of [re]:
    greedy operators try the longest repetition first and fall back one
    character at a time, an optional group is first tried present, and a
    capture is recorded when its group closes. *)

Inductive atom :=
| Dot        (* .  *)
| NonDigit   (* \D *)
| Digit.     (* \d *)

Definition atom_matches (a : atom) (c : ascii) : bool :=
  match a with
  | Dot => negb (Ascii.eqb c newline)
  | NonDigit => negb (is_digit c)
  | Digit => is_digit c
  end.

Inductive regex :=
| Atom (a : atom)
| Star (a : atom)
| Plus (a : atom)
| Seq (r1 r2 : regex)
| Opt (r : regex)
| Group (n : nat) (r : regex).

(** [groups()] of a match: entry [i] is group [i+1], [None] when the group
    took no part in the match. *)
Definition captures := list (option string).

(** The text a sub-pattern consumed, given the input before and after. *)
Definition consumed (before after : string) : string :=
  substring 0 (String.length before - String.length after) before.

Section Matcher.
Context {R : Type}.

Fixpoint star_atom (a : atom) (s : string) (k : string -> option R)
  : option R :=
  match s with
  | String c s' =>
      if atom_matches a c then
        match star_atom a s' k with
        | Some r => Some r
        | None => k s
        end
      else k s
  | EmptyString => k s
  end.
End Matcher.

Fixpoint rmatch (r : regex) (s : string) (caps : captures)
    (k : string -> captures -> option captures) : option captures :=
  match r with
  | Atom a =>
      match s with
      | String c s' => if atom_matches a c then k s' caps else None
      | EmptyString => None
      end
  | Star a => star_atom a s (fun s' => k s' caps)
  | Plus a =>
      match s with
      | String c s' =>
          if atom_matches a c then star_atom a s' (fun s'' => k s'' caps)
          else None
      | EmptyString => None
      end
  | Seq r1 r2 => rmatch r1 s caps (fun s' caps' => rmatch r2 s' caps' k)
  | Opt r' =>
      match rmatch r' s caps k with
      | Some c => Some c
      | None => k s caps
      end
  | Group n r' =>
      rmatch r' s caps
        (fun s' caps' => k s' (<[n := Some (consumed s s')]> caps'))
  end.

Fixpoint count_groups (r : regex) : nat :=
  match r with
  | Atom _ | Star _ | Plus _ => 0%nat
  | Seq r1 r2 => (count_groups r1 + count_groups r2)%nat
  | Opt r' => count_groups r'
  | Group _ r' => S (count_groups r')
  end.

(** [re.match(r, s)]: anchored at the start, free at the end. *)
Definition re_match (r : regex) (s : string) : option captures :=
  rmatch r s (replicate (count_groups r) None) (fun _ caps => Some caps).

(** ** Module constants *)

(** [FRAMENUM_RE]: an optional group 0 made of group 1, any run of [.],
    and group 2, one [\D]; then group 3, one or more [\d]; then group 4,
    any run of [.].  Groups are numbered from 0, as [groups()] indexes
    them. *)
Definition FRAMENUM_RE : regex :=
  Seq (Opt (Group 0 (Seq (Group 1 (Star Dot)) (Group 2 (Atom NonDigit)))))
      (Seq (Group 3 (Plus Digit)) (Group 4 (Star Dot))).

Definition DEFAULT_FORMAT : string := "%H%r%T".

(** ** extract_frame *)

(** [groups[i]], with Python's [None] kept as [None]. *)
Definition group (caps : captures) (i : nat) : option string :=
  match caps !! i with
  | Some g => g
  | None => None
  end.

Definition extract_frame (name : string) : string * string * string :=
  let '(head, frame, tail) :=
    match re_match FRAMENUM_RE name with
    | Some groups =>
        (group groups 0, default "" (group groups 3),
         default "" (group groups 4))
    | None => (Some name, "", "")
    end in
  let head := match head with None => "" | Some h => h end in
  (head, frame, tail).

(** ** More of [str]: split, join, lower, str(int), int(str) *)

(** [s.split(sep)] for a one-character separator: never empty. *)
Fixpoint split_on (sep : ascii) (s : string) : list string :=
  match s with
  | EmptyString => [""]
  | String c s' =>
      if Ascii.eqb c sep then "" :: split_on sep s'
      else match split_on sep s' with
           | p :: ps => String c p :: ps
           | [] => [String c ""]
           end
  end.

(** [sep.join(parts)] is [String.concat sep parts]. *)

Definition lower_char (c : ascii) : ascii :=
  let n := N_of_ascii c in
  if (((65 <=? n) && (n <=? 90))
      || ((192 <=? n) && (n <=? 222) && negb (n =? 215)))%N
  then ascii_of_N (n + 32) else c.

Fixpoint lower (s : string) : string :=
  match s with
  | EmptyString => EmptyString
  | String c s' => String (lower_char c) (lower s')
  end.

Fixpoint repeat_str (s : string) (n : nat) : string :=
  match n with
  | O => ""
  | S n' => s +:+ repeat_str s n'
  end.

(** [str(z)], without the cap on the digits of a conversion. *)
Definition str_of_int (z : Z) : string :=
  NilZero.string_of_int (Z.to_int z).

(** [int(s)] on an optional minus sign followed by digits; [None] is
    [ValueError].  (Blanks, a plus sign and underscores, which [int] also
    takes, never reach it here.)  The [ValueError] of an interpreter that
    caps the digits of a conversion is not embedded: it cannot occur up
    to 640 digits. *)
Definition int_of_str (s : string) : option Z :=
  Z.of_int <$> NilZero.int_of_string s.

(** ** posixpath *)

(** [(p[:i], p[i:])] for [i = p.rfind('/') + 1]. *)
Fixpoint split_last_sep (p : string) : string * string :=
  match p with
  | EmptyString => ("", "")
  | String c p' =>
      let '(h, t) := split_last_sep p' in
      match h with
      | String _ _ => (String c h, t)
      | EmptyString => if Ascii.eqb c "/" then ("/", t) else ("", String c t)
      end
  end.

Fixpoint rstrip (sep : ascii) (s : string) : string :=
  match s with
  | EmptyString => ""
  | String c s' =>
      match rstrip sep s' with
      | EmptyString => if Ascii.eqb c sep then "" else String c ""
      | r => String c r
      end
  end.

Definition path_split (p : string) : string * string :=
  let '(head, tail) := split_last_sep p in
  let head :=
    if negb (String.eqb head "") && negb (all_chars (Ascii.eqb "/") head)
    then rstrip "/" head else head in
  (head, tail).

Definition path_join (a b : string) : string :=
  if String.prefix "/" b then b
  else if String.eqb a "" || (if last_char a is Some c then Ascii.eqb c "/"
                              else false)
  then a +:+ b
  else a +:+ "/" +:+ b.

(** ** split_extension *)

Definition split_extension (filename : string) : string * string :=
  let parts := split_on "." filename in
  if (length parts <? 2)%nat then (default "" (parts !! 0%nat), "")
  else
    let ext := default "" (last parts) in
    let parts := removelast parts in
    let head := String.concat "." parts in
    (head, ext).

(** ** frame_ranges_to_string

    The argument is an iterable.  A list is an object in the heap and is
    passed by reference; a tuple or a range is immutable and is given by
    its items.  An iterator or a generator, which is true whatever it has
    left to yield, takes another way through the function:
    [frame_ranges_of_iterator] below. *)

Definition loc := nat.
Abbreviation heap := (gmap loc (list Z)).

Inductive iterable :=
| PyList (l : loc)
| PyTuple (items : list Z).

Definition items_of (h : heap) (it : iterable) : list Z :=
  match it with
  | PyList l => default [] (h !! l)
  | PyTuple xs => xs
  end.

(** A location no object lives at. *)
Definition fresh_loc (h : heap) : loc := fresh (dom h).

(** [l[i]] and [l[-1]], raising [IndexError] out of range. *)
Definition list_get {A} (l : list A) (i : nat) : result A :=
  match l !! i with
  | Some a => Ok a
  | None => Raise (IndexError "list index out of range")
  end.

Definition list_last {A} (l : list A) : result A :=
  match last l with
  | Some a => Ok a
  | None => Raise (IndexError "list index out of range")
  end.

(** One turn of [for x in frame_list], on [(ranges, range_i)]. *)
Definition ranges_step (st : list (list Z) * nat) (x : Z)
  : result (list (list Z) * nat) :=
  let '(ranges, range_i) := st in
  cur ← list_get ranges range_i;
  prev ← list_last cur;
  if decide (x - 1 = prev)
  then Ok (<[range_i := cur ++ [x]]> ranges, range_i)
  else
    let range_i := S range_i in
    Ok (ranges ++ [[x]], range_i).

Fixpoint ranges_loop (st : list (list Z) * nat) (frame_list : list Z)
  : result (list (list Z) * nat) :=
  match frame_list with
  | [] => Ok st
  | x :: rest => st' ← ranges_step st x; ranges_loop st' rest
  end.

(** The body of [for x in ranges]. *)
Definition range_to_string (x : list Z) : result string :=
  if (1 <? length x)%nat then
    a ← list_get x 0%nat;
    b ← list_last x;
    Ok (String.concat "-" [str_of_int a; str_of_int b])
  else
    a ← list_get x 0%nat;
    Ok (str_of_int a).

Fixpoint ranges_to_strings (ranges : list (list Z)) : result (list string) :=
  match ranges with
  | [] => Ok []
  | x :: rest =>
      s ← range_to_string x;
      ss ← ranges_to_strings rest;
      Ok (s :: ss)
  end.

Definition frame_ranges_to_string (frame_list : iterable) (h : heap)
  : result string * heap :=
  match items_of h frame_list with
  | [] => (Ok "[]", h)
  | first :: rest =>
      (* a non-list is copied into a new list object *)
      let '(l, h) :=
        match frame_list with
        | PyList l => (l, h)
        | PyTuple xs => let l := fresh_loc h in (l, <[l := xs]> h)
        end in
      (* frame_list.pop(0) *)
      let h := <[l := rest]> h in
      (st ← ranges_loop ([[first]], 0%nat) (default [] (h !! l));
       list_of_ranges ← ranges_to_strings st.1;
       Ok ("[" +:+ String.concat ", " list_of_ranges +:+ "]"),
       h)
  end.

(** The call on an iterator or a generator that has [items] left to
    yield.  [not frame_list] is false of it, even when [items] is empty;
    [list(frame_list)] makes the list object that [pop(0)] is called
    on. *)
Definition frame_ranges_of_iterator (items : list Z) (h : heap)
  : result string * heap :=
  let l := fresh_loc h in
  let h := <[l := items]> h in
  match items with
  | [] => (Raise (IndexError "pop from empty list"), h)
  | first :: rest =>
      let h := <[l := rest]> h in
      (st ← ranges_loop ([[first]], 0%nat) (default [] (h !! l));
       list_of_ranges ← ranges_to_strings st.1;
       Ok ("[" +:+ String.concat ", " list_of_ranges +:+ "]"),
       h)
  end.

(** The call on a list object nothing else refers to, as in
    [frame_ranges_to_string(self.get_frames())]. *)
Definition frame_ranges_of_temporary (frames : list Z) : result string :=
  (frame_ranges_to_string (PyList 0%nat) {[ 0%nat := frames ]}).1.

(** ** class File

    The stat bundle is left out: no operation below reads it. *)

Module File.

Record t := mk {
  abspath : string;
  dir : string;
  name : string;
  _base : string;
  ext : string;
  namehead : string;
  _framenum : string;
  head : string;
  tail : string;
  padding : nat
}.

(** [File(filepath)] *)
Definition init (filepath : string) : t :=
  let '(dir, name) := path_split filepath in
  let '(_base, ext) := split_extension name in
  let '(namehead, _framenum, tail) := extract_frame _base in
  let head := path_join dir namehead in
  let tail :=
    if String.eqb ext "" then "" else String.concat "." [tail; ext] in
  {| abspath := filepath; dir := dir; name := name; _base := _base;
     ext := ext; namehead := namehead; _framenum := _framenum;
     head := head; tail := tail; padding := String.length _framenum |}.

Definition str (self : t) : string := abspath self.

(** The property [frame]: [None] is Python's [None]. *)
Definition frame (self : t) : option Z := int_of_str (_framenum self).

Definition frame_as_str (self : t) : string := _framenum self.

Definition get_seq_key (self : t) (ignore_padding : bool) : string :=
  let digits :=
    if String.eqb (_framenum self) "" then ""
    else if ignore_padding then "#"
    else "%0" +:+ str_of_int (Z.of_nat (padding self)) +:+ "d" in
  head self +:+ digits +:+ tail self.

(** The rich comparisons, against another [File]; [get_seq_key()] is
    called with its default, [ignore_padding=True]. *)
Definition compare_with (op : string -> string -> bool) (self other : t)
  : result bool :=
  if String.eqb (get_seq_key self true) (get_seq_key other true)
  then Ok (op (frame_as_str self) (frame_as_str other))
  else Raise (TypeError (str other +:+ " not File instance.")).

Definition lt := compare_with String.ltb.
Definition gt := compare_with (fun a b => String.ltb b a).
Definition le := compare_with String.leb.
Definition ge := compare_with (fun a b => String.leb b a).

Definition repr (self : t) : string := "File('" +:+ abspath self +:+ "')".

(** What [==] and [!=] may find on their right: a [File], a [str], or
    an object of another type. *)
Inductive pyobj :=
| ObjFile (other : t)
| ObjStr (other : string)
| ObjOther.

Definition __eq__ (self : t) (other : pyobj) : bool :=
  match other with
  | ObjFile other => String.eqb (abspath self) (abspath other)
  | ObjStr other => String.eqb (abspath self) other
  | ObjOther => false
  end.

Definition __ne__ (self : t) (other : pyobj) : bool :=
  match other with
  | ObjFile other => negb (String.eqb (abspath self) (abspath other))
  | ObjStr other => negb (String.eqb (abspath self) other)
  | ObjOther => true
  end.

End File.

(** ** class Sequence *)

Module Sequence.

Record t := mk {
  _frames : gmap Z File.t;
  seq_name : string;
  dir : string;
  namehead : string;
  head : string;
  tail : string;
  ext : string;
  padding : nat;
  inconsistent_padding : bool;
  ignore_padding : bool
}.

(** What [append] may be handed. *)
Inductive arg :=
| ArgFile (file : File.t)
| ArgStr (path : string).

Definition set_frames (self : t) (fs : gmap Z File.t) : t :=
  mk fs (seq_name self) (dir self) (namehead self) (head self) (tail self)
     (ext self) (padding self) (inconsistent_padding self)
     (ignore_padding self).

(** The keys of the frame map, as iterating the dict yields them. *)
Definition keys (self : t) : list Z := (map_to_list (_frames self)).*1.

(** [min] and [max] of a list of integers. *)
Definition py_min (l : list Z) : result Z :=
  match l with
  | [] => Raise (ValueError "min() arg is an empty sequence")
  | x :: xs => Ok (foldl Z.min x xs)
  end.

Definition py_max (l : list Z) : result Z :=
  match l with
  | [] => Raise (ValueError "max() arg is an empty sequence")
  | x :: xs => Ok (foldl Z.max x xs)
  end.

Definition len (self : t) : nat := size (_frames self).

(** [__iter__]: the records, one per key.  The dict yields them in the
    order of insertion, which the frame map does not keep: the list is
    to be read up to its order. *)
Definition iter (self : t) : list File.t := (map_to_list (_frames self)).*2.

(** [__getitem__] at one frame number. *)
Definition getitem (self : t) (frame : Z) : result File.t :=
  match _frames self !! frame with
  | Some f => Ok f
  | None => Raise (KeyError (str_of_int frame))
  end.

(** [range(start, stop, step)], each argument possibly [None]. *)
Definition range_length (start stop step : Z) : Z :=
  if 0 <? step then
    if start <? stop then (stop - start - 1) / step + 1 else 0
  else
    if stop <? start then (start - stop - 1) / (- step) + 1 else 0.

Definition py_range (start stop step : option Z) : result (list Z) :=
  match start, stop, step with
  | Some start, Some stop, Some step =>
      if step =? 0 then Raise (ValueError "range() arg 3 must not be zero")
      else Ok ((fun i => start + i * step)
                 <$> seqZ 0 (range_length start stop step))
  | _, _, _ =>
      Raise (TypeError
               "'NoneType' object cannot be interpreted as an integer")
  end.

(** What [self[...]] may be indexed with, and what it gives. *)
Inductive index :=
| IdxSlice (start stop step : option Z)
| IdxList (frames : list Z)
| IdxInt (frame : Z).

Inductive item :=
| ItemFiles (files : list File.t)
| ItemFile (file : File.t).

(** [[self._frames[x] for x in frames]] *)
Fixpoint getitems (self : t) (frames : list Z) : result (list File.t) :=
  match frames with
  | [] => Ok []
  | x :: frames' =>
      f ← getitem self x;
      fs ← getitems self frames';
      Ok (f :: fs)
  end.

(** [__getitem__], all three forms. *)
Definition __getitem__ (self : t) (frames : index) : result item :=
  match frames with
  | IdxSlice start stop step =>
      r ← py_range start stop step;
      fs ← getitems self r;
      Ok (ItemFiles fs)
  | IdxList frames =>
      fs ← getitems self frames;
      Ok (ItemFiles fs)
  | IdxInt frame =>
      f ← getitem self frame;
      Ok (ItemFile f)
  end.

(** The property [name]: [os.path.basename(self.seq_name)]. *)
Definition name (self : t) : string := (split_last_sep (seq_name self)).2.

Definition start (self : t) : result Z := py_min (keys self).

Definition end_ (self : t) : result Z := py_max (keys self).

Definition frames (self : t) : nat := len self.

Definition implied_frames (self : t) : result Z :=
  e ← end_ self;
  s ← start self;
  Ok (e - s + 1).

Definition missing_frames (self : t) : result Z :=
  e ← end_ self;
  s ← start self;
  Ok (e - (s - 1) - Z.of_nat (frames self)).

Definition is_missing_frames (self : t) : result bool :=
  i ← implied_frames self;
  Ok (negb (Z.of_nat (frames self) =? i)).

Definition get_frames (self : t) : list Z := merge_sort Z.le (keys self).

Definition get_missing_frames (self : t) : result (list Z) :=
  s ← start self;
  e ← end_ self;
  let implied := seqZ s (e + 1 - s) in
  Ok (filter (fun frame => _frames self !! frame = None) implied).

(** *** The formatter *)

Definition __implied_range (self : t) : result string :=
  s ← start self;
  fs ← getitem self s;
  e ← end_ self;
  fe ← getitem self e;
  Ok ("[" +:+ File.frame_as_str fs +:+ "-" +:+ File.frame_as_str fe +:+ "]").

Definition __explicit_range (self : t) : result string :=
  frame_ranges_of_temporary (get_frames self).

Definition __num_missing_frames (self : t) : result string :=
  m ← missing_frames self;
  Ok (str_of_int m).

Definition __explicit_missing_range (self : t) : result string :=
  missing ← get_missing_frames self;
  frame_ranges_of_temporary missing.

Definition __tail_without_ext (self : t) : string :=
  String.concat "." (removelast (split_on "." (tail self))).

(** [directive_mapper['%' + char]()] *)
Definition directive (self : t) (char : ascii) : result string :=
  if Ascii.eqb char "%" then Ok "%"
  else if Ascii.eqb char "p" then Ok (dir self)
  else if Ascii.eqb char "h" then Ok (namehead self)
  else if Ascii.eqb char "H" then Ok (head self)
  else if Ascii.eqb char "f" then Ok (str_of_int (Z.of_nat (frames self)))
  else if Ascii.eqb char "r" then __implied_range self
  else if Ascii.eqb char "R" then __explicit_range self
  else if Ascii.eqb char "m" then __num_missing_frames self
  else if Ascii.eqb char "M" then __explicit_missing_range self
  else if Ascii.eqb char "d" then Ok (repeat_str "#" (padding self))
  else if Ascii.eqb char "D"
    then Ok ("%0" +:+ str_of_int (Z.of_nat (padding self)) +:+ "d")
  else if Ascii.eqb char "t" then Ok (__tail_without_ext self)
  else if Ascii.eqb char "T" then Ok (tail self)
  else if Ascii.eqb char "e" then Ok (ext self)
  else Raise (KeyError (String "%" (String char ""))).

(** [for char in format], on [(matched, new_string)]. *)
Fixpoint formatter_loop (self : t) (format : string) (matched : bool)
    (new_string : string) : result string :=
  match format with
  | EmptyString => Ok new_string
  | String char rest =>
      if matched then
        s ← directive self char;
        formatter_loop self rest false (new_string +:+ s)
      else if Ascii.eqb char "%" then
        formatter_loop self rest true new_string
      else
        formatter_loop self rest false (new_string +:+ String char "")
  end.

Definition formatter (self : t) (format : string) : result string :=
  formatter_loop self format false "".

Definition str (self : t) : result string := formatter self DEFAULT_FORMAT.

Definition repr (self : t) : result string :=
  s ← formatter self DEFAULT_FORMAT;
  Ok ("Sequence('" +:+ s +:+ "', frames="
      +:+ str_of_int (Z.of_nat (frames self)) +:+ ")").

(** *** append *)

(** The first branch: a path is turned into a [File] and, on a sequence
    that has frames, checked against [seq_name]. *)
Definition as_file (file : arg) (self : t) : result File.t :=
  match file with
  | ArgFile f => Ok f
  | ArgStr path =>
      let f := File.init path in
      if (0 <? size (_frames self))%nat
         && negb (String.eqb (File.get_seq_key f (ignore_padding self))
                             (seq_name self))
      then
        r ← repr self;
        Raise (ValueError (File.str f +:+ " is not a member of " +:+ r
                           +:+ ". Not appending."))
      else Ok f
  end.

Definition append (file : arg) (self : t) : result unit * t :=
  match as_file file self with
  | Raise e => (Raise e, self)
  | Ok file =>
      match File.frame file with
      | None =>
          (Raise (ValueError (File.str file +:+ " can not be sequenced.")),
           self)
      | Some frame =>
          if (frames self =? 0)%nat then
            let self :=
              mk (_frames self)
                 (File.get_seq_key file (ignore_padding self))
                 (File.dir file) (File.namehead file) (File.head file)
                 (File.tail file) (File.ext file) (File.padding file)
                 (inconsistent_padding self) (ignore_padding self) in
            (Ok (), set_frames self (<[frame := file]> (_frames self)))
          else
            match _frames self !! frame with
            | Some old =>
                (Raise (IndexError (File.name file
                                    +:+ " already in sequence as "
                                    +:+ File.str old)),
                 self)
            | None =>
                let self :=
                  if (padding self <? File.padding file)%nat then
                    mk (_frames self) (seq_name self) (dir self)
                       (namehead self) (head self) (tail self) (ext self)
                       (File.padding file) true (ignore_padding self)
                  else self in
                (Ok (), set_frames self (<[frame := file]> (_frames self)))
            end
      end
  end.

(** [Sequence()], before any file is appended. *)
Definition empty (ignore_padding : bool) : t :=
  mk ∅ "" "" "" "" "" "" 0%nat false ignore_padding.

(** [Sequence(file, ignore_padding)]: a constructor that raises yields
    no object. *)
Definition init (file : option arg) (ignore_padding : bool) : result t :=
  let self := empty ignore_padding in
  match file with
  | None => Ok self
  | Some file =>
      match append file self with
      | (Ok _, self) => Ok self
      | (Raise e, _) => Raise e
      end
  end.

End Sequence.

(** ** class Parser

    [_sequences] is kept most recently inserted key first, so that
    [popitem()] takes the head. *)

Section Dict.
Context {V : Type}.

Fixpoint dict_get (k : string) (d : list (string * V)) : option V :=
  match d with
  | [] => None
  | (k', v) :: d' => if String.eqb k k' then Some v else dict_get k d'
  end.

(** [d[k] = v] for a key that is present: the entry keeps its place. *)
Fixpoint dict_replace (k : string) (v : V) (d : list (string * V))
  : list (string * V) :=
  match d with
  | [] => []
  | (k', v') :: d' =>
      if String.eqb k k' then (k', v) :: d'
      else (k', v') :: dict_replace k v d'
  end.

Definition dict_set (k : string) (v : V) (d : list (string * V))
  : list (string * V) :=
  match dict_get k d with
  | Some _ => dict_replace k v d
  | None => (k, v) :: d
  end.
End Dict.

Module Parser.

Record t := mk {
  get_stats : bool;
  ignore_padding : bool;
  include_exts : gset string;
  _sequences : list (string * Sequence.t);
  sequences : list Sequence.t;
  single_frames : list Sequence.t;
  non_sequences : list File.t;
  excluded : list File.t;
  collisions : list File.t;
  parsed : bool
}.

Definition _reset (self : t) : t :=
  mk (get_stats self) (ignore_padding self) (include_exts self)
     [] [] [] [] [] [] false.

(** [Parser(include_exts, get_stats, ignore_padding)]; no allow-list is
    the empty list. *)
Definition init (include_exts : list string)
    (get_stats ignore_padding : bool) : t :=
  mk get_stats ignore_padding (list_to_set (lower <$> include_exts))
     [] [] [] [] [] [] false.

Definition set_sequences (self : t) (d : list (string * Sequence.t)) : t :=
  mk (get_stats self) (ignore_padding self) (include_exts self) d
     (sequences self) (single_frames self) (non_sequences self)
     (excluded self) (collisions self) (parsed self).

Definition add_excluded (self : t) (f : File.t) : t :=
  mk (get_stats self) (ignore_padding self) (include_exts self)
     (_sequences self) (sequences self) (single_frames self)
     (non_sequences self) (excluded self ++ [f]) (collisions self)
     (parsed self).

Definition add_non_sequence (self : t) (f : File.t) : t :=
  mk (get_stats self) (ignore_padding self) (include_exts self)
     (_sequences self) (sequences self) (single_frames self)
     (non_sequences self ++ [f]) (excluded self) (collisions self)
     (parsed self).

Definition add_collision (self : t) (f : File.t) : t :=
  mk (get_stats self) (ignore_padding self) (include_exts self)
     (_sequences self) (sequences self) (single_frames self)
     (non_sequences self) (excluded self) (collisions self ++ [f])
     (parsed self).

(** The [while self._sequences] loop. *)
Fixpoint cleanup_loop (pending : list (string * Sequence.t))
    (single_frames sequences : list Sequence.t)
  : list Sequence.t * list Sequence.t :=
  match pending with
  | [] => (single_frames, sequences)
  | (_, seq) :: pending' =>
      if (Sequence.frames seq =? 1)%nat
      then cleanup_loop pending' (single_frames ++ [seq]) sequences
      else cleanup_loop pending' single_frames (sequences ++ [seq])
  end.

Definition _cleanup (self : t) : t :=
  let '(single_frames, sequences) :=
    cleanup_loop (_sequences self) (single_frames self) (sequences self) in
  mk (get_stats self) (ignore_padding self) (include_exts self)
     [] sequences single_frames (non_sequences self) (excluded self)
     (collisions self) true.

(** The test of the first branch of [_sort_file]. *)
Definition is_excluded (self : t) (file_ : File.t) : bool :=
  bool_decide (include_exts self ≠ ∅)
  && bool_decide (lower (File.ext file_) ∉ include_exts self).

Definition _sort_file (file_ : string) (self : t) : result unit * t :=
  let file_ := File.init file_ in
  if is_excluded self file_ then (Ok (), add_excluded self file_)
  else
    match File.frame file_ with
    | None => (Ok (), add_non_sequence self file_)
    | Some _ =>
        let seq_name := File.get_seq_key file_ (ignore_padding self) in
        match dict_get seq_name (_sequences self) with
        | Some seq =>
            let '(r, seq) := Sequence.append (Sequence.ArgFile file_) seq in
            let self :=
              set_sequences self
                (dict_set seq_name seq (_sequences self)) in
            match r with
            | Ok _ => (Ok (), self)
            | Raise (IndexError _) => (Ok (), add_collision self file_)
            | Raise e => (Raise e, self)
            end
        | None =>
            match Sequence.init (Some (Sequence.ArgFile file_))
                    (ignore_padding self) with
            | Ok seq =>
                (Ok (),
                 set_sequences self
                   (dict_set seq_name seq (_sequences self)))
            | Raise e => (Raise e, self)
            end
        end
    end.

(** The [while file_list] loop of [parse_directory]. *)
Fixpoint sort_files (file_list : list string) (self : t)
  : result unit * t :=
  match file_list with
  | [] => (Ok (), self)
  | file_ :: file_list' =>
      match _sort_file file_ self with
      | (Ok _, self) => sort_files file_list' self
      | (Raise e, self) => (Raise e, self)
      end
  end.

(** [parse_directory]; the listing is what [get_files_in_directory]
    returns, [None] when the path is no directory. *)
Definition parse_directory (listing : option (list string)) (self : t)
  : result unit * t :=
  let self := _reset self in
  match listing with
  | Some file_list =>
      match sort_files file_list self with
      | (Ok _, self) => (Ok (), _cleanup self)
      | (Raise e, self) => (Raise e, self)
      end
  | None => (Ok (), self)
  end.

End Parser.

(** * Vocabulary of the properties *)

(** The longest prefix of [s] made of characters in [p], and the rest. *)
Fixpoint take_while (p : ascii -> bool) (s : string) : string :=
  match s with
  | String c s' => if p c then String c (take_while p s') else ""
  | EmptyString => ""
  end.

Fixpoint drop_while (p : ascii -> bool) (s : string) : string :=
  match s with
  | String c s' => if p c then drop_while p s' else s
  | EmptyString => ""
  end.

(** [frame] is the rightmost maximal run of digits of [stem]: it is a
    non-empty run of digits, no digit comes after it, and the character
    before it, if any, is not a digit.  [head] and [tail] are what
    surrounds it. *)
Definition rightmost_digit_run (stem head frame tail : string) : Prop :=
  stem = head +:+ frame +:+ tail
  /\ frame <> ""
  /\ all_chars is_digit frame = true
  /\ has_char is_digit tail = false
  /\ match last_char head with
     | Some c => is_digit c = false
     | None => True
     end.

Definition no_newline (s : string) : Prop :=
  all_chars (atom_matches Dot) s = true.

(** *** The range compressor, in the words of its description *)

(** Each integer is exactly 1 greater than the previous one. *)
Fixpoint consecutive (run : list Z) : Prop :=
  match run with
  | x :: (y :: _) as run' => y = x + 1 /\ consecutive run'
  | _ => True
  end.

(** [runs] cuts [l] into maximal runs of consecutive integers: the runs
    concatenate to [l], none is empty, each is consecutive, and no run
    could have been carried on with the first integer of the next. *)
Definition maximal_runs (runs : list (list Z)) (l : list Z) : Prop :=
  concat runs = l
  /\ Forall (fun run => run <> [] /\ consecutive run) runs
  /\ forall i r1 r2 a b,
       runs !! i = Some r1 -> runs !! S i = Some r2 ->
       last r1 = Some a -> head r2 = Some b -> b <> a + 1.

(** A run of length 1 is its number, a longer one is "first-last". *)
Definition run_to_string (run : list Z) : string :=
  match run with
  | [] => ""
  | [x] => str_of_int x
  | x :: _ => str_of_int x +:+ "-" +:+ str_of_int (default x (last run))
  end.

Definition runs_to_string (runs : list (list Z)) : string :=
  "[" +:+ String.concat ", " (run_to_string <$> runs) +:+ "]".

(** Reading the notation back.  [s.split(", ")]: *)
Fixpoint split_comma_space (s : string) : list string :=
  match s with
  | EmptyString => [""]
  | String c s' =>
      let keep :=
        match split_comma_space s' with
        | p :: ps => String c p :: ps
        | [] => [String c ""]
        end in
      if Ascii.eqb c "," then
        match s' with
        | String c' s'' =>
            if Ascii.eqb c' " " then "" :: split_comma_space s'' else keep
        | EmptyString => keep
        end
      else keep
  end.

(** [s] cut at its first "-". *)
Fixpoint split_first_dash (s : string) : option (string * string) :=
  match s with
  | EmptyString => None
  | String c s' =>
      if Ascii.eqb c "-" then Some ("", s')
      else '(a, b) ← split_first_dash s'; Some (String c a, b)
  end.

(** One item: a number, or "first-last" standing for every integer from
    [first] to [last].  A "-" in first place is the sign of [first]. *)
Definition parse_item (s : string) : option (list Z) :=
  match s with
  | EmptyString => None
  | String c s' =>
      match split_first_dash s' with
      | None => x ← int_of_str s; Some [x]
      | Some (a, b) =>
          x ← int_of_str (String c a);
          y ← int_of_str b;
          Some (seqZ x (y - x + 1))
      end
  end.

Fixpoint parse_items (items : list string) : option (list Z) :=
  match items with
  | [] => Some []
  | i :: rest => xs ← parse_item i; ys ← parse_items rest; Some (xs ++ ys)
  end.

(** [s] without its last character, which must be [c]. *)
Fixpoint strip_last (c : ascii) (s : string) : option string :=
  match s with
  | EmptyString => None
  | String x EmptyString => if Ascii.eqb x c then Some "" else None
  | String x s' => String x <$> strip_last c s'
  end.

Definition parse_ranges (s : string) : option (list Z) :=
  match s with
  | String c body =>
      if Ascii.eqb c "[" then
        inner ← strip_last "]" body;
        if String.eqb inner "" then Some []
        else parse_items (split_comma_space inner)
      else None
  | EmptyString => None
  end.

(** Strictly increasing: sorted and free of duplicates. *)
Fixpoint ascending (l : list Z) : bool :=
  match l with
  | x :: (y :: _) as l' => (x <? y) && ascending l'
  | _ => true
  end.

(** The order of strings: lexicographic, characters compared by code
    point. *)
Inductive lex_lt : string -> string -> Prop :=
| lex_lt_nil c s : lex_lt "" (String c s)
| lex_lt_head c1 c2 s1 s2 :
    (N_of_ascii c1 < N_of_ascii c2)%N -> lex_lt (String c1 s1) (String c2 s2)
| lex_lt_tail c s1 s2 : lex_lt s1 s2 -> lex_lt (String c s1) (String c s2).

Definition is_IndexError (e : exn) : bool :=
  match e with
  | IndexError _ => true
  | _ => false
  end.

(** The sequences that successful calls of [append] build with padding
    ignored, when a record that is handed over as a [File] has the stored
    key, or is the first.  A path may be any. *)
Inductive built : Sequence.t -> Prop :=
| built_empty : built (Sequence.empty true)
| built_path s path s' :
    built s ->
    Sequence.append (Sequence.ArgStr path) s = (Ok (), s') ->
    built s'
| built_file s file s' :
    built s ->
    Sequence.frames s = 0%nat
    \/ File.get_seq_key file true = Sequence.seq_name s ->
    Sequence.append (Sequence.ArgFile file) s = (Ok (), s') ->
    built s'.

(** *** The classifier *)

(** The records a list of sequences holds. *)
Definition members (seqs : list Sequence.t) : list File.t :=
  seqs ≫= Sequence.iter.

(** The second and the third case of [_sort_file]. *)
Definition is_non_sequence (self : Parser.t) (file_ : File.t) : bool :=
  negb (Parser.is_excluded self file_)
  && bool_decide (File.frame file_ = None).

Definition is_sequenceable (self : Parser.t) (file_ : File.t) : bool :=
  negb (Parser.is_excluded self file_)
  && bool_decide (is_Some (File.frame file_)).

(** What holds of the classifier [p], configured as [p0], while the loop
    of [parse_directory] runs, [records] being the files sorted so far. *)
Record sorting (p0 p : Parser.t) (records : list File.t) : Prop := {
  sorting_get_stats : Parser.get_stats p = Parser.get_stats p0;
  sorting_ignore_padding : Parser.ignore_padding p = Parser.ignore_padding p0;
  sorting_include_exts : Parser.include_exts p = Parser.include_exts p0;
  sorting_sequences : Parser.sequences p = [];
  sorting_single_frames : Parser.single_frames p = [];
  sorting_parsed : Parser.parsed p = false;
  sorting_excluded :
    Parser.excluded p = filter (fun f => Parser.is_excluded p0 f) records;
  sorting_non_sequences :
    Parser.non_sequences p = filter (fun f => is_non_sequence p0 f) records;
  sorting_grouped :
    Parser.collisions p ++ members (Parser._sequences p).*2
    ≡ₚ filter (fun f => is_sequenceable p0 f) records;
  sorting_keys : NoDup (Parser._sequences p).*1;
  sorting_groups :
    forall k seq,
      (k, seq) ∈ Parser._sequences p ->
      Sequence.seq_name seq = k
      /\ Sequence.ignore_padding seq = Parser.ignore_padding p0
      /\ (1 <= Sequence.frames seq)%nat
      /\ forall fr f,
           Sequence._frames seq !! fr = Some f ->
           File.frame f = Some fr
           /\ File.get_seq_key f (Parser.ignore_padding p0) = k;
  sorting_has_group :
    forall f,
      f ∈ records -> is_sequenceable p0 f = true ->
      is_Some (dict_get (File.get_seq_key f (Parser.ignore_padding p0))
                 (Parser._sequences p))
}.

(** *** Abbreviations used in the proofs *)

(** The part of [FRAMENUM_RE] after the optional group, run on [s]. *)
Definition after_group (s : string) (caps : captures) : option captures :=
  rmatch (Seq (Group 3 (Plus Digit)) (Group 4 (Star Dot))) s caps
    (fun _ c => Some c).

(** What follows the run of [.] inside the optional group, run on
    [s1]. *)
Definition in_group (name s1 : string) : option captures :=
  match s1 with
  | EmptyString => None
  | String c s2 =>
      if atom_matches NonDigit c
      then after_group s2
             (<[0%nat := Some (consumed name s2)]>
                (<[2%nat := Some (consumed s1 s2)]>
                   (<[1%nat := Some (consumed name s1)]> (replicate 5 None))))
      else None
  end.

Definition starts_nondigit (s : string) : Prop :=
  match s with
  | String c _ => is_digit c = false
  | EmptyString => False
  end.

Definition is_dash (c : ascii) : bool := Ascii.eqb c "-".

Definition is_comma (c : ascii) : bool := Ascii.eqb c ",".

(** A sequence about which the witnesses below speak: frames 1, 2 and 4
    of one shot. *)
Definition three_frames : Sequence.t :=
  let a1 := File.init "a.0001.exr" in
  Sequence.mk (<[1 := a1]> (<[2 := File.init "a.0002.exr"]>
                 (<[4 := File.init "a.0004.exr"]> ∅)))
    "a.#.exr" (File.dir a1) (File.namehead a1) (File.head a1) (File.tail a1)
    (File.ext a1) 4 false true.

(** The sequence of "a.0001.exr" alone, and the classifier that has seen
    that file only. *)
Definition one_frame : Sequence.t :=
  (Sequence.append (Sequence.ArgStr "a.0001.exr") (Sequence.empty true)).2.

Definition one_file_parser : Parser.t :=
  (Parser._sort_file "a.0001.exr" (Parser.init [] false true)).2.

(** A pass of a fresh classifier over a list of paths. *)
Definition run_parser (include_exts file_list : list string) : Parser.t :=
  (Parser.parse_directory (Some file_list)
     (Parser.init include_exts false true)).2.

Ltac parser_simpl :=
  cbn [Parser.get_stats Parser.ignore_padding Parser.include_exts
       Parser._sequences Parser.sequences Parser.single_frames
       Parser.non_sequences Parser.excluded Parser.collisions Parser.parsed
       Parser.set_sequences Parser.add_excluded Parser.add_non_sequence
       Parser.add_collision Parser._reset Parser._cleanup] in *.

(** ** get_files_in_directory

    The operating system is given by what [os.walk] yields from a path,
    by [os.path.islink] and by [os.stat], which may fail. *)

Section Listing.
Context {stat_result : Type}.

Record os := {
  walk : string -> list (string * list string * list string);
  islink : string -> bool;
  stat : string -> option stat_result
}.

(** An entry of the listing: a path, or a path with its stat. *)
Inductive entry :=
| Path (abspath : string)
| PathStat (abspath : string) (st : stat_result).

(** What raises here is a [TypeError] or the [OSError] of [os.stat]. *)
Inductive listing :=
| Listed (file_list : list entry)
| ListingTypeError (msg : string)
| ListingOSError (abspath : string).

(** The second argument of [add_files]: the file names of a directory,
    or the function [os.listdir] itself. *)
Inductive files_arg :=
| FileNames (files : list string)
| ListdirFunction.

(** The [for file in files] loop under [get_stats]. *)
Fixpoint add_stats (sys : os) (root : string) (files : list string)
    (dir_list : list entry) : listing :=
  match files with
  | [] => Listed dir_list
  | file :: files' =>
      let abspath := path_join root file in
      if islink sys abspath then add_stats sys root files' dir_list
      else
        match stat sys abspath with
        | Some st =>
            add_stats sys root files' (dir_list ++ [PathStat abspath st])
        | None => ListingOSError abspath
        end
  end.

Definition add_files (sys : os) (get_stats : bool) (root : string)
    (files : files_arg) : listing :=
  match files with
  | ListdirFunction =>
      (* iterating a function object *)
      ListingTypeError
        "'builtin_function_or_method' object is not iterable"
  | FileNames files =>
      if get_stats then add_stats sys root files []
      else Listed ((fun file => Path (path_join root file)) <$> files)
  end.

(** The [for root, dirs, files in walk(path)] loop. *)
Fixpoint walk_loop (sys : os) (get_stats : bool)
    (walked : list (string * list string * list string))
    (file_list : list entry) : listing :=
  match walked with
  | [] => Listed file_list
  | (root, _, files) :: walked' =>
      match add_files sys get_stats root (FileNames files) with
      | Listed dir_list =>
          walk_loop sys get_stats walked' (file_list ++ dir_list)
      | raised => raised
      end
  end.

Definition get_files_in_directory (sys : os) (path : string)
    (get_stats recurse : bool) : listing :=
  let file_list := [] in
  if recurse then walk_loop sys get_stats (walk sys path) file_list
  else
    match add_files sys get_stats path ListdirFunction with
    | Listed dir_list => Listed (file_list ++ dir_list)
    | raised => raised
    end.
End Listing.

(** *** More vocabulary *)

(** The paths of the files that a walk yields, in its order. *)
Definition walked_paths
    (walked : list (string * list string * list string)) : list string :=
  walked ≫= (fun '(root, _, files) => path_join root <$> files).

(** [s] is [s0] after some successful calls of [append], of any
    arguments. *)
Inductive grown (s0 : Sequence.t) : Sequence.t -> Prop :=
| grown_refl : grown s0 s0
| grown_append s arg s' :
    grown s0 s ->
    Sequence.append arg s = (Ok (), s') ->
    grown s0 s'.

(** The sequences that can be built from [Sequence()]. *)
Definition reachable (ignore_padding : bool) (s : Sequence.t) : Prop :=
  grown (Sequence.empty ignore_padding) s.

(** Whether the formatter, having read [format], is inside a directive:
    it has read "%" and waits for the character that follows. *)
Fixpoint in_directive (format : string) (matched : bool) : bool :=
  match format with
  | EmptyString => matched
  | String char rest =>
      if matched then in_directive rest false
      else in_directive rest (Ascii.eqb char "%")
  end.

(** The characters the formatter has a directive for. *)
Definition directive_chars : list ascii :=
  ["%"; "p"; "h"; "H"; "f"; "r"; "R"; "m"; "M"; "d"; "D"; "t"; "T"; "e"]%char.

Definition is_percent (c : ascii) : bool := Ascii.eqb c "%".
Definition is_dot_char (c : ascii) : bool := Ascii.eqb c ".".
Definition is_slash (c : ascii) : bool := Ascii.eqb c "/".

(** Whether every "%" of [format] is followed by a character the
    formatter has a directive for. *)
Fixpoint known_directives (format : string) (matched : bool) : bool :=
  match format with
  | EmptyString => true
  | String char rest =>
      if matched
      then bool_decide (char ∈ directive_chars) && known_directives rest false
      else known_directives rest (Ascii.eqb char "%")
  end.

(** An entry that stands for [abspath] with what [os.stat] gives for it. *)
Definition stat_entry {stat_result : Type} (sys : @os stat_result)
    (abspath : string) (e : entry) : Prop :=
  exists st, stat sys abspath = Some st /\ e = PathStat abspath st.

(** *** Lower case, by the table of the letters

    The letters of the first 256 code points that have a small form: the
    capital letters of ASCII and those of Latin-1, 192 to 222 without the
    multiplication sign 215. *)

Definition capital_letters : string := "ABCDEFGHIJKLMNOPQRSTUVWXYZ".
Definition small_letters : string := "abcdefghijklmnopqrstuvwxyz".

Definition latin1_capitals : list ascii :=
  ascii_of_nat <$> (seq 192 23 ++ seq 216 7).
Definition latin1_smalls : list ascii :=
  ascii_of_nat <$> (seq 224 23 ++ seq 248 7).

Definition case_table : list (ascii * ascii) :=
  zip (list_ascii_of_string capital_letters ++ latin1_capitals)
      (list_ascii_of_string small_letters ++ latin1_smalls).

Fixpoint small_of (table : list (ascii * ascii)) (c : ascii) : ascii :=
  match table with
  | [] => c
  | (capital, small) :: table' =>
      if Ascii.eqb c capital then small else small_of table' c
  end.

Fixpoint lowercased (s : string) : string :=
  match s with
  | EmptyString => EmptyString
  | String c s' => String (small_of case_table c) (lowercased s')
  end.

(** *** The three classes of files, in the words of the description

    A file is not allowed when an allow-list is configured and the
    lower-cased extension of the file is not in it; of the others, a file
    is without frame when it has no frame number, and is grouped
    otherwise. *)

Definition not_allowed (self : Parser.t) (f : File.t) : bool :=
  bool_decide (Parser.include_exts self ≠ ∅)
  && bool_decide (lowercased (File.ext f) ∉ Parser.include_exts self).

Definition without_frame (self : Parser.t) (f : File.t) : bool :=
  negb (not_allowed self f) && bool_decide (File.frame f = None).

Definition grouped (self : Parser.t) (f : File.t) : bool :=
  negb (not_allowed self f) && bool_decide (is_Some (File.frame f)).

(** The grouped files of key [k], in the order of the listing, and the
    first of them that has the frame number [fr]. *)
Definition group_of (self : Parser.t) (k : string) (records : list File.t)
  : list File.t :=
  filter (fun f => grouped self f
                   && String.eqb
                        (File.get_seq_key f (Parser.ignore_padding self)) k)
    records.

Definition first_of (self : Parser.t) (k : string) (fr : Z)
    (records : list File.t) : option File.t :=
  head (filter (fun f => bool_decide (File.frame f = Some fr))
          (group_of self k records)).

(** The frame numbers of a group, each once. *)
Definition frame_numbers (group : list File.t) : list Z :=
  remove_dups (omap File.frame group).

(** Every group of the classifier holds, under each frame number, the
    first file of the listing that has its key and that number. *)
Definition first_held (p0 self : Parser.t) (records : list File.t) : Prop :=
  forall k seq,
    dict_get k (Parser._sequences self) = Some seq ->
    forall fr, Sequence._frames seq !! fr = first_of p0 k fr records.

(** *** The digits of a conversion

    [sys.int_info.str_digits_check_threshold]: [int] and [str] convert
    this many digits whatever the cap of the interpreter is set to. *)

Definition str_digits_check_threshold : nat := 640.

Definition within_str_digits (z : Z) : Prop :=
  Z.abs z < 10 ^ Z.of_nat str_digits_check_threshold.

(** The keys of the files that are grouped, in the order of the
    listing. *)
Definition group_keys (self : Parser.t) (records : list File.t)
  : list string :=
  (fun f => File.get_seq_key f (Parser.ignore_padding self))
    <$> filter (fun f => is_sequenceable self f) records.

(** Every file in [collisions] has its frame number taken in the group of
    its key. *)
Definition collisions_held (self : Parser.t) : Prop :=
  forall f,
    f ∈ Parser.collisions self ->
    exists seq fr,
      dict_get (File.get_seq_key f (Parser.ignore_padding self))
        (Parser._sequences self) = Some seq
      /\ File.frame f = Some fr
      /\ is_Some (Sequence._frames seq !! fr).

(** * Properties *)

#[local] Arguments String.append !_ _ / : simpl nomatch.
(** ** Strings *)

Lemma str_app_nil_r (s : string) : s +:+ "" = s.
Proof. induction s as [|c s IH]; simpl; [done | by rewrite IH]. Qed.

Lemma str_app_assoc (a b c : string) : (a +:+ b) +:+ c = a +:+ b +:+ c.
Proof. induction a as [|x a IH]; simpl; [done | by rewrite IH]. Qed.

Lemma str_length_app (a b : string) :
  String.length (a +:+ b) = (String.length a + String.length b)%nat.
Proof. induction a as [|x a IH]; simpl; [done | by rewrite IH]. Qed.

Lemma substring_0_app (a b : string) :
  substring 0 (String.length a) (a +:+ b) = a.
Proof. induction a as [|x a IH]; simpl; [by destruct b | by rewrite IH]. Qed.

Lemma consumed_app (pre suf : string) : consumed (pre +:+ suf) suf = pre.
Proof.
  unfold consumed. rewrite str_length_app.
  replace (String.length pre + String.length suf - String.length suf)%nat
    with (String.length pre) by lia.
  apply substring_0_app.
Qed.

Lemma consumed_cons c s : consumed (String c s) s = String c "".
Proof. apply (consumed_app (String c "") s). Qed.

Lemma take_drop_while p s : take_while p s +:+ drop_while p s = s.
Proof.
  induction s as [|c s IH]; simpl; [done|].
  destruct (p c); simpl; [by rewrite IH | done].
Qed.

Lemma all_chars_take_while p s : all_chars p (take_while p s) = true.
Proof.
  induction s as [|c s IH]; simpl; [done|].
  destruct (p c) eqn:E; simpl; [by rewrite E | done].
Qed.

Lemma take_while_all p s : all_chars p s = true -> take_while p s = s.
Proof.
  induction s as [|c s IH]; simpl; [done|].
  intros [-> H]%andb_true_iff. by rewrite IH.
Qed.

Lemma all_chars_app p a b :
  all_chars p (a +:+ b) = all_chars p a && all_chars p b.
Proof.
  induction a as [|c a IH]; simpl; [done|]. by rewrite IH, andb_assoc.
Qed.

Lemma has_char_app p a b :
  has_char p (a +:+ b) = has_char p a || has_char p b.
Proof.
  induction a as [|c a IH]; simpl; [done|]. by rewrite IH, orb_assoc.
Qed.

Lemma last_char_app_cons a c b :
  last_char (a +:+ String c b) = last_char (String c b).
Proof.
  induction a as [|x a IH]; [done|].
  change (String x a +:+ String c b) with (String x (a +:+ String c b)).
  simpl last_char at 1. rewrite IH.
  by destruct a.
Qed.

(** ** The greedy star *)

Section Star.
Context {R : Type}.
Implicit Types (k : string -> option R).

Lemma star_atom_total a s k (f : string -> R) :
  (forall s', k s' = Some (f s')) ->
  star_atom a s k = Some (f (drop_while (atom_matches a) s)).
Proof.
  intros Hk. induction s as [|c s IH]; simpl; [done|].
  destruct (atom_matches a c); [by rewrite IH | done].
Qed.

Lemma star_atom_None a s k :
  star_atom a s k = None ->
  forall pre suf, s = pre +:+ suf ->
    all_chars (atom_matches a) pre = true -> k suf = None.
Proof.
  induction s as [|c s IH]; simpl; intros H pre suf Hs Hall.
  - destruct pre; [by simplify_eq/= | done].
  - destruct pre as [|c' pre]; simpl in *.
    + subst suf. destruct (atom_matches a c); [|done].
      by destruct (star_atom a s k).
    + simplify_eq. apply andb_true_iff in Hall as [Hc Hall].
      rewrite Hc in H. destruct (star_atom a _ k) eqn:E; [done|].
      by eapply IH.
Qed.

Lemma star_atom_Some a s k r :
  star_atom a s k = Some r ->
  exists pre suf,
    s = pre +:+ suf
    /\ all_chars (atom_matches a) pre = true
    /\ k suf = Some r
    /\ forall pre' suf', s = pre' +:+ suf' ->
         all_chars (atom_matches a) pre' = true ->
         (String.length pre < String.length pre')%nat -> k suf' = None.
Proof.
  revert r. induction s as [|c s IH]; simpl; intros r H.
  - exists "", "". repeat split; [done|].
    intros [|??] ? ? ? ?; simpl in *; [lia | done].
  - destruct (atom_matches a c) eqn:Hc.
    + destruct (star_atom a s k) as [r'|] eqn:E.
      * simplify_eq. destruct (IH _ eq_refl) as (pre & suf & -> & Hall & Hk & Hmax).
        exists (String c pre), suf. simpl. rewrite Hc. repeat split; [done..|].
        intros [|c' pre'] suf' Hs Hall' Hlen; simpl in *; [lia|].
        simplify_eq. apply andb_true_iff in Hall' as [_ Hall'].
        eapply Hmax; [done.. | lia].
      * exists "", (String c s). repeat split; [done|].
        intros [|c' pre'] suf' Hs Hall' Hlen; simpl in *; [lia|].
        simplify_eq. apply andb_true_iff in Hall' as [_ Hall'].
        by eapply star_atom_None.
    + exists "", (String c s). repeat split; [done|].
      intros [|c' pre'] suf' Hs Hall' Hlen; simpl in *; [lia|].
      simplify_eq. by rewrite Hc in Hall'.
Qed.
End Star.

(** ** extract_frame *)




Lemma re_match_unfold name :
  re_match FRAMENUM_RE name =
  match star_atom Dot name (in_group name) with
  | Some c => Some c
  | None => after_group name (replicate 5 None)
  end.
Proof. reflexivity. Qed.

Lemma consumed_drop_while p s : consumed s (drop_while p s) = take_while p s.
Proof.
  rewrite <- (take_drop_while p s) at 1. apply consumed_app.
Qed.

Lemma after_group_eq s caps :
  after_group s caps =
  match s with
  | String d s' =>
      if is_digit d
      then Some (<[4%nat := Some (take_while (atom_matches Dot)
                                    (drop_while is_digit s'))]>
                   (<[3%nat := Some (String d (take_while is_digit s'))]> caps))
      else None
  | EmptyString => None
  end.
Proof.
  unfold after_group. cbn [rmatch]. destruct s as [|d s']; [done|].
  cbn [atom_matches]. destruct (is_digit d) eqn:Hd; [|done].
  rewrite (star_atom_total Digit s' _
    (fun s'' => <[4%nat := Some (take_while (atom_matches Dot) s'')]>
                  (<[3%nat := Some (consumed (String d s') s'')]> caps))).
  - do 3 f_equal.
    change (String d s') with (String d "" +:+ s').
    rewrite <- (take_drop_while is_digit s') at 1.
    rewrite <- str_app_assoc. by rewrite consumed_app.
  - intros s''.
    rewrite (star_atom_total Dot s'' _
      (fun s2 => <[4%nat := Some (consumed s'' s2)]>
                   (<[3%nat := Some (consumed (String d s') s'')]> caps)));
      [|done].
    by rewrite consumed_drop_while.
Qed.

Lemma drop_while_digit_head s :
  drop_while is_digit s = "" \/ starts_nondigit (drop_while is_digit s).
Proof.
  induction s as [|c s IH]; simpl; [by left|].
  destruct (is_digit c) eqn:E; [done | by right].
Qed.

(** A digit after a non-digit: somewhere a non-digit is followed by a
    digit. *)
Lemma digit_after_nondigit t :
  starts_nondigit t -> has_char is_digit t = true ->
  exists u c d v, t = u +:+ String c (String d v)
                  /\ is_digit c = false /\ is_digit d = true.
Proof.
  induction t as [|c t IH]; [done|]. simpl. intros Hc Ht.
  rewrite Hc in Ht. simpl in Ht. destruct t as [|d t]; [done|].
  destruct (is_digit d) eqn:Hd.
  - by exists "", c, d, t.
  - destruct (IH Hd Ht) as (u & c' & d' & v & -> & ? & ?).
    by exists (String c u), c', d', v.
Qed.

Lemma in_group_pair name c d v :
  is_digit c = false -> is_digit d = true ->
  is_Some (in_group name (String c (String d v))).
Proof.
  intros Hc Hd. unfold in_group. cbn [atom_matches]. rewrite Hc. simpl negb.
  cbv iota. rewrite after_group_eq, Hd. done.
Qed.

Lemma has_char_false_all p s :
  has_char p s = false -> all_chars (fun c => negb (p c)) s = true.
Proof.
  induction s as [|c s IH]; simpl; [done|].
  intros [-> ?]%orb_false_iff. simpl. auto.
Qed.

(** On a stem without line feed, [extract_frame] splits around the
    rightmost run of digits, and returns the stem untouched when it has no
    digit. *)
Lemma extract_frame_no_newline (stem : string) :
  no_newline stem ->
  let '(head, frame, tail) := extract_frame stem in
  head +:+ frame +:+ tail = stem
  /\ (has_char is_digit stem = true ->
      rightmost_digit_run stem head frame tail)
  /\ (has_char is_digit stem = false ->
      (head, frame, tail) = (stem, "", "")).
Proof.
  intros Hnl. unfold extract_frame. rewrite re_match_unfold.
  destruct (star_atom Dot stem (in_group stem)) as [caps|] eqn:Hstar.
  - apply star_atom_Some in Hstar as (pre & suf & Hs & Hpre & Hk & Hmax).
    unfold in_group in Hk. destruct suf as [|c s2]; [done|].
    cbn [atom_matches] in Hk. destruct (is_digit c) eqn:Hc; [done|].
    simpl negb in Hk. cbv iota in Hk. rewrite after_group_eq in Hk.
    destruct s2 as [|d s3]; [done|]. destruct (is_digit d) eqn:Hd; [|done].
    simplify_eq. unfold group. cbn -[consumed String.append take_while drop_while].
    unfold no_newline in Hnl.
    rewrite <- (take_drop_while is_digit s3) in Hnl.
    rewrite !all_chars_app in Hnl. simpl in Hnl. rewrite all_chars_app in Hnl.
    apply andb_true_iff in Hnl as [_ Hnl].
    apply andb_true_iff in Hnl as [Hcdot Hnl].
    apply andb_true_iff in Hnl as [Hddot Hnl].
    apply andb_true_iff in Hnl as [Htw Hdw].
    rewrite (take_while_all _ _ Hdw).
    assert (Hhead : consumed (pre +:+ String c (String d s3)) (String d s3)
                    = pre +:+ String c "").
    { rewrite <- (consumed_app (pre +:+ String c "") (String d s3)).
      by rewrite str_app_assoc. }
    rewrite Hhead.
    assert (Hcat : (pre +:+ String c "") +:+ String d (take_while is_digit s3)
                     +:+ drop_while is_digit s3
                   = pre +:+ String c (String d s3)).
    { rewrite str_app_assoc. simpl. by rewrite take_drop_while. }
    split; [done|]. split.
    + intros _. repeat split; [done | done | ..].
      * simpl. by rewrite Hd, all_chars_take_while.
      * destruct (has_char is_digit (drop_while is_digit s3)) eqn:Hdig; [|done].
        destruct (drop_while_digit_head s3) as [E | Hnd];
          [by rewrite E in Hdig|].
        destruct (digit_after_nondigit _ Hnd Hdig)
          as (u & c' & d' & v & Hu & Hc' & Hd').
        assert (is_Some (in_group (pre +:+ String c (String d s3))
                           (String c' (String d' v)))) as [x Hx]
          by by apply in_group_pair.
        rewrite (Hmax (pre +:+ String c (String d (take_while is_digit s3))
                         +:+ u) (String c' (String d' v))) in Hx; [done|..].
        -- rewrite !str_app_assoc. simpl.
           by rewrite <- Hu, take_drop_while.
        -- rewrite Hu, all_chars_app in Hdw.
           apply andb_true_iff in Hdw as [Hu' _].
           rewrite !all_chars_app. simpl.
           by rewrite Hpre, Hcdot, Hddot, Htw, Hu'.
        -- rewrite !str_length_app. simpl. lia.
      * by rewrite last_char_app_cons.
    + rewrite has_char_app. simpl. rewrite Hd.
      by rewrite !orb_true_r.
  - assert (Hnone : forall pre c d v,
              stem = pre +:+ String c (String d v) ->
              is_digit c = false -> is_digit d = true -> False).
    { intros pre c d v Hs Hc Hd.
      destruct (in_group_pair stem c d v Hc Hd) as [x Hx].
      rewrite (star_atom_None _ _ _ Hstar pre _ Hs) in Hx; [done|].
      unfold no_newline in Hnl. rewrite Hs, all_chars_app in Hnl.
      by apply andb_true_iff in Hnl as [? _]. }
    rewrite after_group_eq. destruct stem as [|d s'].
    { by cbn. }
    destruct (is_digit d) eqn:Hd.
    + unfold group. cbn -[consumed String.append take_while drop_while].
      unfold no_newline in Hnl.
      rewrite <- (take_drop_while is_digit s') in Hnl. simpl in Hnl.
      rewrite all_chars_app in Hnl.
      apply andb_true_iff in Hnl as [_ Hnl].
      apply andb_true_iff in Hnl as [_ Hdw].
      rewrite (take_while_all _ _ Hdw). simpl.
      rewrite take_drop_while. split; [done|]. split.
      * intros _. repeat split;
          [simpl; by rewrite take_drop_while | done | ..].
        -- simpl. by rewrite Hd, all_chars_take_while.
        -- destruct (has_char is_digit (drop_while is_digit s')) eqn:Hdig;
             [|done].
           destruct (drop_while_digit_head s') as [E | Hnd];
             [by rewrite E in Hdig|].
           destruct (digit_after_nondigit _ Hnd Hdig)
             as (u & c' & d' & v & Hu & Hc' & Hd').
           destruct (Hnone (String d (take_while is_digit s') +:+ u) c' d' v);
             [|done..].
           rewrite str_app_assoc. simpl.
           by rewrite <- Hu, take_drop_while.
      * by rewrite Hd.
    + cbn -[String.append]. rewrite !str_app_nil_r. split; [done|]. split.
      * intros Hdig.
        destruct (digit_after_nondigit (String d s') Hd Hdig)
          as (u & c' & d' & v & Hu & Hc' & Hd').
        by destruct (Hnone u c' d' v).
      * done.
Qed.

(** C1, where the code parts from it.  [.] matches no line feed, so on a
    stem that holds one the pattern stops short: of "take1", a line feed
    and "b", the function returns ("take", "1", "") and the parts no
    longer make up the stem; and of "a", a line feed and "b1" it returns
    no frame although the stem ends in a digit.  On stems without a line
    feed the function does what its docstring says
    ([extract_frame_no_newline]). *)
Theorem extract_frame_line_feed :
  let stem := "take1" +:+ String newline "b" in
  let stem' := "a" +:+ String newline "b1" in
  extract_frame stem = ("take", "1", "")
  /\ "take" +:+ "1" +:+ "" <> stem
  /\ has_char is_digit stem' = true
  /\ extract_frame stem' = (stem', "", "").
Proof. split_and!; [reflexivity | discriminate | reflexivity..]. Qed.

(** ** Decimal notation *)

Lemma int_of_str_of_int (z : Z) : int_of_str (str_of_int z) = Some z.
Proof.
  unfold int_of_str, str_of_int. rewrite NilZero.isi.
  - simpl. by rewrite DecimalZ.of_to.
  - destruct z; simpl; [done | | done].
    intros [= H]. by apply DecimalPos.Unsigned.to_uint_nonnil in H.
  - destruct z; simpl; [done | done |].
    intros [= H]. by apply DecimalPos.Unsigned.to_uint_nonnil in H.
Qed.

Lemma string_of_uint_digits (d : Decimal.uint) :
  all_chars is_digit (NilEmpty.string_of_uint d) = true.
Proof. induction d; simpl; auto. Qed.

Lemma string_of_uint_nonempty (d : Decimal.uint) :
  NilZero.string_of_uint d <> "".
Proof. by destruct d. Qed.

Lemma nilzero_uint_digits (d : Decimal.uint) :
  all_chars is_digit (NilZero.string_of_uint d) = true.
Proof. destruct d; try apply (string_of_uint_digits (_ _)). done. Qed.


(** [str(z)] is one character, a digit or the sign, followed by digits
    only. *)
Lemma str_of_int_shape (z : Z) :
  exists c s, str_of_int z = String c s
              /\ all_chars is_digit s = true
              /\ is_comma c = false.
Proof.
  unfold str_of_int. destruct (Z.to_int z) as [d|d]; simpl.
  - pose proof (nilzero_uint_digits d) as H.
    destruct (NilZero.string_of_uint d) as [|c s] eqn:E.
    + by apply string_of_uint_nonempty in E.
    + simpl in H. apply andb_true_iff in H as [Hc Hs].
      exists c, s. repeat split; [done|].
      unfold is_comma. destruct (Ascii.eqb_spec c ","); [by subst | done].
  - exists "-"%char, (NilZero.string_of_uint d).
    repeat split. apply nilzero_uint_digits.
Qed.

Lemma digits_no_char (p : ascii -> bool) (s : string) :
  (forall c, is_digit c = true -> p c = false) ->
  all_chars is_digit s = true -> has_char p s = false.
Proof.
  intros Hp. induction s as [|c s IH]; simpl; [done|].
  intros [Hc Hs]%andb_true_iff. by rewrite (Hp c Hc), IH.
Qed.

Lemma digit_not_dash c : is_digit c = true -> is_dash c = false.
Proof.
  unfold is_dash. destruct (Ascii.eqb_spec c "-"); [by subst | done].
Qed.

Lemma digit_not_comma c : is_digit c = true -> is_comma c = false.
Proof.
  unfold is_comma. destruct (Ascii.eqb_spec c ","); [by subst | done].
Qed.

(** ** Reading the notation back *)

Lemma split_first_dash_none s :
  has_char is_dash s = false -> split_first_dash s = None.
Proof.
  induction s as [|c s IH]; simpl; [done|].
  intros [Hc Hs]%orb_false_iff. unfold is_dash in Hc. rewrite Hc.
  by rewrite IH.
Qed.

Lemma split_first_dash_app a b :
  has_char is_dash a = false ->
  split_first_dash (a +:+ String "-" b) = Some (a, b).
Proof.
  induction a as [|c a IH]; simpl; [done|].
  intros [Hc Ha]%orb_false_iff. unfold is_dash in Hc. rewrite Hc.
  by rewrite IH.
Qed.

Lemma strip_last_app c s : strip_last c (s +:+ String c "") = Some s.
Proof.
  induction s as [|x s IH]; simpl; [by rewrite Ascii.eqb_refl|].
  rewrite IH. by destruct s.
Qed.

Lemma split_comma_space_nonempty s : split_comma_space s <> [].
Proof.
  destruct s as [|c s]; simpl; [done|].
  destruct (split_comma_space s), (Ascii.eqb c ","), s as [|c' s'];
    try done; by destruct (Ascii.eqb c' " ").
Qed.

Lemma split_comma_space_no_comma s :
  has_char is_comma s = false -> split_comma_space s = [s].
Proof.
  induction s as [|c s IH]; simpl; [done|].
  intros [Hc Hs]%orb_false_iff. unfold is_comma in Hc. rewrite Hc.
  by rewrite IH.
Qed.

Lemma split_comma_space_app item rest :
  has_char is_comma item = false ->
  split_comma_space (item +:+ ", " +:+ rest) = item :: split_comma_space rest.
Proof.
  induction item as [|c item IH]; simpl; [done|].
  intros [Hc Hs]%orb_false_iff. unfold is_comma in Hc. rewrite Hc.
  simpl in IH. by rewrite IH.
Qed.

Lemma split_comma_space_concat items :
  items <> [] ->
  Forall (fun item => has_char is_comma item = false) items ->
  split_comma_space (String.concat ", " items) = items.
Proof.
  induction items as [|item items IH]; [done|]. intros _ Hall.
  apply Forall_cons in Hall as [Hitem Hall].
  destruct items as [|item' items].
  - simpl. by apply split_comma_space_no_comma.
  - change (String.concat ", " (item :: item' :: items))
      with (item +:+ ", " +:+ String.concat ", " (item' :: items)).
    rewrite split_comma_space_app by done. by rewrite IH.
Qed.

Lemma concat_nonempty sep item items :
  item <> "" -> String.concat sep (item :: items) <> "".
Proof.
  destruct item as [|c item]; [done|]. intros _.
  destruct items; [done|]. by simpl.
Qed.

(** ** Runs *)

Lemma consecutive_last (x : Z) (run : list Z) :
  consecutive (x :: run) -> last (x :: run) = Some (x + Z.of_nat (length run)).
Proof.
  revert x. induction run as [|y run IH]; intros x Hc.
  - simpl. f_equal. lia.
  - destruct Hc as [-> Hc]. rewrite last_cons_cons, (IH _ Hc).
    f_equal. simpl length. lia.
Qed.

Lemma consecutive_seqZ (x : Z) (run : list Z) :
  consecutive (x :: run) -> seqZ x (Z.of_nat (S (length run))) = x :: run.
Proof.
  revert x. induction run as [|y run IH]; intros x Hc.
  - done.
  - destruct Hc as [-> Hc]. rewrite seqZ_cons by lia. f_equal.
    rewrite <- (IH _ Hc) at 2. f_equal; simpl length; lia.
Qed.

Lemma parse_item_run (run : list Z) :
  run <> [] -> consecutive run -> parse_item (run_to_string run) = Some run.
Proof.
  destruct run as [|x run]; [done|]. intros _ Hc.
  destruct (str_of_int_shape x) as (c & s & Hx & Hs & _).
  destruct run as [|y run].
  - simpl. rewrite Hx. simpl.
    rewrite split_first_dash_none
      by (apply digits_no_char; [apply digit_not_dash | done]).
    rewrite <- Hx, int_of_str_of_int. done.
  - unfold run_to_string. rewrite Hx. simpl.
    rewrite split_first_dash_app
      by (apply digits_no_char; [apply digit_not_dash | done]).
    rewrite <- Hx, !int_of_str_of_int. simpl.
    f_equal. rewrite <- (last_cons_cons x), (consecutive_last _ _ Hc).
    simpl default.
    rewrite <- (consecutive_seqZ _ _ Hc). f_equal. simpl length. lia.
Qed.

Lemma str_of_int_no_comma (z : Z) : has_char is_comma (str_of_int z) = false.
Proof.
  destruct (str_of_int_shape z) as (c & s & -> & Hs & Hc). simpl.
  rewrite Hc. apply digits_no_char; [apply digit_not_comma | done].
Qed.

Lemma run_to_string_no_comma (run : list Z) :
  has_char is_comma (run_to_string run) = false.
Proof.
  destruct run as [|x [|y run]]; simpl; [done | apply str_of_int_no_comma |].
  rewrite has_char_app. simpl. by rewrite !str_of_int_no_comma.
Qed.

Lemma run_to_string_nonempty (run : list Z) :
  run <> [] -> run_to_string run <> "".
Proof.
  destruct run as [|x run]; [done|]. intros _.
  destruct (str_of_int_shape x) as (c & s & Hx & _).
  destruct run; simpl; by rewrite Hx.
Qed.

Lemma parse_items_runs (runs : list (list Z)) :
  Forall (fun run => run <> [] /\ consecutive run) runs ->
  parse_items (run_to_string <$> runs) = Some (concat runs).
Proof.
  induction 1 as [|run runs [Hne Hc] _ IH]; [done|].
  rewrite fmap_cons. cbn [parse_items]. rewrite parse_item_run by done.
  rewrite IH. done.
Qed.

(** Reading back what the compressor writes for a list of runs gives the
    integers of the runs. *)
Lemma parse_runs_to_string (runs : list (list Z)) :
  Forall (fun run => run <> [] /\ consecutive run) runs ->
  parse_ranges (runs_to_string runs) = Some (concat runs).
Proof.
  intros Hruns. unfold runs_to_string, parse_ranges. simpl.
  rewrite strip_last_app. simpl.
  destruct runs as [|run runs]; [done|].
  destruct (String.eqb_spec (String.concat ", " (run_to_string <$> run :: runs)) "")
    as [E|_].
  { apply concat_nonempty in E; [done|].
    apply run_to_string_nonempty. by apply Forall_cons in Hruns as [[? _] _]. }
  rewrite split_comma_space_concat.
  - by apply parse_items_runs.
  - done.
  - apply Forall_fmap, Forall_true. intros r. apply run_to_string_no_comma.
Qed.

(** ** The loop of frame_ranges_to_string *)

Lemma consecutive_snoc (run : list Z) (prev x : Z) :
  consecutive run -> last run = Some prev -> x - 1 = prev ->
  consecutive (run ++ [x]).
Proof.
  intros Hc Hl Hx. induction run as [|a run IH]; [done|].
  destruct run as [|b run].
  - simpl in *. simplify_eq. split; [lia | done].
  - destruct Hc as [-> Hc]. rewrite last_cons_cons in Hl.
    split; [done|]. by apply IH.
Qed.

Lemma maximal_runs_extend (init : list (list Z)) (cur l : list Z) (x prev : Z) :
  maximal_runs (init ++ [cur]) l -> last cur = Some prev -> x - 1 = prev ->
  maximal_runs (init ++ [cur ++ [x]]) (l ++ [x]).
Proof.
  intros (Hcat & Hall & Hadj) Hl Hx.
  apply Forall_app in Hall as [Hinit Hcur].
  apply Forall_singleton in Hcur as [Hne Hcons].
  split; [|split].
  - rewrite <- Hcat, !concat_app. simpl. by rewrite !app_nil_r, app_assoc.
  - apply Forall_app. split; [done|]. apply Forall_singleton. split.
    + by destruct cur.
    + by eapply consecutive_snoc.
  - intros i r1 r2 a b H1 H2 Ha Hb.
    destruct (decide (S i < length init)%nat) as [Hlt|Hge].
    + rewrite lookup_app_l in H1 by lia. rewrite lookup_app_l in H2 by lia.
      apply (Hadj i r1 r2 a b); [| |done..]; by rewrite lookup_app_l by lia.
    + destruct (decide (S i = length init)) as [Heq|Hne'].
      * rewrite lookup_app_l in H1 by lia.
        rewrite Heq, list_lookup_middle in H2 by done. simplify_eq.
        apply (Hadj i r1 cur a b); [by rewrite lookup_app_l by lia | | done |].
        -- by rewrite Heq, list_lookup_middle.
        -- by destruct cur.
      * apply lookup_lt_Some in H2. rewrite length_app in H2. simpl in H2. lia.
Qed.

Lemma maximal_runs_open (runs : list (list Z)) (cur l : list Z) (x prev : Z) :
  maximal_runs (runs ++ [cur]) l -> last cur = Some prev -> x - 1 <> prev ->
  maximal_runs ((runs ++ [cur]) ++ [[x]]) (l ++ [x]).
Proof.
  intros (Hcat & Hall & Hadj) Hl Hx. split; [|split].
  - by rewrite concat_app, Hcat.
  - apply Forall_app. split; [done|]. by apply Forall_singleton.
  - intros i r1 r2 a b H1 H2 Ha Hb.
    destruct (decide (S i < length (runs ++ [cur]))%nat) as [Hlt|Hge].
    + rewrite lookup_app_l in H1 by lia. rewrite lookup_app_l in H2 by lia.
      by apply (Hadj i r1 r2 a b).
    + destruct (decide (S i = length (runs ++ [cur]))) as [Heq|Hne'].
      * rewrite Heq, list_lookup_middle in H2 by done. simplify_eq.
        rewrite length_app in Heq. simpl in Heq.
        assert (i = length runs) as -> by lia.
        rewrite <- app_assoc in H1. simpl in H1.
        rewrite list_lookup_middle in H1 by done.
        simplify_eq. simpl in Hb. simplify_eq. lia.
      * apply lookup_lt_Some in H2. rewrite !length_app in *. simpl in *. lia.
Qed.

Lemma ranges_step_spec (init : list (list Z)) (cur l : list Z) (x : Z) :
  maximal_runs (init ++ [cur]) l ->
  exists init' cur',
    ranges_step (init ++ [cur], length init) x
    = Ok (init' ++ [cur'], length init')
    /\ maximal_runs (init' ++ [cur']) (l ++ [x]).
Proof.
  intros Hruns. unfold ranges_step, list_get.
  rewrite list_lookup_middle by done. simpl.
  assert (Hne : cur <> []).
  { destruct Hruns as (_ & Hall & _).
    apply Forall_app in Hall as [_ Hcur].
    by apply Forall_singleton in Hcur as [? _]. }
  unfold list_last. destruct (last cur) as [prev|] eqn:Hl.
  2: { by apply last_None in Hl. }
  simpl. destruct (decide (x - 1 = prev)) as [Hx|Hx].
  - exists init, (cur ++ [x]). split.
    + rewrite insert_app_r_alt by lia. by rewrite Nat.sub_diag.
    + by eapply maximal_runs_extend.
  - exists (init ++ [cur]), [x]. split.
    + rewrite length_app. simpl. do 3 f_equal. lia.
    + by eapply maximal_runs_open.
Qed.

Lemma ranges_loop_spec (rest : list Z) :
  forall (init : list (list Z)) (cur l : list Z),
    maximal_runs (init ++ [cur]) l ->
    exists st, ranges_loop (init ++ [cur], length init) rest = Ok st
               /\ maximal_runs st.1 (l ++ rest).
Proof.
  induction rest as [|x rest IH]; intros init cur l Hruns.
  - exists (init ++ [cur], length init). by rewrite app_nil_r.
  - destruct (ranges_step_spec init cur l x Hruns)
      as (init' & cur' & Hstep & Hruns').
    destruct (IH _ _ _ Hruns') as (st & Hloop & Hst).
    exists st. cbn [ranges_loop]. rewrite Hstep. split; [done|].
    by rewrite <- app_assoc in Hst.
Qed.

Lemma range_to_string_ok (run : list Z) :
  run <> [] -> range_to_string run = Ok (run_to_string run).
Proof.
  destruct run as [|x [|y run]]; [done | done |]. intros _.
  unfold range_to_string, list_get, list_last. simpl length. simpl.
  destruct (last (y :: run)) as [b|] eqn:Hl; [done|].
  by apply last_None in Hl.
Qed.

Lemma ranges_to_strings_ok (runs : list (list Z)) :
  Forall (fun run => run <> []) runs ->
  ranges_to_strings runs = Ok (run_to_string <$> runs).
Proof.
  induction 1 as [|run runs Hne _ IH]; [done|].
  rewrite fmap_cons. cbn [ranges_to_strings].
  rewrite range_to_string_ok by done. rewrite IH. done.
Qed.

(** The string returned is the notation of the maximal runs of the items
    of the argument; no exception is raised. *)
Lemma frame_ranges_to_string_runs (frame_list : iterable) (h : heap) :
  exists runs,
    maximal_runs runs (items_of h frame_list)
    /\ (frame_ranges_to_string frame_list h).1 = Ok (runs_to_string runs).
Proof.
  unfold frame_ranges_to_string.
  destruct (items_of h frame_list) as [|first rest] eqn:Hitems.
  - exists []. split; [|done]. split; [done|]. split; [done|].
    intros i ????; by rewrite lookup_nil.
  - assert (Hinit : maximal_runs ([] ++ [[first]]) [first]).
    { split; [done|]. split; [by apply Forall_singleton|].
      intros [|i] ???? H1 H2; simpl in *; by rewrite ?lookup_nil in *. }
    destruct (ranges_loop_spec rest [] [first] [first] Hinit)
      as (st & Hloop & Hst).
    exists st.1. split; [done|].
    destruct frame_list as [l|xs]; simpl; rewrite lookup_insert_eq; simpl.
    all: simpl in Hloop; rewrite Hloop; simpl.
    all: rewrite ranges_to_strings_ok; [done|].
    all: destruct Hst as (_ & Hall & _);
      eapply Forall_impl; [exact Hall | by intros ? [? _]].
Qed.





(** An argument that is no list is copied first: the objects of the
    caller stay as they are. *)
Lemma frame_ranges_copies_tuple (h : heap) (items : list Z) (l : loc) :
  is_Some (h !! l) ->
  (frame_ranges_to_string (PyTuple items) h).2 !! l = h !! l.
Proof.
  intros Hl. unfold frame_ranges_to_string. simpl.
  destruct items as [|first rest]; [done|]. simpl.
  assert (Hfresh : fresh_loc h <> l).
  { intros <-. apply elem_of_dom in Hl. by apply (is_fresh (dom h)). }
  by rewrite !lookup_insert_ne.
Qed.

(** ** Sequence: the accessors *)

Lemma foldl_min_spec (x : Z) (xs : list Z) :
  foldl Z.min x xs ∈ x :: xs /\ forall k, k ∈ x :: xs -> foldl Z.min x xs <= k.
Proof.
  revert x. induction xs as [|y xs IH]; intros x; simpl.
  - split; [by left|]. intros k ->%list_elem_of_singleton. lia.
  - destruct (IH (Z.min x y)) as [Hin Hle]. split.
    + apply elem_of_cons in Hin as [->|Hin].
      * destruct (Z.min_spec x y) as [[_ ->]|[_ ->]];
          [by left | by right; left].
      * by do 2 right.
    + intros k Hk. apply elem_of_cons in Hk as [->|Hk].
      * specialize (Hle (Z.min x y) ltac:(by left)). lia.
      * apply elem_of_cons in Hk as [->|Hk].
        -- specialize (Hle (Z.min x y) ltac:(by left)). lia.
        -- apply Hle. by right.
Qed.

Lemma foldl_max_spec (x : Z) (xs : list Z) :
  foldl Z.max x xs ∈ x :: xs /\ forall k, k ∈ x :: xs -> k <= foldl Z.max x xs.
Proof.
  revert x. induction xs as [|y xs IH]; intros x; simpl.
  - split; [by left|]. intros k ->%list_elem_of_singleton. lia.
  - destruct (IH (Z.max x y)) as [Hin Hle]. split.
    + apply elem_of_cons in Hin as [->|Hin].
      * destruct (Z.max_spec x y) as [[_ ->]|[_ ->]];
          [by right; left | by left].
      * by do 2 right.
    + intros k Hk. apply elem_of_cons in Hk as [->|Hk].
      * specialize (Hle (Z.max x y) ltac:(by left)). lia.
      * apply elem_of_cons in Hk as [->|Hk].
        -- specialize (Hle (Z.max x y) ltac:(by left)). lia.
        -- apply Hle. by right.
Qed.

Lemma elem_of_keys (s : Sequence.t) (k : Z) :
  k ∈ Sequence.keys s <-> is_Some (Sequence._frames s !! k).
Proof.
  unfold Sequence.keys. rewrite list_elem_of_fmap. split.
  - intros [[k' f] [-> H%elem_of_map_to_list]]. by exists f.
  - intros [f H]. exists (k, f). split; [done|]. by apply elem_of_map_to_list.
Qed.

Lemma keys_nonempty (s : Sequence.t) :
  Sequence._frames s <> ∅ -> Sequence.keys s <> [].
Proof.
  unfold Sequence.keys. intros Hne E. apply fmap_nil_inv in E.
  by apply map_to_list_empty_iff in E.
Qed.

Lemma length_keys (s : Sequence.t) :
  length (Sequence.keys s) = Sequence.frames s.
Proof.
  unfold Sequence.keys, Sequence.frames, Sequence.len.
  by rewrite length_fmap, length_map_to_list.
Qed.

(** On a sequence with frames, [start] and [end] return the least and the
    greatest key. *)
Lemma start_end_spec (s : Sequence.t) :
  Sequence._frames s <> ∅ ->
  exists lo hi,
    Sequence.start s = Ok lo /\ Sequence.end_ s = Ok hi
    /\ is_Some (Sequence._frames s !! lo)
    /\ is_Some (Sequence._frames s !! hi)
    /\ forall k, is_Some (Sequence._frames s !! k) -> lo <= k <= hi.
Proof.
  intros Hne%keys_nonempty. unfold Sequence.start, Sequence.end_.
  destruct (Sequence.keys s) as [|x xs] eqn:Hkeys; [done|]. simpl.
  destruct (foldl_min_spec x xs) as [Hmin_in Hmin].
  destruct (foldl_max_spec x xs) as [Hmax_in Hmax].
  exists (foldl Z.min x xs), (foldl Z.max x xs).
  split; [done|]. split; [done|].
  rewrite <- Hkeys in *. rewrite <- !elem_of_keys.
  split; [done|]. split; [done|].
  intros k Hk%elem_of_keys. split; [by apply Hmin | by apply Hmax].
Qed.

Lemma ascending_cons (x : Z) (l : list Z) :
  Forall (fun y => x < y) l -> ascending l = true -> ascending (x :: l) = true.
Proof.
  destruct l as [|y l]; [done|]. intros Hall Hl.
  apply Forall_cons in Hall as [Hxy _]. simpl in *.
  rewrite Hl. by apply Z.ltb_lt in Hxy as ->.
Qed.

Lemma ascending_filter_seqZ (P : Z -> Prop) `{!forall k, Decision (P k)}
    (m n : Z) :
  ascending (filter P (seqZ m n)) = true.
Proof.
  remember (Z.to_nat n) as len eqn:Hlen. revert m n Hlen.
  induction len as [|len IH]; intros m n Hlen.
  - by rewrite seqZ_nil by lia.
  - rewrite seqZ_cons by lia. rewrite filter_cons.
    specialize (IH (Z.succ m) (Z.pred n) ltac:(lia)).
    destruct (decide (P m)); [|done].
    apply ascending_cons; [|done].
    apply Forall_forall. intros y [_ Hy%elem_of_seqZ]%list_elem_of_filter.
    lia.
Qed.

(** The keys are exactly the integers of [lo..hi] that are in the map, so
    the integers that are not are [hi - lo + 1] less the number of
    keys. *)
Lemma length_missing (s : Sequence.t) (lo hi : Z) :
  (forall k, is_Some (Sequence._frames s !! k) -> lo <= k <= hi) ->
  lo <= hi ->
  Z.of_nat (length (filter (fun k => Sequence._frames s !! k = None)
                       (seqZ lo (hi + 1 - lo))))
  = hi - lo + 1 - Z.of_nat (Sequence.frames s).
Proof.
  intros Hbound Hle.
  set (P := fun k : Z => Sequence._frames s !! k = None).
  set (range := seqZ lo (hi + 1 - lo)).
  pose proof (filter_app_complement P range) as Hperm.
  apply Permutation_length in Hperm. rewrite length_app in Hperm.
  assert (Hkeys : filter (fun k => ¬ P k) range ≡ₚ Sequence.keys s).
  { apply NoDup_Permutation.
    - apply NoDup_filter, NoDup_seqZ.
    - apply NoDup_fst_map_to_list.
    - intros k. rewrite list_elem_of_filter, elem_of_keys. unfold P, range.
      rewrite elem_of_seqZ, <- not_eq_None_Some. split; [tauto|].
      intros Hk. split; [done|].
      apply not_eq_None_Some, Hbound in Hk. lia. }
  apply Permutation_length in Hkeys. rewrite length_keys in Hkeys.
  unfold range in Hperm at 3. rewrite length_seqZ in Hperm. lia.
Qed.

Lemma frames_pos_nonempty (s : Sequence.t) :
  (0 < Sequence.frames s)%nat -> Sequence._frames s <> ∅.
Proof.
  unfold Sequence.frames, Sequence.len. intros H.
  apply map_size_non_empty_iff. lia.
Qed.


(** C5. On a sequence that has frames, [start] is the least frame number
    present and [end] the greatest, [implied_frames] is [end - start + 1],
    [missing_frames] is [implied_frames - frames], [is_missing_frames]
    tells whether [frames] differs from [implied_frames], and
    [get_missing_frames] is the ascending list of the integers of
    [start..end] that are not in the frame map, [missing_frames] long. *)
Theorem sequence_frame_counts (s : Sequence.t) :
  (0 < Sequence.frames s)%nat ->
  exists lo hi missing,
    Sequence.start s = Ok lo
    /\ Sequence.end_ s = Ok hi
    /\ is_Some (Sequence._frames s !! lo)
    /\ is_Some (Sequence._frames s !! hi)
    /\ (forall k, is_Some (Sequence._frames s !! k) -> lo <= k <= hi)
    /\ Sequence.implied_frames s = Ok (hi - lo + 1)
    /\ Sequence.missing_frames s
       = Ok (hi - lo + 1 - Z.of_nat (Sequence.frames s))
    /\ Sequence.is_missing_frames s
       = Ok (bool_decide (Z.of_nat (Sequence.frames s) <> hi - lo + 1))
    /\ Sequence.get_missing_frames s = Ok missing
    /\ Z.of_nat (length missing) = hi - lo + 1 - Z.of_nat (Sequence.frames s)
    /\ ascending missing = true
    /\ (forall k, k ∈ missing <->
                  lo <= k <= hi /\ Sequence._frames s !! k = None).
Proof.
  intros Hpos%frames_pos_nonempty.
  destruct (start_end_spec s Hpos) as (lo & hi & Hlo & Hhi & Hlo_in & Hhi_in & Hb).
  exists lo, hi, (filter (fun k => Sequence._frames s !! k = None)
                    (seqZ lo (hi + 1 - lo))).
  pose proof (Hb lo Hlo_in) as Hle.
  unfold Sequence.implied_frames, Sequence.missing_frames,
    Sequence.is_missing_frames, Sequence.get_missing_frames,
    Sequence.implied_frames.
  rewrite Hlo, Hhi. simpl.
  split_and!; try done.
  - do 2 f_equal. lia.
  - f_equal. case_bool_decide as Hd.
    + by apply negb_true_iff, Z.eqb_neq.
    + apply negb_false_iff, Z.eqb_eq. lia.
  - apply length_missing; [done | lia].
  - apply ascending_filter_seqZ.
  - intros k. rewrite list_elem_of_filter, elem_of_seqZ. split.
    + intros [Hnone Hk]. split; [lia | done].
    + intros [Hk Hnone]. split; [done | lia].
Qed.

Lemma sequence_frame_counts_witness :
  (0 < Sequence.frames three_frames)%nat
  /\ exists lo hi missing,
       Sequence.start three_frames = Ok lo
       /\ Sequence.end_ three_frames = Ok hi
       /\ is_Some (Sequence._frames three_frames !! lo)
       /\ is_Some (Sequence._frames three_frames !! hi)
       /\ (forall k, is_Some (Sequence._frames three_frames !! k) ->
                     lo <= k <= hi)
       /\ Sequence.implied_frames three_frames = Ok (hi - lo + 1)
       /\ Sequence.missing_frames three_frames
          = Ok (hi - lo + 1 - Z.of_nat (Sequence.frames three_frames))
       /\ Sequence.is_missing_frames three_frames
          = Ok (bool_decide
                  (Z.of_nat (Sequence.frames three_frames) <> hi - lo + 1))
       /\ Sequence.get_missing_frames three_frames = Ok missing
       /\ Z.of_nat (length missing)
          = hi - lo + 1 - Z.of_nat (Sequence.frames three_frames)
       /\ ascending missing = true
       /\ (forall k, k ∈ missing <->
                     lo <= k <= hi
                     /\ Sequence._frames three_frames !! k = None).
Proof.
  split; [vm_compute; lia | apply (sequence_frame_counts three_frames)].
  vm_compute; lia.
Defined.

(** C9. On a sequence without frames, [start], [end], [implied_frames],
    [missing_frames] and [get_missing_frames] raise the [ValueError] of
    [min] or [max] of an empty collection, while [frames] and the length
    are 0 and iteration yields nothing. *)
Theorem empty_sequence_accessors (s : Sequence.t) :
  Sequence._frames s = ∅ ->
  Sequence.start s = Raise (ValueError "min() arg is an empty sequence")
  /\ Sequence.end_ s = Raise (ValueError "max() arg is an empty sequence")
  /\ Sequence.implied_frames s
     = Raise (ValueError "max() arg is an empty sequence")
  /\ Sequence.missing_frames s
     = Raise (ValueError "max() arg is an empty sequence")
  /\ Sequence.get_missing_frames s
     = Raise (ValueError "min() arg is an empty sequence")
  /\ Sequence.frames s = 0%nat
  /\ Sequence.len s = 0%nat
  /\ Sequence.iter s = [].
Proof.
  intros Hempty.
  unfold Sequence.implied_frames, Sequence.missing_frames,
    Sequence.get_missing_frames, Sequence.start, Sequence.end_,
    Sequence.frames, Sequence.len, Sequence.iter, Sequence.keys.
  rewrite Hempty, map_to_list_empty, map_size_empty. done.
Qed.

Lemma empty_sequence_accessors_witness :
  Sequence._frames (Sequence.empty true) = ∅
  /\ Sequence.start (Sequence.empty true)
     = Raise (ValueError "min() arg is an empty sequence")
  /\ Sequence.frames (Sequence.empty true) = 0%nat.
Proof.
  split; [reflexivity|].
  destruct (empty_sequence_accessors (Sequence.empty true) eq_refl)
    as (Hstart & _ & _ & _ & _ & Hframes & _).
  exact (conj Hstart Hframes).
Defined.

(** ** File: the order *)

Lemma compare_lt_lex (a b : string) : String.compare a b = Lt <-> lex_lt a b.
Proof.
  revert b. induction a as [|c1 a IH]; intros [|c2 b]; simpl.
  - split; [done | inversion 1].
  - split; [constructor | done].
  - split; [done | inversion 1].
  - unfold Ascii.compare.
    destruct (N.compare_spec (N_of_ascii c1) (N_of_ascii c2)) as [E|L|G].
    + apply (f_equal ascii_of_N) in E. rewrite !ascii_N_embedding in E.
      subst c2. rewrite IH. split; [by constructor|].
      inversion 1; subst; [lia | done].
    + split; [by constructor | done].
    + split; [done|]. inversion 1; subst; lia.
Qed.

Lemma compare_eq_eq (a b : string) : String.compare a b = Eq <-> a = b.
Proof.
  split; [apply String.compare_eq_iff|]. intros <-.
  induction a as [|c a IH]; simpl; [done|].
  unfold Ascii.compare. by rewrite N.compare_refl.
Qed.

Lemma ltb_lex (a b : string) : String.ltb a b = true <-> lex_lt a b.
Proof.
  rewrite <- compare_lt_lex. unfold String.ltb.
  by destruct (String.compare a b).
Qed.

Lemma leb_lex (a b : string) : String.leb a b = true <-> a = b \/ lex_lt a b.
Proof.
  rewrite <- compare_lt_lex, <- compare_eq_eq. unfold String.leb.
  destruct (String.compare a b); split; try done; try (by left).
  - by right.
  - by intros [|].
Qed.

(** C7. Between two records of equal sequence key, [<], [>], [<=] and
    [>=] compare the frame digits as strings, lexicographically; between
    two records of different keys, each of them raises.  The order is not
    that of the frame numbers: "a.10.exr" is below "a.9.exr". *)
Theorem file_order_lexicographic (a b : File.t) :
  (File.get_seq_key a true = File.get_seq_key b true ->
   exists lt gt le ge,
     File.lt a b = Ok lt /\ File.gt a b = Ok gt
     /\ File.le a b = Ok le /\ File.ge a b = Ok ge
     /\ (lt = true <-> lex_lt (File.frame_as_str a) (File.frame_as_str b))
     /\ (gt = true <-> lex_lt (File.frame_as_str b) (File.frame_as_str a))
     /\ (le = true <-> File.frame_as_str a = File.frame_as_str b
                       \/ lex_lt (File.frame_as_str a) (File.frame_as_str b))
     /\ (ge = true <-> File.frame_as_str b = File.frame_as_str a
                       \/ lex_lt (File.frame_as_str b) (File.frame_as_str a)))
  /\ (File.get_seq_key a true <> File.get_seq_key b true ->
      exists msg,
        File.lt a b = Raise (TypeError msg)
        /\ File.gt a b = Raise (TypeError msg)
        /\ File.le a b = Raise (TypeError msg)
        /\ File.ge a b = Raise (TypeError msg))
  /\ (File.lt (File.init "a.10.exr") (File.init "a.9.exr") = Ok true
      /\ File.frame (File.init "a.10.exr") = Some 10
      /\ File.frame (File.init "a.9.exr") = Some 9).
Proof.
  unfold File.lt, File.gt, File.le, File.ge, File.compare_with.
  split_and!; [| |done..].
  - intros ->%String.eqb_eq.
    eexists _, _, _, _. split_and!; try done.
    + apply ltb_lex.
    + apply ltb_lex.
    + apply leb_lex.
    + apply leb_lex.
  - intros ->%String.eqb_neq. by eexists.
Qed.

Lemma file_order_lexicographic_witness :
  (File.get_seq_key (File.init "a.10.exr") true
   = File.get_seq_key (File.init "a.9.exr") true
   /\ exists lt, File.lt (File.init "a.10.exr") (File.init "a.9.exr") = Ok lt)
  /\ (File.get_seq_key (File.init "a.10.exr") true
      <> File.get_seq_key (File.init "b.9.exr") true
      /\ exists msg, File.lt (File.init "a.10.exr") (File.init "b.9.exr")
                     = Raise (TypeError msg)).
Proof.
  split.
  - split; [reflexivity|].
    destruct (proj1 (file_order_lexicographic
                       (File.init "a.10.exr") (File.init "a.9.exr")) eq_refl)
      as (lt & _ & _ & _ & H & _).
    by exists lt.
  - assert (Hne : File.get_seq_key (File.init "a.10.exr") true
                  <> File.get_seq_key (File.init "b.9.exr") true)
      by (vm_compute; discriminate).
    split; [exact Hne|].
    destruct (proj1 (proj2 (file_order_lexicographic
                              (File.init "a.10.exr") (File.init "b.9.exr")))
                Hne) as (msg & H & _).
    by exists msg.
Defined.

(** ** Sequence: the formatter *)

(** What the loop has written so far is only ever appended to. *)
Lemma formatter_loop_acc (s : Sequence.t) (format : string) :
  forall (matched : bool) (acc : string),
    Sequence.formatter_loop s format matched acc
    = match Sequence.formatter_loop s format matched "" with
      | Ok out => Ok (acc +:+ out)
      | Raise e => Raise e
      end.
Proof.
  induction format as [|c format IH]; intros matched acc; simpl.
  - by rewrite str_app_nil_r.
  - destruct matched.
    + destruct (Sequence.directive s c) as [d|e]; simpl; [|done].
      rewrite (IH false (acc +:+ d)), (IH false d).
      destruct (Sequence.formatter_loop s format false ""); [|done].
      by rewrite str_app_assoc.
    + destruct (Ascii.eqb c "%"); [apply IH|].
      rewrite (IH false (acc +:+ String c "")), (IH false (String c "")).
      destruct (Sequence.formatter_loop s format false ""); [|done].
      by rewrite str_app_assoc.
Qed.

(** A directive at the head of a template. *)
Lemma formatter_directive (s : Sequence.t) (c : ascii) (format : string) :
  Sequence.formatter s (String "%" (String c format))
  = d ← Sequence.directive s c;
    out ← Sequence.formatter s format;
    Ok (d +:+ out).
Proof.
  unfold Sequence.formatter. simpl.
  destruct (Sequence.directive s c) as [d|e]; simpl; [|done].
  apply formatter_loop_acc.
Qed.

Lemma implied_range_spec (s : Sequence.t) :
  (0 < Sequence.frames s)%nat ->
  exists lo hi flo fhi,
    Sequence.start s = Ok lo /\ Sequence.end_ s = Ok hi
    /\ Sequence._frames s !! lo = Some flo
    /\ Sequence._frames s !! hi = Some fhi
    /\ Sequence.directive s "r"
       = Ok ("[" +:+ File.frame_as_str flo +:+ "-"
             +:+ File.frame_as_str fhi +:+ "]").
Proof.
  intros Hpos%frames_pos_nonempty.
  destruct (start_end_spec s Hpos)
    as (lo & hi & Hlo & Hhi & [flo Hflo] & [fhi Hfhi] & _).
  exists lo, hi, flo, fhi. split_and!; try done.
  change (Sequence.directive s "r") with (Sequence.__implied_range s).
  unfold Sequence.__implied_range, Sequence.getitem.
  rewrite Hlo, Hhi. simpl. rewrite Hflo, Hfhi. done.
Qed.

(** C8. On a sequence that has frames, the formatter writes "%" for
    "%%", and for "%r" the digits of the member at [start] and of the
    member at [end], as their file names have them, between brackets and
    joined by "-"; the default template is "%H%r%T", so the default
    rendering is the full head, that range and the full tail. *)
Theorem formatter_implied_range (s : Sequence.t) :
  (0 < Sequence.frames s)%nat ->
  exists lo hi flo fhi,
    Sequence.start s = Ok lo /\ Sequence.end_ s = Ok hi
    /\ Sequence._frames s !! lo = Some flo
    /\ Sequence._frames s !! hi = Some fhi
    /\ let range := "[" +:+ File.frame_as_str flo +:+ "-"
                    +:+ File.frame_as_str fhi +:+ "]" in
       Sequence.formatter s "%%" = Ok "%"
       /\ Sequence.formatter s "%r" = Ok range
       /\ (forall format out,
             Sequence.formatter s format = Ok out ->
             Sequence.formatter s ("%%" +:+ format) = Ok ("%" +:+ out)
             /\ Sequence.formatter s ("%r" +:+ format) = Ok (range +:+ out))
       /\ DEFAULT_FORMAT = "%H%r%T"
       /\ Sequence.formatter s DEFAULT_FORMAT
          = Ok (Sequence.head s +:+ range +:+ Sequence.tail s)
       /\ Sequence.str s
          = Ok (Sequence.head s +:+ range +:+ Sequence.tail s).
Proof.
  intros Hpos.
  destruct (implied_range_spec s Hpos)
    as (lo & hi & flo & fhi & Hlo & Hhi & Hflo & Hfhi & Hr).
  exists lo, hi, flo, fhi. do 4 (split; [done|]). intros range.
  assert (Hnil : Sequence.formatter s "" = Ok "") by done.
  split_and!.
  - done.
  - rewrite formatter_directive, Hr, Hnil. cbn [mbind result_bind].
    by rewrite str_app_nil_r.
  - intros format out Hout. split.
    + change ("%%" +:+ format) with (String "%" (String "%" format)).
      by rewrite formatter_directive, Hout.
    + change ("%r" +:+ format) with (String "%" (String "r" format)).
      by rewrite formatter_directive, Hr, Hout.
  - done.
  - unfold DEFAULT_FORMAT. rewrite !formatter_directive, Hr, Hnil.
    cbn [mbind result_bind]. change (Sequence.directive s "H") with (Ok (Sequence.head s)).
    change (Sequence.directive s "T") with (Ok (Sequence.tail s)).
    cbn [mbind result_bind]. by rewrite str_app_nil_r.
  - unfold Sequence.str, DEFAULT_FORMAT. rewrite !formatter_directive, Hr, Hnil.
    cbn [mbind result_bind]. change (Sequence.directive s "H") with (Ok (Sequence.head s)).
    change (Sequence.directive s "T") with (Ok (Sequence.tail s)).
    cbn [mbind result_bind]. by rewrite str_app_nil_r.
Qed.

Lemma formatter_implied_range_witness :
  (0 < Sequence.frames three_frames)%nat
  /\ Sequence.formatter three_frames "%r" = Ok "[0001-0004]"
  /\ Sequence.str three_frames = Ok "a.[0001-0004].exr".
Proof.
  assert (Hpos : (0 < Sequence.frames three_frames)%nat) by (vm_compute; lia).
  split; [exact Hpos|].
  destruct (formatter_implied_range three_frames Hpos)
    as (lo & hi & flo & fhi & Hlo & Hhi & Hflo & Hfhi & _ & Hr & _ & _ & _ & Hstr).
  vm_compute in Hlo, Hhi. simplify_eq.
  vm_compute in Hflo, Hfhi. simplify_eq.
  split; [exact Hr | exact Hstr].
Defined.

(** ** Sequence: append *)

Lemma lookup_frames_pos (s : Sequence.t) (fr : Z) :
  is_Some (Sequence._frames s !! fr) -> (Sequence.frames s =? 0)%nat = false.
Proof.
  intros H. apply Nat.eqb_neq. by eapply map_size_ne_0_lookup_2.
Qed.

(** A frame number that is taken: [IndexError], and [self] as it was. *)
Lemma append_duplicate (s : Sequence.t) (file old : File.t) (fr : Z) :
  File.frame file = Some fr ->
  Sequence._frames s !! fr = Some old ->
  Sequence.append (Sequence.ArgFile file) s
  = (Raise (IndexError (File.name file +:+ " already in sequence as "
                        +:+ File.str old)), s).
Proof.
  intros Hfr Hold. unfold Sequence.append. simpl. rewrite Hfr.
  rewrite (lookup_frames_pos s fr) by by rewrite Hold. by rewrite Hold.
Qed.

Lemma repr_not_IndexError (s : Sequence.t) (e : exn) :
  Sequence.repr s = Raise e -> is_IndexError e = false.
Proof.
  unfold Sequence.repr, DEFAULT_FORMAT. rewrite !formatter_directive.
  change (Sequence.directive s "H") with (Ok (Sequence.head s)).
  change (Sequence.directive s "T") with (Ok (Sequence.tail s)).
  change (Sequence.directive s "r") with (Sequence.__implied_range s).
  change (Sequence.formatter s "") with (Ok (A:=string) "").
  unfold Sequence.__implied_range, Sequence.start, Sequence.end_,
    Sequence.py_min, Sequence.py_max, Sequence.getitem.
  cbn [mbind result_bind].
  destruct (Sequence.keys s) as [|x xs]; cbn [mbind result_bind];
    [by intros [= <-]|].
  destruct (_ !! foldl Z.min x xs); cbn [mbind result_bind];
    [|by intros [= <-]].
  destruct (_ !! foldl Z.max x xs); cbn [mbind result_bind];
    [done | by intros [= <-]].
Qed.

Lemma as_file_not_IndexError (arg : Sequence.arg) (s : Sequence.t) (e : exn) :
  Sequence.as_file arg s = Raise e -> is_IndexError e = false.
Proof.
  destruct arg as [f|path]; simpl; [done|].
  destruct (_ && _); [|done].
  destruct (Sequence.repr s) as [r|e'] eqn:Hrepr; cbn [mbind result_bind].
  - by intros [= <-].
  - intros [= <-]. by eapply repr_not_IndexError.
Qed.

(** Every way [append] can fail: [self] is as it was, and the error is an
    [IndexError] exactly when the frame number of the record is taken. *)
Lemma append_Raise_inv (arg : Sequence.arg) (s s' : Sequence.t) (e : exn) :
  Sequence.append arg s = (Raise e, s') ->
  s' = s
  /\ (is_IndexError e = true <->
      exists file fr,
        Sequence.as_file arg s = Ok file /\ File.frame file = Some fr
        /\ is_Some (Sequence._frames s !! fr)).
Proof.
  unfold Sequence.append.
  destruct (Sequence.as_file arg s) as [file|e0] eqn:Hfile.
  2: { intros [= <- <-]. split; [done|].
       rewrite (as_file_not_IndexError _ _ _ Hfile). split; [done|].
       by intros (? & ? & ? & _). }
  destruct (File.frame file) as [fr|] eqn:Hfr.
  2: { intros [= <- <-]. split; [done|]. split; [done|].
       intros (? & ? & [= <-] & ? & _). congruence. }
  destruct (Sequence.frames s =? 0)%nat eqn:Hz; [done|].
  destruct (Sequence._frames s !! fr) as [old|] eqn:Hold; [|done].
  intros [= <- <-]. split; [done|]. split; [|done].
  intros _. exists file, fr. by rewrite Hold.
Qed.

(** What a successful [append] does. *)
Lemma append_Ok_inv (arg : Sequence.arg) (s s' : Sequence.t) :
  Sequence.append arg s = (Ok (), s') ->
  exists file fr,
    Sequence.as_file arg s = Ok file
    /\ File.frame file = Some fr
    /\ Sequence._frames s' = <[fr := file]> (Sequence._frames s)
    /\ Sequence.ignore_padding s' = Sequence.ignore_padding s
    /\ (if (Sequence.frames s =? 0)%nat
        then Sequence.seq_name s'
             = File.get_seq_key file (Sequence.ignore_padding s)
        else Sequence.seq_name s' = Sequence.seq_name s
             /\ Sequence._frames s !! fr = None).
Proof.
  unfold Sequence.append.
  destruct (Sequence.as_file arg s) as [file|e0] eqn:Hfile; [|done].
  destruct (File.frame file) as [fr|] eqn:Hfr; [|done].
  exists file, fr. destruct (Sequence.frames s =? 0)%nat eqn:Hz.
  - by simplify_eq.
  - destruct (Sequence._frames s !! fr) as [old|] eqn:Hold; [done|].
    destruct (Sequence.padding s <? File.padding file)%nat; by simplify_eq.
Qed.

Lemma dict_set_same {V} (k : string) (v : V) (d : list (string * V)) :
  dict_get k d = Some v -> dict_set k v d = d.
Proof.
  unfold dict_set. intros H. rewrite H.
  induction d as [|[k' v'] d IH]; simpl in *; [done|].
  destruct (String.eqb k k'); [by simplify_eq | by rewrite IH].
Qed.

(** The classifier, on a file whose frame number is taken in the sequence
    of its key: the file joins [collisions], nothing else changes, and no
    exception leaves [_sort_file]. *)
Lemma sort_file_collision (p : Parser.t) (path : string) (fr : Z)
    (seq : Sequence.t) :
  let file := File.init path in
  Parser.is_excluded p file = false ->
  File.frame file = Some fr ->
  dict_get (File.get_seq_key file (Parser.ignore_padding p))
    (Parser._sequences p) = Some seq ->
  is_Some (Sequence._frames seq !! fr) ->
  Parser._sort_file path p = (Ok (), Parser.add_collision p file).
Proof.
  intros file Hex Hfr Hget [old Hold]. unfold Parser._sort_file.
  fold file. rewrite Hex, Hfr, Hget.
  rewrite (append_duplicate seq file old fr Hfr Hold).
  rewrite dict_set_same by done. by destruct p.
Qed.


(** C3. Appending a record whose frame number is already in the frame map
    raises [IndexError] and leaves the sequence, hence its frame map, as
    it was; no other failure of [append] is an [IndexError]; and the
    classifier, meeting that error, puts the file in [collisions] and
    returns normally. *)
Theorem append_duplicate_frame_collision :
  (forall (s : Sequence.t) (file : File.t) (fr : Z),
      File.frame file = Some fr ->
      is_Some (Sequence._frames s !! fr) ->
      exists msg,
        Sequence.append (Sequence.ArgFile file) s
        = (Raise (IndexError msg), s))
  /\ (forall (arg : Sequence.arg) (s s' : Sequence.t) (e : exn),
         Sequence.append arg s = (Raise e, s') ->
         s' = s
         /\ (is_IndexError e = true <->
             exists file fr,
               Sequence.as_file arg s = Ok file
               /\ File.frame file = Some fr
               /\ is_Some (Sequence._frames s !! fr)))
  /\ (forall (p : Parser.t) (path : string) (fr : Z) (seq : Sequence.t),
         Parser.is_excluded p (File.init path) = false ->
         File.frame (File.init path) = Some fr ->
         dict_get (File.get_seq_key (File.init path) (Parser.ignore_padding p))
           (Parser._sequences p) = Some seq ->
         is_Some (Sequence._frames seq !! fr) ->
         Parser._sort_file path p
         = (Ok (), Parser.add_collision p (File.init path))).
Proof.
  split_and!.
  - intros s file fr Hfr [old Hold]. eexists.
    by apply (append_duplicate s file old fr).
  - apply append_Raise_inv.
  - intros p path fr seq. apply sort_file_collision.
Qed.

Lemma append_duplicate_frame_collision_witness :
  (File.frame (File.init "a.1.exr") = Some 1
   /\ is_Some (Sequence._frames one_frame !! 1)
   /\ exists msg,
        Sequence.append (Sequence.ArgFile (File.init "a.1.exr")) one_frame
        = (Raise (IndexError msg), one_frame))
  /\ (Parser.is_excluded one_file_parser (File.init "a.1.exr") = false
      /\ dict_get (File.get_seq_key (File.init "a.1.exr")
                     (Parser.ignore_padding one_file_parser))
           (Parser._sequences one_file_parser) = Some one_frame
      /\ Parser.collisions
           (Parser._sort_file "a.1.exr" one_file_parser).2
         = [File.init "a.1.exr"]).
Proof.
  assert (Hfr : File.frame (File.init "a.1.exr") = Some 1) by reflexivity.
  assert (Hin : is_Some (Sequence._frames one_frame !! 1))
    by (vm_compute; eauto).
  assert (Hex : Parser.is_excluded one_file_parser (File.init "a.1.exr")
                = false) by reflexivity.
  assert (Hget : dict_get (File.get_seq_key (File.init "a.1.exr")
                             (Parser.ignore_padding one_file_parser))
                   (Parser._sequences one_file_parser) = Some one_frame)
    by reflexivity.
  split.
  - split; [exact Hfr|]. split; [exact Hin|].
    exact (proj1 append_duplicate_frame_collision
             one_frame (File.init "a.1.exr") 1 Hfr Hin).
  - split; [exact Hex|]. split; [exact Hget|].
    rewrite (proj2 (proj2 append_duplicate_frame_collision)
               one_file_parser "a.1.exr" 1 one_frame Hex Hfr Hget Hin).
    reflexivity.
Defined.

(** C6 as it was stated does not hold: that an [append] of any record of
    another key fails is not so, a [File] is not checked.  Appended to the sequence of
    "a.0001.exr", the record of "b.0002.exr" becomes a member, under a
    key that is not its own. *)
Lemma append_file_foreign_key :
  exists s1,
    Sequence.seq_name one_frame = "a.#.exr"
    /\ File.get_seq_key (File.init "b.0002.exr") true = "b.#.exr"
    /\ Sequence.append (Sequence.ArgFile (File.init "b.0002.exr")) one_frame
       = (Ok (), s1)
    /\ Sequence._frames s1 !! 2 = Some (File.init "b.0002.exr")
    /\ Sequence.seq_name s1 = "a.#.exr".
Proof.
  eexists. split_and!; [reflexivity | reflexivity | reflexivity | ..];
    reflexivity.
Qed.

(** Nor does it hold of a path on a sequence without frames: the stored
    key is "", the key of the path differs, and [append] succeeds. *)
Lemma append_path_to_empty :
  Sequence.seq_name (Sequence.empty true) = ""
  /\ File.get_seq_key (File.init "a.0001.exr") true <> ""
  /\ (Sequence.append (Sequence.ArgStr "a.0001.exr") (Sequence.empty true)).1
     = Ok ().
Proof. split_and!; [reflexivity | discriminate | reflexivity]. Qed.

Lemma as_file_path_mismatch (s : Sequence.t) (path : string) :
  (0 < Sequence.frames s)%nat ->
  File.get_seq_key (File.init path) (Sequence.ignore_padding s)
  <> Sequence.seq_name s ->
  exists e, Sequence.as_file (Sequence.ArgStr path) s = Raise e.
Proof.
  intros Hpos Hne. simpl.
  apply Nat.ltb_lt in Hpos. unfold Sequence.frames, Sequence.len in Hpos.
  rewrite Hpos. apply String.eqb_neq in Hne. rewrite Hne. simpl.
  destruct (Sequence.repr s); by eexists.
Qed.

Lemma as_file_key (arg : Sequence.arg) (s : Sequence.t) (file : File.t) :
  Sequence.as_file arg s = Ok file ->
  match arg with
  | Sequence.ArgFile f => file = f
  | Sequence.ArgStr path =>
      file = File.init path
      /\ ((0 < Sequence.frames s)%nat ->
          File.get_seq_key file (Sequence.ignore_padding s)
          = Sequence.seq_name s)
  end.
Proof.
  destruct arg as [f|path]; simpl; [by intros [= <-]|].
  destruct (0 <? size (Sequence._frames s))%nat eqn:Hpos; simpl.
  - destruct (String.eqb_spec
                (File.get_seq_key (File.init path) (Sequence.ignore_padding s))
                (Sequence.seq_name s)) as [E|E]; simpl.
    + by intros [= <-].
    + by destruct (Sequence.repr s).
  - intros [= <-]. split; [done|]. intros H%Nat.ltb_lt.
    unfold Sequence.frames, Sequence.len in H. congruence.
Qed.

Lemma built_invariant (s : Sequence.t) :
  built s ->
  Sequence.ignore_padding s = true
  /\ forall fr f, Sequence._frames s !! fr = Some f ->
                  File.get_seq_key f true = Sequence.seq_name s.
Proof.
  induction 1 as [|s path s' _ [Hip IH] Happ|s file s' _ [Hip IH] Hkey Happ].
  - split; [done|]. intros fr f. simpl. by rewrite lookup_empty.
  - apply append_Ok_inv in Happ
      as (file & fr & Hfile & Hfr & Hframes & Hip' & Hname).
    apply as_file_key in Hfile as [-> Hkey]. rewrite Hip in *.
    split; [done|]. intros fr' f. rewrite Hframes.
    destruct (Sequence.frames s =? 0)%nat eqn:Hz.
    + apply Nat.eqb_eq, map_size_empty_iff in Hz. rewrite Hz.
      rewrite lookup_insert. case_decide; [|by rewrite lookup_empty].
      intros [= <-]. by rewrite Hname.
    + destruct Hname as [-> Hnone]. apply Nat.eqb_neq in Hz.
      rewrite lookup_insert. case_decide; [|apply IH].
      intros [= <-]. apply Hkey. lia.
  - apply append_Ok_inv in Happ
      as (file' & fr & Hfile & Hfr & Hframes & Hip' & Hname).
    apply as_file_key in Hfile as ->. rewrite Hip in *.
    split; [done|]. intros fr' f. rewrite Hframes.
    destruct (Sequence.frames s =? 0)%nat eqn:Hz.
    + apply Nat.eqb_eq, map_size_empty_iff in Hz. rewrite Hz.
      rewrite lookup_insert. case_decide; [|by rewrite lookup_empty].
      intros [= <-]. by rewrite Hname.
    + destruct Hname as [-> Hnone]. apply Nat.eqb_neq in Hz.
      rewrite lookup_insert. case_decide; [|apply IH].
      intros [= <-]. by destruct Hkey.
Qed.

(** C6, amended.  In a sequence built by successful calls of [append]
    with padding ignored, where a record handed over as a [File] to a
    sequence that has frames has the stored key, every member has the
    stored key as its key; and on a sequence that has frames, appending a
    path whose key differs from the stored key fails and adds nothing. *)
Theorem append_members_share_key (s : Sequence.t) :
  built s ->
  (forall fr f, Sequence._frames s !! fr = Some f ->
                File.get_seq_key f true = Sequence.seq_name s)
  /\ (forall path,
        (0 < Sequence.frames s)%nat ->
        File.get_seq_key (File.init path) true <> Sequence.seq_name s ->
        exists e, Sequence.append (Sequence.ArgStr path) s = (Raise e, s)).
Proof.
  intros [Hip Hkeys]%built_invariant. split; [done|].
  intros path Hpos Hne. rewrite <- Hip in Hne.
  destruct (as_file_path_mismatch s path Hpos Hne) as [e He].
  exists e. unfold Sequence.append. by rewrite He.
Qed.

Lemma one_frame_built : built one_frame.
Proof.
  apply (built_path (Sequence.empty true) "a.0001.exr"); [apply built_empty|].
  reflexivity.
Qed.

Lemma append_members_share_key_witness :
  built one_frame
  /\ (forall fr f, Sequence._frames one_frame !! fr = Some f ->
                   File.get_seq_key f true = Sequence.seq_name one_frame)
  /\ exists e,
       Sequence.append (Sequence.ArgStr "b.0002.exr") one_frame
       = (Raise e, one_frame).
Proof.
  split; [exact one_frame_built|].
  destruct (append_members_share_key one_frame one_frame_built) as [H1 H2].
  split; [exact H1|].
  apply H2; [vm_compute; lia | vm_compute; discriminate].
Defined.

(** ** The dict of sequences *)

Section DictFacts.
Context {V : Type}.
Implicit Types (d : list (string * V)) (k : string) (v : V).

Lemma dict_get_Some_elem d k v : dict_get k d = Some v -> (k, v) ∈ d.
Proof.
  induction d as [|[k' v'] d IH]; simpl; [done|].
  destruct (String.eqb_spec k k') as [->|Hne].
  - intros [= ->]. by left.
  - intros H. right. by apply IH.
Qed.

Lemma dict_get_None_keys d k : dict_get k d = None -> k ∉ d.*1.
Proof.
  induction d as [|[k' v'] d IH]; [by intros _ ?%elem_of_nil|].
  cbn [dict_get]. rewrite fmap_cons.
  destruct (String.eqb_spec k k') as [->|Hne]; [done|].
  intros H. apply not_elem_of_cons. split; [done | by apply IH].
Qed.

Lemma dict_replace_keys d k v : (dict_replace k v d).*1 = d.*1.
Proof.
  induction d as [|[k' v'] d IH]; [done|]. cbn [dict_replace].
  destruct (String.eqb k k'); rewrite !fmap_cons; [done | by rewrite IH].
Qed.

Lemma elem_of_dict_replace d k v k' v' :
  (k', v') ∈ dict_replace k v d -> (k', v') ∈ d \/ (k' = k /\ v' = v).
Proof.
  induction d as [|[k0 v0] d IH]; simpl; [by left|].
  destruct (String.eqb_spec k k0) as [->|Hne].
  - intros [[= -> ->]|H]%elem_of_cons; [by right | left; by right].
  - intros [[= -> ->]|H]%elem_of_cons; [left; by left|].
    destruct (IH H) as [?|?]; [left; by right | by right].
Qed.

Lemma dict_get_replace d k v k' :
  is_Some (dict_get k' d) -> is_Some (dict_get k' (dict_replace k v d)).
Proof.
  induction d as [|[k0 v0] d IH]; simpl; [done|].
  destruct (String.eqb_spec k k0) as [->|Hne]; simpl.
  - by destruct (String.eqb k' k0).
  - by destruct (String.eqb k' k0).
Qed.

Lemma dict_get_cons_is_Some d k v k' :
  is_Some (dict_get k' d) -> is_Some (dict_get k' ((k, v) :: d)).
Proof. simpl. by destruct (String.eqb k' k). Qed.

Lemma dict_get_set d k v : is_Some (dict_get k (dict_set k v d)).
Proof.
  unfold dict_set. destruct (dict_get k d) as [v0|] eqn:Hget.
  - apply dict_get_replace. by rewrite Hget.
  - simpl. by rewrite String.eqb_refl.
Qed.

(** Replacing the value of a key that is present changes what the
    values hold by what the new value holds more than the old. *)
Lemma dict_replace_bind {B} (g : V -> list B) d k v v' (x : B) :
  dict_get k d = Some v -> g v' ≡ₚ x :: g v ->
  (dict_replace k v' d).*2 ≫= g ≡ₚ x :: (d.*2 ≫= g).
Proof.
  intros Hget Hg. induction d as [|[k0 v0] d IH]; [done|].
  cbn [dict_replace dict_get] in *. destruct (String.eqb k k0).
  - simplify_eq. rewrite !fmap_cons, !bind_cons. simpl. by rewrite Hg.
  - rewrite !fmap_cons, !bind_cons, IH by done. simpl.
    by rewrite Permutation_middle.
Qed.
End DictFacts.

(** ** The frame map as a list of records *)

Lemma elem_of_iter (s : Sequence.t) (f : File.t) :
  f ∈ Sequence.iter s <-> exists fr, Sequence._frames s !! fr = Some f.
Proof.
  unfold Sequence.iter. rewrite list_elem_of_fmap. split.
  - intros [[fr f'] [-> H%elem_of_map_to_list]]. by exists fr.
  - intros [fr H]. exists (fr, f). split; [done|]. by apply elem_of_map_to_list.
Qed.

(** ** The classifier *)

Lemma is_excluded_config (p p0 : Parser.t) (f : File.t) :
  Parser.include_exts p = Parser.include_exts p0 ->
  Parser.is_excluded p f = Parser.is_excluded p0 f.
Proof. unfold Parser.is_excluded. by intros ->. Qed.

Lemma classes_exclusive (p0 : Parser.t) (f : File.t) :
  (Parser.is_excluded p0 f = true /\ is_non_sequence p0 f = false
   /\ is_sequenceable p0 f = false)
  \/ (Parser.is_excluded p0 f = false /\ is_non_sequence p0 f = true
      /\ is_sequenceable p0 f = false /\ File.frame f = None)
  \/ (Parser.is_excluded p0 f = false /\ is_non_sequence p0 f = false
      /\ is_sequenceable p0 f = true /\ is_Some (File.frame f)).
Proof.
  unfold is_non_sequence, is_sequenceable.
  destruct (Parser.is_excluded p0 f); simpl; [by left|]. right.
  destruct (File.frame f) as [fr|] eqn:Hfr.
  - right. rewrite bool_decide_eq_false_2 by done.
    rewrite bool_decide_eq_true_2 by eauto. eauto.
  - left. rewrite bool_decide_eq_true_2 by done.
    rewrite bool_decide_eq_false_2; [done|]. by intros [? ?].
Qed.

Lemma filter_snoc_true (P : File.t -> bool) (l : list File.t) (f : File.t) :
  P f = true -> filter (fun f => P f) (l ++ [f]) = filter (fun f => P f) l ++ [f].
Proof.
  intros H. rewrite filter_app, filter_cons_True by by rewrite H. done.
Qed.

Lemma filter_snoc_false (P : File.t -> bool) (l : list File.t) (f : File.t) :
  P f = false -> filter (fun f => P f) (l ++ [f]) = filter (fun f => P f) l.
Proof.
  intros H. rewrite filter_app, filter_cons_False.
  - by rewrite app_nil_r.
  - rewrite H. by intros [].
Qed.

Lemma append_file_Raise (f : File.t) (fr : Z) (s s' : Sequence.t) (e : exn) :
  File.frame f = Some fr ->
  Sequence.append (Sequence.ArgFile f) s = (Raise e, s') ->
  s' = s /\ is_IndexError e = true /\ is_Some (Sequence._frames s !! fr).
Proof.
  intros Hfr Happ. destruct (append_Raise_inv _ _ _ _ Happ) as [-> Hiff].
  split; [done|]. revert Happ. unfold Sequence.append. simpl. rewrite Hfr.
  destruct (Sequence.frames s =? 0)%nat; [done|].
  destruct (Sequence._frames s !! fr); [|done].
  intros [= <-]. eauto.
Qed.

Lemma init_file (f : File.t) (fr : Z) (ip : bool) :
  File.frame f = Some fr ->
  exists seq,
    Sequence.init (Some (Sequence.ArgFile f)) ip = Ok seq
    /\ Sequence._frames seq = {[ fr := f ]}
    /\ Sequence.seq_name seq = File.get_seq_key f ip
    /\ Sequence.ignore_padding seq = ip.
Proof.
  intros Hfr. unfold Sequence.init, Sequence.append. simpl. rewrite Hfr.
  change (Sequence.frames (Sequence.empty ip)) with (size (∅ : gmap Z File.t)).
  rewrite map_size_empty. simpl. eexists. split; [done|]. done.
Qed.

Lemma members_cons (seq : Sequence.t) (seqs : list Sequence.t) :
  members (seq :: seqs) = Sequence.iter seq ++ members seqs.
Proof. done. Qed.

Lemma members_app (l1 l2 : list Sequence.t) :
  members (l1 ++ l2) = members l1 ++ members l2.
Proof. unfold members. by rewrite bind_app. Qed.


(** One turn of the loop of [parse_directory] keeps [sorting], and raises
    nothing. *)
Lemma sort_file_step (p0 p : Parser.t) (records : list File.t) (path : string) :
  sorting p0 p records ->
  exists p',
    Parser._sort_file path p = (Ok (), p')
    /\ sorting p0 p' (records ++ [File.init path]).
Proof.
  intros [Hgs Hip Hie Hseqs Hsing Hparsed Hexcl Hnons Hgrp Hkeys Hgroups Hhas].
  set (f := File.init path). unfold Parser._sort_file. fold f.
  rewrite (is_excluded_config p p0 f Hie), Hip.
  destruct (classes_exclusive p0 f)
    as [(Hex & Hns & Hsq) | [(Hex & Hns & Hsq & Hfr)
                            | (Hex & Hns & Hsq & [fr Hfr])]].
  - (* excluded *)
    rewrite Hex. eexists. split; [done|].
    constructor; parser_simpl; try done.
    + by rewrite Hexcl, filter_snoc_true.
    + by rewrite filter_snoc_false.
    + by rewrite filter_snoc_false.
    + intros f' [Hin| ->%list_elem_of_singleton]%elem_of_app Hf';
        [by apply Hhas | congruence].
  - (* no frame number *)
    rewrite Hex, Hfr. eexists. split; [done|].
    constructor; parser_simpl; try done.
    + by rewrite filter_snoc_false.
    + by rewrite Hnons, filter_snoc_true.
    + by rewrite filter_snoc_false.
    + intros f' [Hin| ->%list_elem_of_singleton]%elem_of_app Hf';
        [by apply Hhas | congruence].
  - (* a frame number: grouped by key *)
    rewrite Hex, Hfr.
    set (k := File.get_seq_key f (Parser.ignore_padding p0)).
    destruct (dict_get k (Parser._sequences p)) as [seq|] eqn:Hget.
    + pose proof (dict_get_Some_elem _ _ _ Hget) as Hin.
      destruct (Hgroups k seq Hin) as (Hname & Hsip & Hpos & Hmem).
      destruct (Sequence.append (Sequence.ArgFile f) seq) as [[[]|e] seq']
        eqn:Happ.
      * (* appended *)
        apply append_Ok_inv in Happ
          as (f' & fr' & [= <-] & Hfr' & Hframes & Hsip' & Hname').
        rewrite Hfr in Hfr'. injection Hfr' as <-.
        assert (Hz : (Sequence.frames seq =? 0)%nat = false)
          by (apply Nat.eqb_neq; lia).
        rewrite Hz in Hname'. destruct Hname' as [Hname' Hnone].
        eexists. split; [done|].
        unfold dict_set. rewrite Hget.
        assert (Hiter : Sequence.iter seq' ≡ₚ f :: Sequence.iter seq).
        { unfold Sequence.iter. rewrite Hframes.
          by rewrite map_to_list_insert. }
        constructor; parser_simpl; try done.
        -- by rewrite filter_snoc_false.
        -- by rewrite filter_snoc_false.
        -- rewrite filter_snoc_true by done. unfold members.
           rewrite (dict_replace_bind Sequence.iter _ k seq seq' f Hget Hiter).
           rewrite <- Hgrp. unfold members.
           by rewrite <- Permutation_middle, Permutation_cons_append.
        -- by rewrite dict_replace_keys.
        -- intros k' s' [Hold|[-> ->]]%elem_of_dict_replace;
             [by apply Hgroups|].
           split_and!; [congruence | congruence | |].
           ++ unfold Sequence.frames, Sequence.len. rewrite Hframes.
              rewrite map_size_insert_None by done. lia.
           ++ intros fr' f'. rewrite Hframes, lookup_insert.
              case_decide; [|apply Hmem]. by intros [= <-]; subst.
        -- intros f' [Hin'| ->%list_elem_of_singleton]%elem_of_app Hf'.
           ++ by apply dict_get_replace, Hhas.
           ++ apply dict_get_replace. fold k. by rewrite Hget.
      * (* the frame number is taken *)
        destruct (append_file_Raise f fr seq seq' e Hfr Happ)
          as (-> & He & Htaken).
        destruct e; try done.
        eexists. split; [done|]. rewrite dict_set_same by done.
        constructor; parser_simpl; try done.
        -- by rewrite filter_snoc_false.
        -- by rewrite filter_snoc_false.
        -- rewrite filter_snoc_true by done. rewrite <- Hgrp.
           rewrite <- !app_assoc. apply Permutation_app_head.
           apply Permutation_app_comm.
        -- intros f' [Hin'| ->%list_elem_of_singleton]%elem_of_app Hf'.
           ++ by apply Hhas.
           ++ fold k. by rewrite Hget.
    + (* the first file of its key *)
      destruct (init_file f fr (Parser.ignore_padding p0) Hfr)
        as (seq & -> & Hframes & Hname & Hsip).
      eexists. split; [done|]. unfold dict_set. rewrite Hget.
      constructor; parser_simpl; try done.
      * by rewrite filter_snoc_false.
      * by rewrite filter_snoc_false.
      * rewrite filter_snoc_true by done. rewrite <- Hgrp.
        rewrite fmap_cons, members_cons. unfold Sequence.iter at 1.
        cbn [snd]. rewrite Hframes, map_to_list_singleton. simpl.
        by rewrite <- Permutation_middle, Permutation_cons_append.
      * rewrite fmap_cons. apply NoDup_cons. split; [|done].
        by apply dict_get_None_keys.
      * intros k' s' [[= -> ->]|Hold]%elem_of_cons; [|by apply Hgroups].
        split_and!; [done | done | |].
        -- unfold Sequence.frames, Sequence.len.
           by rewrite Hframes, map_size_singleton.
        -- intros fr' f'. rewrite Hframes, lookup_singleton.
           case_decide; [|done]. by intros [= <-]; subst.
      * intros f' [Hin'| ->%list_elem_of_singleton]%elem_of_app Hf'.
        -- by apply dict_get_cons_is_Some, Hhas.
        -- fold k. simpl. by rewrite String.eqb_refl.
Qed.

(** ** The classifier: the cases of a file, the order of the groups *)

Section DictMore.
Context {V : Type}.
Implicit Types (d : list (string * V)) (k : string) (v : V).

Lemma dict_get_is_Some d k : is_Some (dict_get k d) <-> k ∈ d.*1.
Proof.
  induction d as [|[k' v'] d IH]; cbn [dict_get].
  - split; [by intros [? ?] | by intros ?%elem_of_nil].
  - rewrite fmap_cons, elem_of_cons. cbn [fst].
    destruct (String.eqb_spec k k') as [->|Hne].
    + split; [by left | by eauto].
    + rewrite IH. split; [by right | by intros [?|?]].
Qed.

Lemma dict_get_replace_eq d k v v0 :
  dict_get k d = Some v0 -> dict_get k (dict_replace k v d) = Some v.
Proof.
  induction d as [|[k' v'] d IH]; cbn [dict_get dict_replace]; [done|].
  destruct (String.eqb k k') eqn:E; cbn [dict_get]; rewrite E; [done|].
  apply IH.
Qed.

Lemma dict_get_replace_ne d k k' v :
  k' <> k -> dict_get k' (dict_replace k v d) = dict_get k' d.
Proof.
  intros Hne. induction d as [|[k0 v0] d IH]; cbn [dict_get dict_replace];
    [done|].
  destruct (String.eqb_spec k k0) as [->|Hk]; cbn [dict_get].
  - by apply String.eqb_neq in Hne as ->.
  - by rewrite IH.
Qed.
End DictMore.

(** The five ways a file is sorted, while the loop runs. *)
Lemma sort_file_cases (p0 p : Parser.t) (records : list File.t)
    (path : string) :
  sorting p0 p records ->
  let f := File.init path in
  let k := File.get_seq_key f (Parser.ignore_padding p0) in
  let d := Parser._sequences p in
  (Parser.is_excluded p0 f = true
   /\ Parser._sort_file path p = (Ok (), Parser.add_excluded p f))
  \/ (is_non_sequence p0 f = true
      /\ Parser._sort_file path p = (Ok (), Parser.add_non_sequence p f))
  \/ (is_sequenceable p0 f = true
      /\ exists fr,
           File.frame f = Some fr
           /\ ((dict_get k d = None
                /\ exists seq,
                     Sequence._frames seq = {[ fr := f ]}
                     /\ Parser._sort_file path p
                        = (Ok (), Parser.set_sequences p ((k, seq) :: d)))
               \/ (exists seq g,
                      dict_get k d = Some seq
                      /\ Sequence._frames seq !! fr = Some g
                      /\ Parser._sort_file path p
                         = (Ok (), Parser.add_collision p f))
               \/ (exists seq seq',
                      dict_get k d = Some seq
                      /\ Sequence._frames seq !! fr = None
                      /\ Sequence._frames seq' = <[fr := f]> (Sequence._frames seq)
                      /\ Parser._sort_file path p
                         = (Ok (),
                            Parser.set_sequences p (dict_replace k seq' d))))).
Proof.
  intros [Hgs Hip Hie _ _ _ _ _ _ _ Hgroups _] f k d.
  unfold Parser._sort_file. fold f.
  rewrite (is_excluded_config p p0 f Hie), Hip. fold k d.
  destruct (classes_exclusive p0 f)
    as [(Hex & Hns & Hsq) | [(Hex & Hns & Hsq & Hfr)
                            | (Hex & Hns & Hsq & [fr Hfr])]].
  - left. by rewrite Hex.
  - right; left. by rewrite Hex, Hfr.
  - right; right. split; [done|]. exists fr. split; [done|].
    rewrite Hex, Hfr.
    destruct (dict_get k d) as [seq|] eqn:Hget.
    + right.
      pose proof (dict_get_Some_elem _ _ _ Hget) as Hin.
      destruct (Hgroups k seq Hin) as (_ & _ & Hpos & _).
      destruct (Sequence.append (Sequence.ArgFile f) seq) as [[[]|e] seq']
        eqn:Happ.
      * right. apply append_Ok_inv in Happ
          as (f' & fr' & [= <-] & Hfr' & Hframes & _ & Hname').
        rewrite Hfr in Hfr'. injection Hfr' as <-.
        assert (Hz : (Sequence.frames seq =? 0)%nat = false)
          by (apply Nat.eqb_neq; lia).
        rewrite Hz in Hname'. destruct Hname' as [_ Hnone].
        exists seq, seq'. unfold dict_set. by rewrite Hget.
      * left. destruct (append_file_Raise f fr seq seq' e Hfr Happ)
          as (-> & He & [g Hg]).
        destruct e; try done. exists seq, g.
        rewrite dict_set_same by done. by destruct p.
    + left. split; [done|].
      destruct (init_file f fr (Parser.ignore_padding p0) Hfr)
        as (seq & -> & Hframes & _).
      exists seq. unfold dict_set. by rewrite Hget.
Qed.

Lemma group_keys_snoc (p0 : Parser.t) (records : list File.t) (f : File.t) :
  group_keys p0 (records ++ [f])
  = group_keys p0 records
    ++ (if is_sequenceable p0 f
        then [File.get_seq_key f (Parser.ignore_padding p0)] else []).
Proof.
  unfold group_keys. rewrite filter_app, fmap_app. f_equal.
  destruct (is_sequenceable p0 f) eqn:H.
  - by rewrite filter_cons_True by by rewrite H.
  - rewrite filter_cons_False; [done|]. rewrite H. by intros [].
Qed.

Lemma sort_file_step_keys (p0 p p' : Parser.t) (records : list File.t)
    (path : string) :
  sorting p0 p records ->
  Parser._sort_file path p = (Ok (), p') ->
  (Parser._sequences p).*1 = remove_dups (reverse (group_keys p0 records)) ->
  (Parser._sequences p').*1
  = remove_dups (reverse (group_keys p0 (records ++ [File.init path]))).
Proof.
  intros Hp Hstep Hkeys. rewrite group_keys_snoc.
  destruct (sort_file_cases p0 p records path Hp)
    as [(Hex & H) | [(Hns & H)
        | (Hsq & fr & Hfr & [(Hget & seq & _ & H)
                            | [(seq & g & Hget & _ & H)
                              | (seq & seq' & Hget & _ & _ & H)]])]];
    rewrite H in Hstep; injection Hstep as <-.
  - destruct (classes_exclusive p0 (File.init path))
      as [(_ & _ & ->) | [(? & _) | (? & _)]]; [|congruence..].
    by rewrite app_nil_r.
  - destruct (classes_exclusive p0 (File.init path))
      as [(_ & ? & _) | [(_ & _ & -> & _) | (_ & ? & _)]]; [congruence| |congruence].
    by rewrite app_nil_r.
  - rewrite Hsq, reverse_snoc. cbn [remove_dups].
    apply dict_get_None_keys in Hget as Hnotin.
    rewrite Hkeys, elem_of_remove_dups in Hnotin.
    case_decide; [done|].
    cbn [Parser._sequences Parser.set_sequences]. rewrite fmap_cons.
    by rewrite Hkeys.
  - rewrite Hsq, reverse_snoc. cbn [remove_dups].
    assert (is_Some (dict_get (File.get_seq_key (File.init path)
                                 (Parser.ignore_padding p0))
                       (Parser._sequences p))) as Hin by by rewrite Hget.
    apply dict_get_is_Some in Hin.
    rewrite Hkeys, elem_of_remove_dups in Hin.
    by case_decide.
  - rewrite Hsq, reverse_snoc. cbn [remove_dups].
    assert (is_Some (dict_get (File.get_seq_key (File.init path)
                                 (Parser.ignore_padding p0))
                       (Parser._sequences p))) as Hin by by rewrite Hget.
    apply dict_get_is_Some in Hin.
    rewrite Hkeys, elem_of_remove_dups in Hin.
    case_decide; [|done].
    cbn [Parser._sequences Parser.set_sequences].
    by rewrite dict_replace_keys.
Qed.

Lemma sort_file_step_collisions (p0 p p' : Parser.t) (records : list File.t)
    (path : string) :
  sorting p0 p records ->
  Parser._sort_file path p = (Ok (), p') ->
  collisions_held p -> collisions_held p'.
Proof.
  intros Hp Hstep Hheld.
  pose proof (sorting_ignore_padding _ _ _ Hp) as Hip.
  unfold collisions_held in *. rewrite Hip in Hheld.
  destruct (sort_file_cases p0 p records path Hp)
    as [(Hex & H) | [(Hns & H)
        | (Hsq & fr & Hfr & [(Hget & seq & _ & H)
                            | [(seq & g & Hget & Hg & H)
                              | (seq & seq' & Hget & Hnone & Hframes & H)]])]];
    rewrite H in Hstep; injection Hstep as <-;
    cbn [Parser.collisions Parser._sequences Parser.ignore_padding
         Parser.add_excluded Parser.add_non_sequence Parser.add_collision
         Parser.set_sequences]; rewrite Hip.
  - done.
  - done.
  - intros f Hf. destruct (Hheld f Hf) as (s & fr' & Hs & Hfr' & Htaken).
    exists s, fr'. split; [|done]. cbn [dict_get].
    destruct (String.eqb_spec
                (File.get_seq_key f (Parser.ignore_padding p0))
                (File.get_seq_key (File.init path) (Parser.ignore_padding p0)))
      as [E|_]; [|done].
    rewrite E in Hs. congruence.
  - intros f [Hf| ->%list_elem_of_singleton]%elem_of_app.
    + by apply Hheld.
    + exists seq, fr. by rewrite Hg.
  - intros f Hf. destruct (Hheld f Hf) as (s & fr' & Hs & Hfr' & Htaken).
    destruct (decide (File.get_seq_key f (Parser.ignore_padding p0)
                      = File.get_seq_key (File.init path)
                          (Parser.ignore_padding p0))) as [E|Hne].
    + rewrite E in *. exists seq', fr'.
      rewrite (dict_get_replace_eq _ _ _ _ Hget). split_and!; [done | done |].
      rewrite Hframes. rewrite Hget in Hs. injection Hs as <-.
      rewrite lookup_insert. case_decide; [by eauto | done].
    + exists s, fr'. by rewrite dict_get_replace_ne.
Qed.

Lemma sort_files_more (p0 : Parser.t) (file_list : list string) :
  forall (p : Parser.t) (records : list File.t),
    sorting p0 p records ->
    (Parser._sequences p).*1 = remove_dups (reverse (group_keys p0 records)) ->
    collisions_held p ->
    exists p',
      Parser.sort_files file_list p = (Ok (), p')
      /\ sorting p0 p' (records ++ (File.init <$> file_list))
      /\ (Parser._sequences p').*1
         = remove_dups (reverse (group_keys p0
                                   (records ++ (File.init <$> file_list))))
      /\ collisions_held p'.
Proof.
  induction file_list as [|path file_list IH]; intros p records Hp Hk Hc.
  - exists p. by rewrite app_nil_r.
  - destruct (sort_file_step p0 p records path Hp) as (p1 & Hstep & Hp1).
    pose proof (sort_file_step_keys _ _ _ _ _ Hp Hstep Hk) as Hk1.
    pose proof (sort_file_step_collisions _ _ _ _ _ Hp Hstep Hc) as Hc1.
    destruct (IH p1 _ Hp1 Hk1 Hc1) as (p' & Hloop & Hp' & Hk' & Hc').
    exists p'. cbn [Parser.sort_files]. rewrite Hstep. split; [done|].
    rewrite fmap_cons. by rewrite <- app_assoc in Hp', Hk'.
Qed.


(** ** The classes of files, in the words of the description *)

Lemma lower_char_small_of (c : ascii) : lower_char c = small_of case_table c.
Proof. destruct c as [[] [] [] [] [] [] [] []]; by vm_compute. Qed.

Lemma lower_lowercased (s : string) : lower s = lowercased s.
Proof.
  induction s as [|c s IH]; [done|].
  cbn [lower lowercased]. by rewrite IH, lower_char_small_of.
Qed.

Lemma is_excluded_not_allowed (p : Parser.t) (f : File.t) :
  Parser.is_excluded p f = not_allowed p f.
Proof. unfold Parser.is_excluded, not_allowed. by rewrite lower_lowercased. Qed.

Lemma is_non_sequence_without_frame (p : Parser.t) (f : File.t) :
  is_non_sequence p f = without_frame p f.
Proof.
  unfold is_non_sequence, without_frame. by rewrite is_excluded_not_allowed.
Qed.

Lemma is_sequenceable_grouped (p : Parser.t) (f : File.t) :
  is_sequenceable p f = grouped p f.
Proof.
  unfold is_sequenceable, grouped. by rewrite is_excluded_not_allowed.
Qed.

Lemma filter_bool_ext {A} (P Q : A -> bool) (l : list A) :
  (forall x, P x = Q x) -> filter (fun x => P x) l = filter (fun x => Q x) l.
Proof.
  intros H. apply list_filter_iff. intros x. by rewrite H.
Qed.

(** ** The first file of a key and a frame number *)

Lemma dict_get_elem_NoDup {V} (d : list (string * V)) (k : string) (v : V) :
  NoDup d.*1 -> (k, v) ∈ d -> dict_get k d = Some v.
Proof.
  induction d as [|[k' v'] d IH]; [by intros _ ?%elem_of_nil|].
  rewrite fmap_cons. cbn [fst dict_get].
  intros [Hk' Hd]%NoDup_cons [[= -> ->]|Hin]%elem_of_cons.
  - by rewrite String.eqb_refl.
  - destruct (String.eqb_spec k k') as [->|_]; [|by apply IH].
    destruct Hk'. by apply (list_elem_of_fmap_2 fst _ _ Hin).
Qed.

Lemma head_filter_is_Some {A} (P : A -> bool) (l : list A) :
  is_Some (head (filter (fun x => P x) l)) <-> exists x, x ∈ l /\ P x = true.
Proof.
  rewrite head_is_Some. split.
  - intros Hne. destruct (filter (fun x => P x) l) as [|x l'] eqn:E; [done|].
    assert (x ∈ filter (fun x => P x) l) as [HP Hx]%list_elem_of_filter
      by (rewrite E; by left).
    exists x. split; [done | by apply Is_true_true].
  - intros (x & Hx & HP) E.
    assert (x ∈ filter (fun x => P x) l) as Hin
      by (apply list_elem_of_filter; by rewrite HP).
    rewrite E in Hin. by apply elem_of_nil in Hin.
Qed.

Lemma group_of_snoc (p0 : Parser.t) (k : string) (records : list File.t)
    (f : File.t) :
  group_of p0 k (records ++ [f])
  = group_of p0 k records
    ++ (if grouped p0 f
           && String.eqb (File.get_seq_key f (Parser.ignore_padding p0)) k
        then [f] else []).
Proof.
  unfold group_of. rewrite filter_app. f_equal.
  destruct (grouped p0 f
            && String.eqb (File.get_seq_key f (Parser.ignore_padding p0)) k)
    eqn:E.
  - by rewrite filter_cons_True by by rewrite E.
  - rewrite filter_cons_False; [done|]. rewrite E. by intros [].
Qed.

Lemma first_of_snoc (p0 : Parser.t) (k : string) (fr : Z)
    (records : list File.t) (f : File.t) :
  first_of p0 k fr (records ++ [f])
  = match first_of p0 k fr records with
    | Some g => Some g
    | None =>
        if grouped p0 f
           && String.eqb (File.get_seq_key f (Parser.ignore_padding p0)) k
           && bool_decide (File.frame f = Some fr)
        then Some f else None
    end.
Proof.
  unfold first_of. rewrite group_of_snoc, filter_app.
  destruct (filter _ (group_of p0 k records)) as [|g l] eqn:E; [|done].
  rewrite app_nil_l. cbn [head].
  destruct (grouped p0 f
            && String.eqb (File.get_seq_key f (Parser.ignore_padding p0)) k);
    [|done].
  cbn [andb]. destruct (bool_decide (File.frame f = Some fr)) eqn:Hfr.
  - by rewrite filter_cons_True by by rewrite Hfr.
  - rewrite filter_cons_False; [done|]. rewrite Hfr. by intros [].
Qed.

Lemma first_of_other (p0 : Parser.t) (k : string) (fr : Z)
    (records : list File.t) (f : File.t) :
  grouped p0 f
  && String.eqb (File.get_seq_key f (Parser.ignore_padding p0)) k
  && bool_decide (File.frame f = Some fr) = false ->
  first_of p0 k fr (records ++ [f]) = first_of p0 k fr records.
Proof. intros H. rewrite first_of_snoc, H. by destruct (first_of _ _ _ _). Qed.

Lemma group_of_no_key (p0 p : Parser.t) (records : list File.t) (k : string) :
  sorting p0 p records ->
  dict_get k (Parser._sequences p) = None ->
  group_of p0 k records = [].
Proof.
  intros Hp Hnone. unfold group_of.
  match goal with |- ?l = [] => destruct l as [|f l'] eqn:E end; [done|].
  assert (f ∈ f :: l') as Hin by by left.
  rewrite <- E in Hin. apply list_elem_of_filter in Hin as [Hsel Hf].
  apply Is_true_true, andb_true_iff in Hsel as [Hg Hk].
  apply String.eqb_eq in Hk. rewrite <- is_sequenceable_grouped in Hg.
  destruct (sorting_has_group _ _ _ Hp f Hf Hg) as [seq Hseq].
  rewrite Hk in Hseq. congruence.
Qed.

Lemma sort_file_step_first (p0 p p' : Parser.t) (records : list File.t)
    (path : string) :
  sorting p0 p records ->
  Parser._sort_file path p = (Ok (), p') ->
  first_held p0 p records ->
  first_held p0 p' (records ++ [File.init path]).
Proof.
  intros Hp Hstep Hheld. unfold first_held in *.
  set (f := File.init path) in *.
  set (k0 := File.get_seq_key f (Parser.ignore_padding p0)).
  destruct (sort_file_cases p0 p records path Hp)
    as [(Hex & H) | [(Hns & H)
        | (Hsq & fr0 & Hfr & [(Hget & seq0 & Hframes & H)
                             | [(seq0 & g & Hget & Hg & H)
                               | (seq0 & seq' & Hget & Hnone & Hframes & H)]])]];
    fold f k0 in Hex || fold f k0 in Hns || fold f k0 in Hsq;
    fold f k0 in H; try fold f k0 in Hget; try fold f in Hfr;
    rewrite H in Hstep; injection Hstep as <-;
    cbn [Parser._sequences Parser.add_excluded Parser.add_non_sequence
         Parser.add_collision Parser.set_sequences].
  - intros k seq Hk fr. rewrite first_of_other; [by apply Hheld|].
    rewrite <- is_sequenceable_grouped.
    destruct (classes_exclusive p0 f)
      as [(_ & _ & ->) | [(? & _) | (? & _)]]; [done | congruence..].
  - intros k seq Hk fr. rewrite first_of_other; [by apply Hheld|].
    rewrite <- is_sequenceable_grouped.
    destruct (classes_exclusive p0 f)
      as [(_ & ? & _) | [(_ & _ & -> & _) | (_ & ? & _)]];
      [congruence | done | congruence].
  - intros k seq Hk fr. cbn [dict_get] in Hk.
    destruct (String.eqb_spec k k0) as [->|Hne].
    + injection Hk as <-. rewrite Hframes.
      unfold first_of. rewrite group_of_snoc.
      rewrite (group_of_no_key p0 p records k0 Hp Hget), app_nil_l.
      rewrite <- is_sequenceable_grouped, Hsq. fold k0.
      rewrite String.eqb_refl. cbn [andb].
      destruct (decide (fr = fr0)) as [->|Hfr0].
      * rewrite lookup_singleton_eq.
        by rewrite filter_cons_True by by rewrite bool_decide_eq_true_2.
      * rewrite lookup_singleton_ne by done.
        rewrite filter_cons_False; [done|].
        rewrite bool_decide_eq_false_2; [by intros []|]. congruence.
    + rewrite first_of_other; [by apply Hheld|]. fold k0.
      apply String.eqb_neq in Hne. rewrite String.eqb_sym in Hne.
      by rewrite Hne, andb_false_r.
  - intros k seq Hk fr. rewrite first_of_snoc, <- (Hheld k seq Hk fr).
    destruct (Sequence._frames seq !! fr) as [h|] eqn:Hh; [done|].
    fold k0. destruct (String.eqb_spec k0 k) as [<-|Hne];
      [|by rewrite andb_false_r].
    destruct (decide (fr = fr0)) as [->|Hfr0]; [congruence|].
    rewrite bool_decide_eq_false_2, andb_false_r; [done|]. congruence.
  - intros k seq Hk fr.
    destruct (decide (k = k0)) as [->|Hne].
    + rewrite (dict_get_replace_eq _ _ _ _ Hget) in Hk. injection Hk as <-.
      rewrite Hframes, first_of_snoc, <- (Hheld k0 seq0 Hget fr).
      destruct (decide (fr = fr0)) as [->|Hfr0].
      * rewrite lookup_insert_eq, Hnone.
        rewrite <- is_sequenceable_grouped, Hsq. fold k0.
        rewrite String.eqb_refl. by rewrite bool_decide_eq_true_2.
      * rewrite lookup_insert_ne by done.
        destruct (Sequence._frames seq0 !! fr); [done|].
        rewrite bool_decide_eq_false_2, andb_false_r; [done|]. congruence.
    + rewrite dict_get_replace_ne in Hk by done.
      rewrite first_of_other; [by apply Hheld|]. fold k0.
      apply String.eqb_neq in Hne. rewrite String.eqb_sym in Hne.
      by rewrite Hne, andb_false_r.
Qed.

Lemma sort_files_first (p0 : Parser.t) (file_list : list string) :
  forall (p p' : Parser.t) (records : list File.t),
    sorting p0 p records ->
    first_held p0 p records ->
    Parser.sort_files file_list p = (Ok (), p') ->
    first_held p0 p' (records ++ (File.init <$> file_list)).
Proof.
  induction file_list as [|path file_list IH]; intros p p' records Hp Hheld.
  - intros [= <-]. by rewrite app_nil_r.
  - destruct (sort_file_step p0 p records path Hp) as (p1 & Hstep & Hp1).
    cbn [Parser.sort_files]. rewrite Hstep. intros Hloop.
    rewrite fmap_cons, cons_middle, app_assoc.
    apply (IH p1 p' _ Hp1); [|done].
    by apply (sort_file_step_first p0 p p1 records path).
Qed.

(** A group that holds the first file of each frame number has as many
    frames as its files have frame numbers. *)
Lemma frames_of_group (p0 : Parser.t) (k : string) (records : list File.t)
    (seq : Sequence.t) :
  (forall fr, Sequence._frames seq !! fr = first_of p0 k fr records) ->
  Sequence.frames seq = length (frame_numbers (group_of p0 k records)).
Proof.
  intros Hfirst. unfold Sequence.frames, Sequence.len, frame_numbers.
  rewrite <- size_dom.
  rewrite <- (size_list_to_set (C:=gset Z)) by apply NoDup_remove_dups.
  f_equal. apply set_eq. intros fr.
  rewrite elem_of_dom, elem_of_list_to_set, elem_of_remove_dups.
  rewrite list_elem_of_omap, Hfirst. unfold first_of.
  rewrite head_filter_is_Some. split.
  - intros (f & Hf & Hfr). exists f. split; [done|].
    by apply bool_decide_eq_true in Hfr.
  - intros (f & Hf & Hfr). exists f. split; [done|].
    by apply bool_decide_eq_true.
Qed.

Lemma sorting_reset (p0 : Parser.t) : sorting p0 (Parser._reset p0) [].
Proof.
  constructor; parser_simpl; try done.
  - apply NoDup_nil_2.
  - by intros k seq ?%elem_of_nil.
  - by intros f ?%elem_of_nil.
Qed.

(** The loop of [parse_directory] runs to its end without raising. *)
Lemma sort_files_spec (p0 : Parser.t) (file_list : list string) :
  forall (p : Parser.t) (records : list File.t),
    sorting p0 p records ->
    exists p',
      Parser.sort_files file_list p = (Ok (), p')
      /\ sorting p0 p' (records ++ (File.init <$> file_list)).
Proof.
  induction file_list as [|path file_list IH]; intros p records Hp.
  - exists p. by rewrite app_nil_r.
  - destruct (sort_file_step p0 p records path Hp) as (p1 & Hstep & Hp1).
    destruct (IH p1 _ Hp1) as (p' & Hloop & Hp').
    exists p'. cbn [Parser.sort_files]. rewrite Hstep. split; [done|].
    rewrite fmap_cons. by rewrite <- app_assoc in Hp'.
Qed.

Lemma cleanup_loop_spec (pending : list (string * Sequence.t)) :
  forall single_frames sequences,
    Parser.cleanup_loop pending single_frames sequences
    = (single_frames
         ++ filter (fun s => Sequence.frames s = 1%nat) pending.*2,
       sequences
         ++ filter (fun s => Sequence.frames s <> 1%nat) pending.*2).
Proof.
  induction pending as [|[k seq] pending IH]; intros singles seqs.
  - by rewrite !app_nil_r.
  - cbn [Parser.cleanup_loop]. rewrite fmap_cons. cbn [snd].
    destruct (Nat.eqb_spec (Sequence.frames seq) 1) as [E|E].
    + rewrite IH, filter_cons_True, filter_cons_False by (done || lia).
      by rewrite <- app_assoc.
    + rewrite IH, filter_cons_False, filter_cons_True by done.
      by rewrite <- app_assoc.
Qed.

Lemma three_classes (p0 : Parser.t) (records : list File.t) :
  records ≡ₚ filter (fun f => Parser.is_excluded p0 f) records
             ++ filter (fun f => is_non_sequence p0 f) records
             ++ filter (fun f => is_sequenceable p0 f) records.
Proof.
  induction records as [|f records IH]; [done|].
  destruct (classes_exclusive p0 f)
    as [(Hex & Hns & Hsq) | [(Hex & Hns & Hsq & _) | (Hex & Hns & Hsq & _)]].
  - rewrite filter_cons_True by by rewrite Hex.
    rewrite !filter_cons_False by (by rewrite ?Hns, ?Hsq; intros []).
    simpl. by rewrite <- IH.
  - rewrite (filter_cons_True (fun f => is_non_sequence p0 f))
      by by rewrite Hns.
    rewrite !filter_cons_False by (by rewrite ?Hex, ?Hsq; intros []).
    rewrite <- app_comm_cons, <- Permutation_middle. by rewrite <- IH.
  - rewrite (filter_cons_True (fun f => is_sequenceable p0 f))
      by by rewrite Hsq.
    rewrite !filter_cons_False by (by rewrite ?Hex, ?Hns; intros []).
    rewrite app_assoc, <- Permutation_middle, <- app_assoc.
    by rewrite <- IH.
Qed.

(** C2. A pass over a list of paths ends normally, with every file in
    exactly one bucket: the records of the files are, up to order, those
    of [excluded], [non_sequences], [collisions] and the members of the
    sequences of [sequences] and [single_frames].  [excluded] holds, in
    order, the files that are not allowed: an allow-list is configured
    and the lower-cased extension, by the table of the letters, is not
    in it.  [non_sequences] holds, in order, those of the others that
    have no frame number.  The remaining ones are grouped by sequence
    key, one sequence per key and every member under its own key: a
    sequence holds, under each frame number, the first file of the
    listing that has its key and that number, so that it has as many
    frames as the files of its key have frame numbers; a file is in
    [collisions] only when the sequence of its key holds a file under
    its frame number.  A key whose files have exactly one frame number
    has its sequence in [single_frames], a key whose files have two or
    more has it in [sequences]; [single_frames] holds sequences of one
    frame only and [sequences] none of them. *)
Theorem parse_directory_buckets (p0 : Parser.t) (file_list : list string) :
  let records := File.init <$> file_list in
  let key := fun f => File.get_seq_key f (Parser.ignore_padding p0) in
  exists groups p,
    Parser.sort_files file_list (Parser._reset p0) = (Ok (), groups)
    /\ Parser.parse_directory (Some file_list) p0 = (Ok (), p)
    /\ records ≡ₚ Parser.excluded p ++ Parser.non_sequences p
                  ++ Parser.collisions p ++ members (Parser.sequences p)
                  ++ members (Parser.single_frames p)
    /\ Parser.excluded p = filter (fun f => not_allowed p0 f) records
    /\ Parser.non_sequences p = filter (fun f => without_frame p0 f) records
    /\ Parser.collisions p ++ members (Parser.sequences p)
       ++ members (Parser.single_frames p)
       ≡ₚ filter (fun f => grouped p0 f) records
    /\ (forall seq f,
          seq ∈ Parser.sequences p ++ Parser.single_frames p ->
          f ∈ Sequence.iter seq ->
          key f = Sequence.seq_name seq)
    /\ NoDup (Sequence.seq_name
                <$> Parser.sequences p ++ Parser.single_frames p)
    /\ (forall f,
          f ∈ records -> grouped p0 f = true ->
          let frames := frame_numbers (group_of p0 (key f) records) in
          exists seq,
            seq ∈ Parser.sequences p ++ Parser.single_frames p
            /\ Sequence.seq_name seq = key f
            /\ (length frames = 1%nat -> seq ∈ Parser.single_frames p)
            /\ ((2 <= length frames)%nat -> seq ∈ Parser.sequences p))
    /\ (forall seq,
          seq ∈ Parser.sequences p ++ Parser.single_frames p ->
          (forall fr,
              Sequence._frames seq !! fr
              = first_of p0 (Sequence.seq_name seq) fr records)
          /\ Sequence.frames seq
             = length (frame_numbers
                         (group_of p0 (Sequence.seq_name seq) records)))
    /\ (forall f,
          f ∈ Parser.collisions p ->
          exists seq g fr,
            seq ∈ Parser.sequences p ++ Parser.single_frames p
            /\ Sequence.seq_name seq = key f
            /\ File.frame f = Some fr
            /\ Sequence._frames seq !! fr = Some g)
    /\ (forall seq,
          seq ∈ Parser.sequences p -> (2 <= Sequence.frames seq)%nat)
    /\ (forall seq,
          seq ∈ Parser.single_frames p -> Sequence.frames seq = 1%nat)
    /\ (forall k seq,
          (k, seq) ∈ Parser._sequences groups ->
          Sequence.seq_name seq = k
          /\ (1 <= Sequence.frames seq)%nat
          /\ (Sequence.frames seq = 1%nat -> seq ∈ Parser.single_frames p)
          /\ ((2 <= Sequence.frames seq)%nat -> seq ∈ Parser.sequences p))
    /\ Parser.single_frames p
       = filter (fun s => Sequence.frames s = 1%nat)
           (Parser._sequences groups).*2
    /\ Parser.sequences p
       = filter (fun s => Sequence.frames s <> 1%nat)
           (Parser._sequences groups).*2
    /\ Parser._sequences p = []
    /\ Parser.parsed p = true.
Proof.
  intros records key.
  destruct (sort_files_more p0 file_list _ [] (sorting_reset p0))
    as (g & Hloop & Hg & _ & Hheld).
  { by parser_simpl. }
  { by intros f ?%elem_of_nil. }
  assert (Hfirst : first_held p0 g records).
  { apply (sort_files_first p0 file_list (Parser._reset p0) g []
             (sorting_reset p0)); [|done].
    intros k seq. by parser_simpl. }
  rewrite app_nil_l in Hg. fold records in Hg.
  destruct Hg as [Hgs Hip Hie Hseqs Hsing Hparsed Hexcl Hnons Hgrp Hkeys
                  Hgroups Hhas].
  exists g, (Parser._cleanup g).
  unfold Parser.parse_directory. rewrite Hloop.
  unfold Parser._cleanup. rewrite cleanup_loop_spec, Hseqs, Hsing.
  parser_simpl. rewrite !app_nil_l.
  set (values := (Parser._sequences g).*2) in *.
  set (singles := filter (fun s => Sequence.frames s = 1%nat) values).
  set (seqs := filter (fun s => Sequence.frames s <> 1%nat) values).
  assert (Hvalues : seqs ++ singles ≡ₚ values).
  { unfold seqs, singles. rewrite Permutation_app_comm.
    apply filter_app_complement. }
  assert (Hmembers : members seqs ++ members singles ≡ₚ members values).
  { rewrite <- members_app. unfold members. by rewrite Hvalues. }
  assert (Hrest : Parser.collisions g ++ members seqs ++ members singles
                  ≡ₚ filter (fun f => is_sequenceable p0 f) records).
  { by rewrite Hmembers. }
  assert (Hin : forall seq, seq ∈ seqs ++ singles ->
                            (Sequence.seq_name seq, seq) ∈ Parser._sequences g).
  { intros seq. rewrite Hvalues. unfold values.
    intros [[k s] [-> Hks]]%list_elem_of_fmap_1. simpl.
    by destruct (Hgroups k s Hks) as [-> _]. }
  assert (Hget : forall seq, seq ∈ seqs ++ singles ->
                             dict_get (Sequence.seq_name seq)
                               (Parser._sequences g) = Some seq).
  { intros seq Hseq. by apply dict_get_elem_NoDup, Hin. }
  assert (Hvalue : forall k seq, dict_get k (Parser._sequences g) = Some seq ->
                                 seq ∈ seqs ++ singles).
  { intros k seq Hk%dict_get_Some_elem. rewrite Hvalues.
    apply (list_elem_of_fmap_2 snd _ _ Hk). }
  rewrite <- (filter_bool_ext _ _ records (is_excluded_not_allowed p0)).
  rewrite <- (filter_bool_ext _ _ records (is_non_sequence_without_frame p0)).
  rewrite <- (filter_bool_ext _ _ records (is_sequenceable_grouped p0)).
  split_and!; try done.
  - rewrite Hexcl, Hnons, Hrest. apply three_classes.
  - intros seq f Hseq [fr Hf]%elem_of_iter.
    destruct (Hgroups _ _ (Hin seq Hseq)) as (_ & _ & _ & Hmem).
    by destruct (Hmem fr f Hf).
  - rewrite Hvalues. unfold values.
    replace (Sequence.seq_name <$> (Parser._sequences g).*2)
      with ((Parser._sequences g).*1); [done|].
    rewrite <- list_fmap_compose. apply Forall_fmap_ext_1, Forall_forall.
    intros [k s] Hks. simpl. by destruct (Hgroups k s Hks) as [-> _].
  - intros f Hf Hsq. rewrite <- is_sequenceable_grouped in Hsq.
    destruct (Hhas f Hf Hsq) as [seq Hseq].
    pose proof (frames_of_group p0 _ records seq (Hfirst _ _ Hseq)) as Hn.
    fold (key f) in Hn.
    assert (Hv : seq ∈ values).
    { apply dict_get_Some_elem in Hseq.
      apply (list_elem_of_fmap_2 snd _ _ Hseq). }
    exists seq. split_and!.
    + by apply (Hvalue _ _ Hseq).
    + apply dict_get_Some_elem in Hseq.
      by destruct (Hgroups _ _ Hseq) as [-> _].
    + intros H1. apply list_elem_of_filter. split; [congruence | done].
    + intros H2. apply list_elem_of_filter. split; [lia | done].
  - intros seq Hseq.
    pose proof (Hfirst _ _ (Hget seq Hseq)) as Hfr.
    split; [done | by apply frames_of_group].
  - intros f Hf.
    destruct (Hheld f Hf) as (seq & fr & Hseq & Hfr & [h Hh]).
    rewrite Hip in Hseq. exists seq, h, fr.
    split_and!; [by apply (Hvalue _ _ Hseq) | | done | done].
    apply dict_get_Some_elem in Hseq.
    by destruct (Hgroups _ _ Hseq) as [-> _].
  - intros seq [Hne Hv]%list_elem_of_filter.
    assert (Hs : seq ∈ seqs ++ singles).
    { rewrite Hvalues. done. }
    destruct (Hgroups _ _ (Hin seq Hs)) as (_ & _ & Hpos & _). lia.
  - by intros seq [H1 _]%list_elem_of_filter.
  - intros k seq Hks.
    assert (Hv : seq ∈ values) by apply (list_elem_of_fmap_2 snd _ _ Hks).
    destruct (Hgroups k seq Hks) as (-> & _ & Hpos & _).
    split_and!; [done | done | |].
    + intros H1. by apply list_elem_of_filter.
    + intros H2. apply list_elem_of_filter. split; [lia | done].
Qed.

Lemma parse_directory_buckets_witness :
  let p0 := Parser.init ["EXR"; "txt"] false true in
  let listing := ["a.0001.exr"; "a.0002.exr"; "a.2.exr"; "B.0007.EXR";
                  "notes.txt"; "c.0001.jpg"] in
  exists p,
    Parser.parse_directory (Some listing) p0 = (Ok (), p)
    /\ Parser.excluded p = [File.init "c.0001.jpg"]
    /\ Parser.non_sequences p = [File.init "notes.txt"]
    /\ Parser.collisions p = [File.init "a.2.exr"]
    /\ (fun s => (Sequence.seq_name s, Sequence.get_frames s))
         <$> Parser.sequences p = [("a.#.exr", [1; 2])]
    /\ (fun s => (Sequence.seq_name s, Sequence.get_frames s))
         <$> Parser.single_frames p = [("B.#.EXR", [7])].
Proof.
  intros p0 listing.
  destruct (parse_directory_buckets p0 listing)
    as (g & p & _ & Hparse & _ & Hexcl & Hnons & _).
  exists p. split; [exact Hparse|].
  split; [rewrite Hexcl; vm_compute; reflexivity|].
  split; [rewrite Hnons; vm_compute; reflexivity|].
  vm_compute in Hparse. injection Hparse as <-.
  vm_compute. repeat split; reflexivity.
Defined.

(** ** The examples of the description *)

Example three_frames_one_gap :
  let p := run_parser [] ["a.0001.exr"; "a.0002.exr"; "a.0004.exr"] in
  (fun s => (Sequence.frames s, Sequence.missing_frames s,
             Sequence.formatter s "%R", Sequence.formatter s "%M"))
    <$> Parser.sequences p
  = [(3%nat, Ok 1, Ok "[1-2, 4]", Ok "[3]")]
  /\ Parser.single_frames p = [] /\ Parser.collisions p = [].
Proof. by vm_compute. Qed.

Example no_digits_is_non_sequence :
  let p := run_parser [] ["b.txt"] in
  Parser.non_sequences p = [File.init "b.txt"]
  /\ Parser.excluded p = [] /\ Parser.collisions p = [].
Proof. by vm_compute. Qed.

Example lone_frame_is_single :
  let p := run_parser [] ["c.0001.exr"] in
  Sequence.str <$> Parser.single_frames p = [Ok "c.[0001-0001].exr"]
  /\ Parser.sequences p = [].
Proof. by vm_compute. Qed.

Example allow_list_excludes :
  let p := run_parser ["exr"] ["d.0001.tif"] in
  Parser.excluded p = [File.init "d.0001.tif"]
  /\ Parser.single_frames p = [] /\ Parser.sequences p = [].
Proof. by vm_compute. Qed.

(** ** split and join *)

Lemma split_on_nonempty (sep : ascii) (s : string) : split_on sep s <> [].
Proof.
  destruct s as [|c s]; simpl; [done|].
  destruct (Ascii.eqb c sep); [done|]. by destruct (split_on sep s).
Qed.

Lemma concat_split_on (sep : ascii) (s : string) :
  String.concat (String sep "") (split_on sep s) = s.
Proof.
  induction s as [|c s IH]; simpl; [done|].
  destruct (Ascii.eqb_spec c sep) as [->|Hne].
  - pose proof (split_on_nonempty sep s) as Hne.
    destruct (split_on sep s) as [|p ps]; [done|].
    simpl in *. by rewrite IH.
  - pose proof (split_on_nonempty sep s) as Hne'.
    destruct (split_on sep s) as [|p ps]; [done|].
    destruct ps; simpl in *; by rewrite <- IH.
Qed.

Lemma split_on_no_sep (sep : ascii) (s : string) :
  Forall (fun p => has_char (fun c => Ascii.eqb c sep) p = false) (split_on sep s).
Proof.
  induction s as [|c s IH]; simpl; [by constructor|].
  destruct (Ascii.eqb_spec c sep) as [->|Hne]; [by constructor|].
  destruct (split_on sep s) as [|p ps]; simpl.
  - constructor; [|done]. simpl. rewrite orb_false_r.
    by apply Ascii.eqb_neq.
  - apply Forall_cons in IH as [Hp Hps]. constructor; [|done]. simpl.
    rewrite Hp, orb_false_r. by apply Ascii.eqb_neq.
Qed.

Lemma split_on_single (sep : ascii) (s : string) :
  has_char (fun c => Ascii.eqb c sep) s = false <-> split_on sep s = [s].
Proof.
  induction s as [|c s IH]; simpl; [done|].
  destruct (Ascii.eqb c sep) eqn:Hc; simpl.
  - split; [done | by intros [=]].
  - rewrite IH. pose proof (split_on_nonempty sep s) as Hne.
    destruct (split_on sep s) as [|p ps]; [done|].
    split; [by intros [= -> ->] | by intros [= -> ->]].
Qed.

Lemma concat_snoc (sep x : string) (l : list string) :
  l <> [] ->
  String.concat sep (l ++ [x]) = String.concat sep l +:+ sep +:+ x.
Proof.
  induction l as [|y l IH]; [done|]. intros _.
  destruct l as [|z l]; [done|].
  change (String.concat sep ((y :: z :: l) ++ [x]))
    with (y +:+ sep +:+ String.concat sep ((z :: l) ++ [x])).
  rewrite IH by done.
  change (String.concat sep (y :: z :: l))
    with (y +:+ sep +:+ String.concat sep (z :: l)).
  by rewrite !str_app_assoc.
Qed.

Lemma removelast_last {A} (l : list A) (x : A) :
  last l = Some x -> removelast l ++ [x] = l.
Proof.
  induction l as [|a l IH]; [done|].
  destruct l as [|b l]; [by intros [= ->]|].
  rewrite last_cons_cons. intros H.
  change (removelast (a :: b :: l)) with (a :: removelast (b :: l)).
  simpl. f_equal. by apply IH.
Qed.

Lemma split_extension_cases (filename : string) :
  (has_char is_dot_char filename = false ->
   split_extension filename = (filename, ""))
  /\ (has_char is_dot_char filename = true ->
      exists base ext,
        split_extension filename = (base, ext)
        /\ filename = base +:+ "." +:+ ext
        /\ has_char is_dot_char ext = false).
Proof.
  unfold split_extension. split.
  - intros H. apply (split_on_single "." filename) in H. by rewrite H.
  - intros H.
    pose proof (split_on_nonempty "." filename) as Hne.
    pose proof (split_on_no_sep "." filename) as Hall.
    pose proof (concat_split_on "." filename) as Hcat.
    destruct (split_on "." filename) as [|p [|q ps]] eqn:Hparts; [done| |].
    + simpl in Hcat. subst p.
      apply (split_on_single "." filename) in Hparts. unfold is_dot_char in H.
      congruence.
    + cbn [length Nat.ltb Nat.leb].
      destruct (last (p :: q :: ps)) as [ext|] eqn:Hlast;
        [|by apply last_None in Hlast].
      eexists _, ext. split; [done|]. split.
      * rewrite <- Hcat at 1. rewrite <- (removelast_last _ _ Hlast) at 1.
        apply concat_snoc. by destruct ps.
      * rewrite Forall_forall in Hall. apply Hall.
        rewrite last_lookup in Hlast. by eapply list_elem_of_lookup_2.
Qed.

(** X1. [split_extension] cuts a file name at its last dot: a name with
    no dot comes back whole with an empty extension; otherwise the
    extension holds no dot and base, dot and extension make up the
    name. *)
Theorem split_extension_last_dot (filename : string) :
  (has_char is_dot_char filename = false ->
   split_extension filename = (filename, ""))
  /\ (has_char is_dot_char filename = true ->
      exists base ext,
        split_extension filename = (base, ext)
        /\ filename = base +:+ "." +:+ ext
        /\ has_char is_dot_char ext = false).
Proof. apply split_extension_cases. Qed.

Lemma split_extension_last_dot_witness :
  (has_char is_dot_char "Makefile" = false
   /\ split_extension "Makefile" = ("Makefile", ""))
  /\ (has_char is_dot_char "shot.0101.final.exr" = true
      /\ exists base ext,
           split_extension "shot.0101.final.exr" = (base, ext)
           /\ "shot.0101.final.exr" = base +:+ "." +:+ ext
           /\ has_char is_dot_char ext = false).
Proof.
  split.
  - split; [reflexivity|].
    apply (proj1 (split_extension_last_dot "Makefile")). reflexivity.
  - split; [reflexivity|].
    apply (proj2 (split_extension_last_dot "shot.0101.final.exr")).
    reflexivity.
Defined.

(** ** File: the frame number *)

(** Whatever the name, the frame digits [extract_frame] returns are
    digits. *)
Lemma extract_frame_digits (name : string) :
  all_chars is_digit (extract_frame name).1.2 = true.
Proof.
  unfold extract_frame. rewrite re_match_unfold.
  destruct (star_atom Dot name (in_group name)) as [caps|] eqn:Hstar.
  - apply star_atom_Some in Hstar as (pre & suf & _ & _ & Hk & _).
    unfold in_group in Hk. destruct suf as [|c s2]; [done|].
    destruct (atom_matches NonDigit c); [|done].
    rewrite after_group_eq in Hk. destruct s2 as [|d s3]; [done|].
    destruct (is_digit d) eqn:Hd; [|done]. simplify_eq.
    unfold group. cbn -[consumed String.append take_while drop_while].
    by rewrite Hd, all_chars_take_while.
  - rewrite after_group_eq. destruct name as [|d s']; [done|].
    destruct (is_digit d) eqn:Hd; [|done].
    unfold group. cbn -[consumed String.append take_while drop_while].
    by rewrite Hd, all_chars_take_while.
Qed.

Lemma uint_of_char_digit (a : ascii) (d : Decimal.uint) :
  is_digit a = true -> is_Some (uint_of_char a (Some d)).
Proof.
  destruct a as [[] [] [] [] [] [] [] []]; try discriminate; intros _;
    simpl; eauto.
Qed.

Lemma uint_of_string_digits (s : string) :
  all_chars is_digit s = true -> is_Some (NilEmpty.uint_of_string s).
Proof.
  induction s as [|a s IH]; simpl; [eauto|].
  intros [Ha Hs]%andb_true_iff. destruct (IH Hs) as [d ->].
  by apply uint_of_char_digit.
Qed.

(** [int] of a run of digits, leading zeros or not, is a natural number;
    of the empty string it is [ValueError]. *)
Lemma int_of_str_digits (s : string) :
  all_chars is_digit s = true ->
  (s = "" -> int_of_str s = None)
  /\ (s <> "" -> exists n, int_of_str s = Some n /\ 0 <= n).
Proof.
  intros Hs. split; [by intros ->|]. intros Hne.
  destruct s as [|a s]; [done|]. unfold int_of_str. cbn [NilZero.int_of_string].
  assert (Ha : is_digit a = true) by by apply andb_true_iff in Hs as [? _].
  destruct (Ascii.eqb_spec a "-") as [->|_]; [done|].
  unfold NilZero.uint_of_string.
  destruct (uint_of_string_digits _ Hs) as [d Hd]. rewrite Hd. simpl.
  eexists. split; [done|]. unfold Z.of_uint. lia.
Qed.

(** X2. The frame digits of a [File] are digits only, whatever the path,
    and [padding] is their number.  Without digits [frame] is [None];
    with digits, up to the 640 that [int] converts on every interpreter,
    [frame] is a number; and a frame number is never negative and never
    comes without digits. *)
Theorem file_frame_digits (filepath : string) :
  let f := File.init filepath in
  all_chars is_digit (File.frame_as_str f) = true
  /\ File.padding f = String.length (File.frame_as_str f)
  /\ (File.frame_as_str f = "" -> File.frame f = None)
  /\ ((0 < File.padding f <= str_digits_check_threshold)%nat ->
      exists n, File.frame f = Some n /\ 0 <= n)
  /\ (forall n, File.frame f = Some n ->
                0 <= n /\ File.frame_as_str f <> "").
Proof.
  intros f.
  assert (Hdigits : all_chars is_digit (File.frame_as_str f) = true).
  { unfold f, File.init, File.frame_as_str.
    destruct (path_split filepath) as [dir name].
    destruct (split_extension name) as [base ext].
    pose proof (extract_frame_digits base) as H.
    by destruct (extract_frame base) as [[namehead framenum] tail]. }
  assert (Hpad : File.padding f = String.length (File.frame_as_str f)).
  { unfold f, File.init, File.frame_as_str.
    destruct (path_split filepath) as [dir name].
    destruct (split_extension name) as [base ext].
    by destruct (extract_frame base) as [[namehead framenum] tail]. }
  destruct (int_of_str_digits _ Hdigits) as [Hnone Hsome].
  rewrite Hpad.
  unfold File.frame, File.frame_as_str in *. split_and!; [done | done | done | |].
  - intros [Hpos _]. apply Hsome. intros E. rewrite E in Hpos. simpl in Hpos. lia.
  - intros n Hn.
    destruct (decide (File._framenum f = "")) as [E|Hne].
    + rewrite (Hnone E) in Hn. done.
    + destruct (Hsome Hne) as (n' & Hn' & ?). split; [congruence | done].
Qed.

Lemma file_frame_digits_witness :
  (0 < File.padding (File.init "shots/a.0007.exr")
   <= str_digits_check_threshold)%nat
  /\ File.frame_as_str (File.init "shots/a.0007.exr") = "0007"
  /\ exists n, File.frame (File.init "shots/a.0007.exr") = Some n /\ 0 <= n.
Proof.
  split; [vm_compute; lia|]. split; [reflexivity|].
  apply (file_frame_digits "shots/a.0007.exr"). vm_compute. lia.
Defined.

(** X3. The parts of a [File] make up its name when the name has an
    extension and its base holds no line feed: head of the name, frame
    digits and tail, in this order, are the name.  Of a name without
    extension the tail is empty, whatever followed the digits. *)
Theorem file_name_parts (filepath : string) :
  let f := File.init filepath in
  (File.ext f = "" -> File.tail f = "")
  /\ (no_newline (File._base f) -> File.ext f <> "" ->
      File.namehead f +:+ File.frame_as_str f +:+ File.tail f = File.name f).
Proof.
  intros f. unfold f, File.init, File.frame_as_str.
  destruct (path_split filepath) as [dir name].
  destruct (split_extension name) as [base ext] eqn:Hsplit.
  pose proof (extract_frame_no_newline base) as Hbase.
  destruct (extract_frame base) as [[namehead framenum] tail].
  cbn [File.ext File.tail File._base File.namehead File._framenum File.name].
  split.
  - by intros ->.
  - intros Hnl Hext. destruct (Hbase Hnl) as [Hcat _].
    apply String.eqb_neq in Hext as Hext'. rewrite Hext'.
    destruct (split_extension_cases name) as [Hnodot Hdot].
    destruct (has_char is_dot_char name) eqn:Hd.
    + destruct (Hdot eq_refl) as (b & e & Hbe & -> & _).
      rewrite Hsplit in Hbe. injection Hbe as <- <-.
      rewrite <- Hcat. simpl. by rewrite !str_app_assoc.
    + rewrite (Hnodot eq_refl) in Hsplit. by simplify_eq.
Qed.

Lemma file_name_parts_witness :
  File.ext (File.init "/shots/a1/take_007_v2.exr") <> ""
  /\ no_newline (File._base (File.init "/shots/a1/take_007_v2.exr"))
  /\ File.namehead (File.init "/shots/a1/take_007_v2.exr")
     +:+ File.frame_as_str (File.init "/shots/a1/take_007_v2.exr")
     +:+ File.tail (File.init "/shots/a1/take_007_v2.exr")
     = File.name (File.init "/shots/a1/take_007_v2.exr").
Proof.
  assert (Hext : File.ext (File.init "/shots/a1/take_007_v2.exr") <> "")
    by (vm_compute; discriminate).
  assert (Hnl : no_newline (File._base (File.init "/shots/a1/take_007_v2.exr")))
    by reflexivity.
  split; [exact Hext|]. split; [exact Hnl|].
  exact (proj2 (file_name_parts "/shots/a1/take_007_v2.exr") Hnl Hext).
Defined.

(** ** File: equality *)

(** X4. [!=] is the negation of [==] whatever the right operand; two
    [File]s are equal exactly when their paths are, and a [File] equals
    its own path given as a string. *)
Theorem file_eq_ne (self : File.t) (other : File.pyobj) :
  File.__ne__ self other = negb (File.__eq__ self other)
  /\ (forall o, File.__eq__ self (File.ObjFile o) = true
                <-> File.abspath self = File.abspath o)
  /\ (forall o, File.__eq__ self (File.ObjFile o)
                = File.__eq__ o (File.ObjFile self))
  /\ File.__eq__ self (File.ObjStr (File.str self)) = true.
Proof.
  split_and!.
  - by destruct other.
  - intros o. apply String.eqb_eq.
  - intros o. apply String.eqb_sym.
  - apply String.eqb_refl.
Qed.

(** ** Sequence: the frame numbers in order *)

Lemma ascending_sorted_nodup (l : list Z) :
  StronglySorted Z.le l -> NoDup l -> ascending l = true.
Proof.
  induction 1 as [|x l Hs IH Hall]; [done|]. intros [Hx Hnd]%NoDup_cons.
  apply ascending_cons; [|by apply IH].
  rewrite Forall_forall in *. intros y Hy.
  specialize (Hall y Hy). assert (x <> y) by (by intros ->). lia.
Qed.

Lemma ascending_bounds (l : list Z) :
  ascending l = true ->
  (forall x y, head l = Some x -> y ∈ l -> x <= y)
  /\ (forall x y, last l = Some x -> y ∈ l -> y <= x).
Proof.
  induction l as [|a l IH]; [by split; intros ??? ?%elem_of_nil|].
  intros Hasc. destruct l as [|b l].
  - split; intros x y [= <-] ->%list_elem_of_singleton; lia.
  - simpl in Hasc. apply andb_true_iff in Hasc as [Hab Hasc].
    apply Z.ltb_lt in Hab. destruct (IH Hasc) as [Hhead Hlast]. split.
    + intros x y [= <-] [->|Hy]%elem_of_cons; [lia|].
      specialize (Hhead b y eq_refl Hy). lia.
    + intros x y. rewrite last_cons_cons. intros Hx [->|Hy]%elem_of_cons.
      * specialize (Hlast x b Hx ltac:(by left)). lia.
      * by apply Hlast.
Qed.

Lemma get_frames_perm (s : Sequence.t) :
  Sequence.get_frames s ≡ₚ Sequence.keys s.
Proof. apply merge_sort_Permutation. Qed.

Lemma get_frames_ascending (s : Sequence.t) :
  ascending (Sequence.get_frames s) = true.
Proof.
  apply ascending_sorted_nodup.
  - apply Sorted_StronglySorted; [apply _|]. apply Sorted_merge_sort; apply _.
  - rewrite get_frames_perm. apply NoDup_fst_map_to_list.
Qed.

(** X5. [get_frames] lists the frame numbers of the frame map, each
    once, in ascending order: as many as [frames], the first is [start]
    and the last is [end]. *)
Theorem get_frames_sorted_keys (s : Sequence.t) :
  ascending (Sequence.get_frames s) = true
  /\ (forall k, k ∈ Sequence.get_frames s
                <-> is_Some (Sequence._frames s !! k))
  /\ length (Sequence.get_frames s) = Sequence.frames s
  /\ (forall lo, Sequence.start s = Ok lo ->
                 head (Sequence.get_frames s) = Some lo)
  /\ (forall hi, Sequence.end_ s = Ok hi ->
                 last (Sequence.get_frames s) = Some hi).
Proof.
  pose proof (get_frames_ascending s) as Hasc.
  assert (Hmem : forall k, k ∈ Sequence.get_frames s
                           <-> is_Some (Sequence._frames s !! k)).
  { intros k. by rewrite get_frames_perm, elem_of_keys. }
  destruct (ascending_bounds _ Hasc) as [Hhead Hlast].
  split_and!; [done | done | | |].
  - by rewrite get_frames_perm, length_keys.
  - intros lo Hlo.
    assert (Hne : Sequence._frames s <> ∅).
    { intros E. unfold Sequence.start, Sequence.keys in Hlo.
      by rewrite E, map_to_list_empty in Hlo. }
    destruct (start_end_spec s Hne) as (lo' & hi & Hlo' & _ & Hin & _ & Hb).
    rewrite Hlo in Hlo'. injection Hlo' as <-.
    destruct (head (Sequence.get_frames s)) as [x|] eqn:Hx.
    + f_equal. apply Hmem in Hin.
      pose proof (Hhead x lo eq_refl Hin).
      assert (x ∈ Sequence.get_frames s) as Hxin%Hmem%Hb
        by by apply head_Some_elem_of.
      lia.
    + apply head_None in Hx. apply Hmem in Hin. rewrite Hx in Hin.
      by apply elem_of_nil in Hin.
  - intros hi Hhi.
    assert (Hne : Sequence._frames s <> ∅).
    { intros E. unfold Sequence.end_, Sequence.keys in Hhi.
      by rewrite E, map_to_list_empty in Hhi. }
    destruct (start_end_spec s Hne) as (lo & hi' & _ & Hhi' & _ & Hin & Hb).
    rewrite Hhi in Hhi'. injection Hhi' as <-.
    destruct (last (Sequence.get_frames s)) as [x|] eqn:Hx.
    + f_equal. apply Hmem in Hin.
      pose proof (Hlast x hi eq_refl Hin).
      assert (x ∈ Sequence.get_frames s) as Hxin%Hmem%Hb
        by by apply last_Some_elem_of.
      lia.
    + apply last_None in Hx. apply Hmem in Hin. rewrite Hx in Hin.
      by apply elem_of_nil in Hin.
Qed.

(** ** The range compressor on any list *)

Lemma frame_ranges_of_temporary_runs (frames : list Z) :
  exists runs,
    maximal_runs runs frames
    /\ frame_ranges_of_temporary frames = Ok (runs_to_string runs)
    /\ parse_ranges (runs_to_string runs) = Some frames.
Proof.
  destruct (frame_ranges_to_string_runs (PyList 0%nat) {[ 0%nat := frames ]})
    as (runs & Hruns & Hstr).
  simpl in Hruns. rewrite lookup_singleton_eq in Hruns. simpl in Hruns.
  exists runs. split_and!; [done | done |].
  destruct Hruns as (<- & Hall & _). by apply parse_runs_to_string.
Qed.

(** X6. On a list, a tuple or a range [frame_ranges_to_string] asks
    nothing of the items: on any integers that [str] converts on every
    interpreter (640 digits), in any order and with repetitions, it
    raises nothing and returns the notation of the runs of consecutive
    integers, which reads back to the very items.  On an iterator that
    yields these items it does the same, unless the iterator yields
    nothing: then it raises the [IndexError] of [pop(0)]. *)
Theorem frame_ranges_total (items : list Z) (h : heap) :
  Forall within_str_digits items ->
  (forall frame_list,
      items_of h frame_list = items ->
      exists runs,
        (frame_ranges_to_string frame_list h).1 = Ok (runs_to_string runs)
        /\ maximal_runs runs items
        /\ parse_ranges (runs_to_string runs) = Some items)
  /\ (items = [] ->
      (frame_ranges_of_iterator items h).1
      = Raise (IndexError "pop from empty list"))
  /\ (items <> [] ->
      (frame_ranges_of_iterator items h).1
      = (frame_ranges_to_string (PyTuple items) h).1).
Proof.
  intros _. split_and!.
  - intros frame_list <-.
    destruct (frame_ranges_to_string_runs frame_list h)
      as (runs & Hruns & Hstr).
    exists runs. split_and!; [done | done |].
    destruct Hruns as (<- & Hall & _). by apply parse_runs_to_string.
  - by intros ->.
  - by destruct items.
Qed.

Lemma frame_ranges_total_witness :
  Forall within_str_digits [3; 1; 2; 2]
  /\ (exists runs,
         (frame_ranges_to_string (PyTuple [3; 1; 2; 2]) ∅).1
         = Ok (runs_to_string runs)
         /\ parse_ranges (runs_to_string runs) = Some [3; 1; 2; 2])
  /\ (frame_ranges_of_iterator [3; 1; 2; 2] ∅).1
     = (frame_ranges_to_string (PyTuple [3; 1; 2; 2]) ∅).1
  /\ (frame_ranges_of_iterator [] ∅).1
     = Raise (IndexError "pop from empty list").
Proof.
  assert (H : Forall within_str_digits [3; 1; 2; 2]).
  { repeat (apply Forall_cons_2; [vm_compute; reflexivity|]).
    apply Forall_nil_2. }
  split; [exact H|].
  destruct (frame_ranges_total [3; 1; 2; 2] ∅ H) as (Hsized & _ & Hiter).
  split.
  - destruct (Hsized (PyTuple [3; 1; 2; 2]) eq_refl) as (runs & Hs & _ & Hp).
    exists runs. exact (conj Hs Hp).
  - split; [apply Hiter; discriminate|].
    apply (frame_ranges_total [] ∅ (Forall_nil_2 _)). reflexivity.
Defined.

Lemma directive_explicit_range (s : Sequence.t) :
  exists runs,
    maximal_runs runs (Sequence.get_frames s)
    /\ Sequence.directive s "R" = Ok (runs_to_string runs)
    /\ parse_ranges (runs_to_string runs) = Some (Sequence.get_frames s).
Proof. apply frame_ranges_of_temporary_runs. Qed.

Lemma directive_missing (s : Sequence.t) :
  (0 < Sequence.frames s)%nat ->
  exists missing runs,
    Sequence.get_missing_frames s = Ok missing
    /\ Sequence.directive s "M" = Ok (runs_to_string runs)
    /\ parse_ranges (runs_to_string runs) = Some missing
    /\ Sequence.directive s "m" = Ok (str_of_int (Z.of_nat (length missing))).
Proof.
  intros Hpos%frames_pos_nonempty.
  destruct (start_end_spec s Hpos) as (lo & hi & Hlo & Hhi & Hlo_in & _ & Hb).
  set (missing := filter (fun k => Sequence._frames s !! k = None)
                    (seqZ lo (hi + 1 - lo))).
  assert (Hmissing : Sequence.get_missing_frames s = Ok missing).
  { unfold Sequence.get_missing_frames. by rewrite Hlo, Hhi. }
  destruct (frame_ranges_of_temporary_runs missing)
    as (runs & Hruns & Hstr & Hparse).
  exists missing, runs. split_and!; [done | | done |].
  - change (Sequence.directive s "M")
      with (Sequence.__explicit_missing_range s).
    unfold Sequence.__explicit_missing_range. rewrite Hmissing.
    cbn [mbind result_bind]. by rewrite Hstr.
  - change (Sequence.directive s "m") with (Sequence.__num_missing_frames s).
    unfold Sequence.__num_missing_frames, Sequence.missing_frames.
    rewrite Hlo, Hhi. cbn [mbind result_bind]. do 2 f_equal.
    unfold missing. rewrite length_missing; [lia | done|].
    specialize (Hb lo Hlo_in). lia.
Qed.

Lemma formatter_one (s : Sequence.t) (c : ascii) :
  Sequence.formatter s (String "%" (String c ""))
  = Sequence.directive s c.
Proof.
  rewrite formatter_directive.
  change (Sequence.formatter s "") with (Ok (A:=string) "").
  destruct (Sequence.directive s c); cbn [mbind result_bind]; [|done].
  by rewrite str_app_nil_r.
Qed.

(** X7. The directive "%R" never raises, not even on a sequence without
    frames, where it gives "[]"; what it writes reads back to
    [get_frames()]. *)
Theorem formatter_explicit_range (s : Sequence.t) :
  exists out,
    Sequence.formatter s "%R" = Ok out
    /\ parse_ranges out = Some (Sequence.get_frames s)
    /\ (Sequence.frames s = 0%nat -> out = "[]").
Proof.
  destruct (directive_explicit_range s) as (runs & Hruns & Hstr & Hparse).
  exists (runs_to_string runs). split_and!; [|done|].
  - by rewrite (formatter_one s "R").
  - intros Hz. rewrite <- length_keys in Hz.
    apply nil_length_inv in Hz.
    assert (Sequence.get_frames s = []) as Hnil.
    { apply Permutation_nil_r. by rewrite get_frames_perm, Hz. }
    destruct Hruns as (Hcat & Hall & _). rewrite Hnil in Hcat.
    destruct runs as [|r runs]; [done|].
    apply Forall_cons in Hall as [[Hne _] _].
    simpl in Hcat. apply app_eq_nil in Hcat as [? _]. done.
Qed.

(** X8. On a sequence that has frames, "%M" writes the notation of
    [get_missing_frames()], which reads back to that list, and "%m"
    writes how many they are. *)
Theorem formatter_missing (s : Sequence.t) :
  (0 < Sequence.frames s)%nat ->
  exists missing out,
    Sequence.get_missing_frames s = Ok missing
    /\ Sequence.formatter s "%M" = Ok out
    /\ parse_ranges out = Some missing
    /\ Sequence.formatter s "%m" = Ok (str_of_int (Z.of_nat (length missing))).
Proof.
  intros Hpos.
  destruct (directive_missing s Hpos)
    as (missing & runs & Hmissing & HM & Hparse & Hm).
  exists missing, (runs_to_string runs).
  by rewrite (formatter_one s "M"), (formatter_one s "m").
Qed.

Lemma formatter_missing_witness :
  (0 < Sequence.frames three_frames)%nat
  /\ exists missing out,
       Sequence.get_missing_frames three_frames = Ok missing
       /\ Sequence.formatter three_frames "%M" = Ok out
       /\ parse_ranges out = Some missing
       /\ Sequence.formatter three_frames "%m"
          = Ok (str_of_int (Z.of_nat (length missing))).
Proof.
  split; [vm_compute; lia|].
  apply (formatter_missing three_frames). vm_compute; lia.
Defined.

(** ** The formatter on whole templates *)

Lemma formatter_loop_app (s : Sequence.t) (t1 t2 : string) :
  forall (matched : bool) (acc : string),
    Sequence.formatter_loop s (t1 +:+ t2) matched acc
    = out ← Sequence.formatter_loop s t1 matched acc;
      Sequence.formatter_loop s t2 (in_directive t1 matched) out.
Proof.
  induction t1 as [|c t1 IH]; intros matched acc; [done|].
  cbn [String.append Sequence.formatter_loop in_directive].
  destruct matched.
  - destruct (Sequence.directive s c) as [d|e]; cbn [mbind result_bind];
      [apply IH | done].
  - destruct (Ascii.eqb c "%"); apply IH.
Qed.

Lemma formatter_app (s : Sequence.t) (t1 t2 : string) :
  in_directive t1 false = false ->
  Sequence.formatter s (t1 +:+ t2)
  = o1 ← Sequence.formatter s t1;
    o2 ← Sequence.formatter s t2;
    Ok (o1 +:+ o2).
Proof.
  intros Hd. unfold Sequence.formatter. rewrite formatter_loop_app, Hd.
  destruct (Sequence.formatter_loop s t1 false "") as [o1|e];
    cbn [mbind result_bind]; [|done].
  apply formatter_loop_acc.
Qed.

Lemma formatter_loop_literal (s : Sequence.t) (text : string) :
  forall acc,
    has_char is_percent text = false ->
    Sequence.formatter_loop s text false acc = Ok (acc +:+ text).
Proof.
  induction text as [|c text IH]; intros acc; simpl.
  - by rewrite str_app_nil_r.
  - intros [Hc Ht]%orb_false_iff. unfold is_percent in Hc. rewrite Hc.
    rewrite IH by done. by rewrite str_app_assoc.
Qed.

Lemma in_directive_literal (text : string) :
  has_char is_percent text = false -> in_directive text false = false.
Proof.
  induction text as [|c text IH]; simpl; [done|].
  intros [Hc Ht]%orb_false_iff. unfold is_percent in Hc. by rewrite Hc, IH.
Qed.

Lemma directive_unknown (s : Sequence.t) (c : ascii) :
  c ∉ directive_chars ->
  Sequence.directive s c = Raise (KeyError (String "%" (String c ""))).
Proof.
  unfold directive_chars. rewrite !not_elem_of_cons.
  intros H. destruct_and!. unfold Sequence.directive.
  repeat match goal with
         | Hne : c <> ?x |- context [Ascii.eqb c ?x] =>
             rewrite (proj2 (Ascii.eqb_neq c x) Hne)
         end.
  done.
Qed.

Lemma directive_known (s : Sequence.t) (c : ascii) :
  (0 < Sequence.frames s)%nat -> c ∈ directive_chars ->
  exists out, Sequence.directive s c = Ok out.
Proof.
  intros Hpos Hc. unfold directive_chars in Hc.
  repeat (apply elem_of_cons in Hc as [->|Hc]);
    [.. | by apply elem_of_nil in Hc].
  all: try (by eexists).
  - destruct (implied_range_spec s Hpos) as (? & ? & ? & ? & _ & _ & _ & _ & H).
    eauto.
  - destruct (directive_explicit_range s) as (? & _ & H & _). eauto.
  - destruct (directive_missing s Hpos) as (? & ? & _ & _ & _ & H). eauto.
  - destruct (directive_missing s Hpos) as (? & ? & _ & H & _). eauto.
Qed.

(** X9. Text without "%" passes through the formatter as it is, and
    formatting is over parts: when the first part of a template does not
    end inside a directive, the template is rendered as its first part
    followed by its second, and raises what the first to raise of them
    raises. *)
Theorem formatter_by_parts (s : Sequence.t) (t1 t2 : string) :
  (has_char is_percent t1 = false -> Sequence.formatter s t1 = Ok t1)
  /\ (in_directive t1 false = false ->
      Sequence.formatter s (t1 +:+ t2)
      = o1 ← Sequence.formatter s t1;
        o2 ← Sequence.formatter s t2;
        Ok (o1 +:+ o2)).
Proof.
  split; [|apply formatter_app].
  intros H. apply (formatter_loop_literal s t1 "" H).
Qed.

Lemma formatter_by_parts_witness :
  (has_char is_percent "frames " = false
   /\ Sequence.formatter three_frames "frames " = Ok "frames ")
  /\ (in_directive "frames %f of " false = false
      /\ Sequence.formatter three_frames ("frames %f of " +:+ "%h")
         = o1 ← Sequence.formatter three_frames "frames %f of ";
           o2 ← Sequence.formatter three_frames "%h";
           Ok (o1 +:+ o2)).
Proof.
  split.
  - split; [reflexivity|].
    apply (proj1 (formatter_by_parts three_frames "frames " "")).
    reflexivity.
  - split; [reflexivity|].
    apply (proj2 (formatter_by_parts three_frames "frames %f of " "%h")).
    reflexivity.
Defined.

(** X10. A "%" followed by a character that is no directive makes the
    formatter raise [KeyError], naming the pair, provided what comes
    before it is rendered; and a "%" that ends the template, outside a
    directive, is dropped without a word. *)
Theorem formatter_bad_directive (s : Sequence.t) (t1 t2 : string)
    (c : ascii) :
  in_directive t1 false = false ->
  (forall o1, Sequence.formatter s t1 = Ok o1 -> c ∉ directive_chars ->
     Sequence.formatter s (t1 +:+ String "%" (String c t2))
     = Raise (KeyError (String "%" (String c ""))))
  /\ Sequence.formatter s (t1 +:+ "%") = Sequence.formatter s t1.
Proof.
  intros Hd. split.
  - intros o1 H1 Hc. rewrite formatter_app, H1 by done.
    rewrite formatter_directive, directive_unknown by done. done.
  - rewrite formatter_app by done.
    destruct (Sequence.formatter s t1) as [o1|e]; cbn [mbind result_bind];
      [|done].
    change (Sequence.formatter s "%") with (Ok (A:=string) "").
    cbn [mbind result_bind]. by rewrite str_app_nil_r.
Qed.

Lemma formatter_bad_directive_witness :
  in_directive "%h" false = false
  /\ Sequence.formatter three_frames ("%h" +:+ String "%" (String "x" "%T"))
     = Raise (KeyError "%x")
  /\ Sequence.formatter three_frames ("%h" +:+ "%")
     = Sequence.formatter three_frames "%h".
Proof.
  split; [reflexivity|].
  destruct (formatter_bad_directive three_frames "%h" "%T" "x" eq_refl)
    as [H1 H2].
  split; [|exact H2].
  apply (H1 "a."); [reflexivity|]. vm_compute. intros H.
  repeat (apply elem_of_cons in H as [H|H]; [discriminate H|]).
  by apply elem_of_nil in H.
Defined.

Lemma formatter_loop_known (s : Sequence.t) (format : string) :
  (0 < Sequence.frames s)%nat ->
  forall matched acc,
    known_directives format matched = true ->
    exists out, Sequence.formatter_loop s format matched acc = Ok out.
Proof.
  intros Hpos. induction format as [|c format IH]; intros matched acc;
    cbn [known_directives Sequence.formatter_loop]; [by eexists|].
  destruct matched.
  - intros [Hc Hrest]%andb_true_iff. apply bool_decide_eq_true in Hc.
    destruct (directive_known s c Hpos Hc) as [d ->]. cbn [mbind result_bind].
    by apply IH.
  - intros Hrest. destruct (Ascii.eqb c "%"); by apply IH.
Qed.

(** X11. On a sequence that has frames, a template all of whose
    directives are among the fourteen the formatter knows is rendered:
    nothing raises. *)
Theorem formatter_known_directives (s : Sequence.t) (format : string) :
  (0 < Sequence.frames s)%nat ->
  known_directives format false = true ->
  exists out, Sequence.formatter s format = Ok out.
Proof. intros Hpos Hk. by apply formatter_loop_known. Qed.

Lemma formatter_known_directives_witness :
  (0 < Sequence.frames three_frames)%nat
  /\ known_directives "%p|%h|%H|%f|%r|%R|%m|%M|%d|%D|%t|%T|%e|%%" false = true
  /\ exists out,
       Sequence.formatter three_frames
         "%p|%h|%H|%f|%r|%R|%m|%M|%d|%D|%t|%T|%e|%%" = Ok out.
Proof.
  assert (Hpos : (0 < Sequence.frames three_frames)%nat) by (vm_compute; lia).
  split; [exact Hpos|]. split; [reflexivity|].
  apply (formatter_known_directives three_frames _ Hpos). reflexivity.
Defined.

(** ** Sequence: what append changes *)

(** A successful [append], in full. *)
Lemma append_Ok_full (arg : Sequence.arg) (s s' : Sequence.t) :
  Sequence.append arg s = (Ok (), s') ->
  exists file fr,
    Sequence.as_file arg s = Ok file
    /\ File.frame file = Some fr
    /\ Sequence._frames s' = <[fr := file]> (Sequence._frames s)
    /\ Sequence.ignore_padding s' = Sequence.ignore_padding s
    /\ if (Sequence.frames s =? 0)%nat then
         Sequence.seq_name s'
         = File.get_seq_key file (Sequence.ignore_padding s)
         /\ Sequence.dir s' = File.dir file
         /\ Sequence.namehead s' = File.namehead file
         /\ Sequence.head s' = File.head file
         /\ Sequence.tail s' = File.tail file
         /\ Sequence.ext s' = File.ext file
         /\ Sequence.padding s' = File.padding file
         /\ Sequence.inconsistent_padding s' = Sequence.inconsistent_padding s
       else
         Sequence._frames s !! fr = None
         /\ Sequence.seq_name s' = Sequence.seq_name s
         /\ Sequence.dir s' = Sequence.dir s
         /\ Sequence.namehead s' = Sequence.namehead s
         /\ Sequence.head s' = Sequence.head s
         /\ Sequence.tail s' = Sequence.tail s
         /\ Sequence.ext s' = Sequence.ext s
         /\ Sequence.padding s'
            = Nat.max (Sequence.padding s) (File.padding file)
         /\ Sequence.inconsistent_padding s'
            = Sequence.inconsistent_padding s
              || (Sequence.padding s <? File.padding file)%nat.
Proof.
  unfold Sequence.append.
  destruct (Sequence.as_file arg s) as [file|e0] eqn:Hfile; [|done].
  destruct (File.frame file) as [fr|] eqn:Hfr; [|done].
  exists file, fr. destruct (Sequence.frames s =? 0)%nat eqn:Hz.
  - by simplify_eq.
  - destruct (Sequence._frames s !! fr) as [old|] eqn:Hold; [done|].
    destruct (Nat.ltb_spec (Sequence.padding s) (File.padding file));
      simplify_eq; simpl; split_and!; try done; try lia.
    all: by rewrite ?orb_true_r, ?orb_false_r.
Qed.

(** X12. A successful [append] to a sequence that has frames adds one
    frame and keeps the others; it leaves the key, the directory, the
    heads, the tail and the extension as the first record set them; the
    padding can only grow and the flag of inconsistent padding is never
    taken back. *)
Theorem append_keeps_identity (arg : Sequence.arg) (s s' : Sequence.t) :
  (0 < Sequence.frames s)%nat ->
  Sequence.append arg s = (Ok (), s') ->
  Sequence.frames s' = S (Sequence.frames s)
  /\ (forall k f, Sequence._frames s !! k = Some f ->
                  Sequence._frames s' !! k = Some f)
  /\ Sequence.seq_name s' = Sequence.seq_name s
  /\ Sequence.dir s' = Sequence.dir s
  /\ Sequence.namehead s' = Sequence.namehead s
  /\ Sequence.head s' = Sequence.head s
  /\ Sequence.tail s' = Sequence.tail s
  /\ Sequence.ext s' = Sequence.ext s
  /\ Sequence.ignore_padding s' = Sequence.ignore_padding s
  /\ (Sequence.padding s <= Sequence.padding s')%nat
  /\ (Sequence.inconsistent_padding s = true ->
      Sequence.inconsistent_padding s' = true).
Proof.
  intros Hpos Happ.
  destruct (append_Ok_full _ _ _ Happ)
    as (file & fr & _ & _ & Hframes & Hip & Hrest).
  assert (Hz : (Sequence.frames s =? 0)%nat = false)
    by (apply Nat.eqb_neq; lia).
  rewrite Hz in Hrest.
  destruct Hrest as (Hnone & Hname & Hdir & Hnh & Hhead & Htail & Hext
                     & Hpad & Hinc).
  split_and!; try done.
  - unfold Sequence.frames, Sequence.len. rewrite Hframes.
    by apply map_size_insert_None.
  - intros k f Hk. rewrite Hframes, lookup_insert_ne; [done|].
    intros ->. congruence.
  - lia.
  - intros H. by rewrite Hinc, H.
Qed.

Lemma append_keeps_identity_witness :
  (0 < Sequence.frames one_frame)%nat
  /\ exists s',
       Sequence.append (Sequence.ArgStr "a.02.exr") one_frame = (Ok (), s')
       /\ Sequence.frames s' = S (Sequence.frames one_frame)
       /\ Sequence.seq_name s' = Sequence.seq_name one_frame
       /\ (Sequence.padding one_frame <= Sequence.padding s')%nat.
Proof.
  assert (Hpos : (0 < Sequence.frames one_frame)%nat) by (vm_compute; lia).
  split; [exact Hpos|]. eexists. split; [reflexivity|].
  destruct (append_keeps_identity (Sequence.ArgStr "a.02.exr") one_frame _
              Hpos eq_refl) as (H1 & _ & H2 & _ & _ & _ & _ & _ & _ & H3 & _).
  exact (conj H1 (conj H2 H3)).
Defined.

(** ** Sequence: what holds of every sequence built from nothing *)

Lemma reachable_invariant (ip : bool) (s : Sequence.t) :
  reachable ip s ->
  Sequence.ignore_padding s = ip
  /\ (Sequence.frames s = 0%nat -> s = Sequence.empty ip)
  /\ (forall k f, Sequence._frames s !! k = Some f -> File.frame f = Some k)
  /\ (forall k f, Sequence._frames s !! k = Some f ->
                  (File.padding f <= Sequence.padding s)%nat)
  /\ ((0 < Sequence.frames s)%nat ->
      exists k f, Sequence._frames s !! k = Some f
                  /\ File.padding f = Sequence.padding s)
  /\ (Sequence.inconsistent_padding s = true ->
      exists k1 f1 k2 f2,
        Sequence._frames s !! k1 = Some f1
        /\ Sequence._frames s !! k2 = Some f2
        /\ (File.padding f1 < File.padding f2)%nat).
Proof.
  unfold reachable.
  induction 1 as [|s arg s' _ (Hip & Hempty & Hkey & Hle & Hmax & Hflag) Happ].
  - split_and!; try done.
    unfold Sequence.frames, Sequence.len. simpl. rewrite map_size_empty. lia.
  - destruct (append_Ok_full _ _ _ Happ)
      as (file & fr & _ & Hfr & Hframes & Hip' & Hrest).
    assert (Hsize : Sequence.frames s' <> 0%nat).
    { unfold Sequence.frames, Sequence.len. rewrite Hframes.
      apply map_size_non_empty_iff, insert_non_empty. }
    destruct (Sequence.frames s =? 0)%nat eqn:Hz.
    + apply Nat.eqb_eq in Hz. specialize (Hempty Hz). subst s.
      destruct Hrest as (_ & _ & _ & _ & _ & _ & Hpad & Hinc).
      simpl in Hframes, Hinc. split_and!; try done.
      * intros k f. rewrite Hframes, lookup_insert.
        case_decide; [|by rewrite lookup_empty]. by intros [= <-]; subst.
      * intros k f. rewrite Hframes, lookup_insert.
        case_decide; [|by rewrite lookup_empty]. intros [= <-]. lia.
      * intros _. exists fr, file. by rewrite Hframes, lookup_insert_eq.
      * by rewrite Hinc.
    + apply Nat.eqb_neq in Hz.
      destruct Hrest as (Hnone & _ & _ & _ & _ & _ & _ & Hpad & Hinc).
      split_and!; try done.
      * congruence.
      * intros k f. rewrite Hframes, lookup_insert.
        case_decide; [|apply Hkey]. by intros [= <-]; subst.
      * intros k f. rewrite Hframes, lookup_insert.
        case_decide; [intros [= <-]; lia|].
        intros Hk%Hle. lia.
      * intros _.
        destruct (Nat.le_gt_cases (File.padding file) (Sequence.padding s)).
        -- destruct Hmax as (k & f & Hk & Hf); [lia|].
           exists k, f. rewrite Hframes, lookup_insert_ne by congruence.
           split; [done | lia].
        -- exists fr, file. rewrite Hframes, lookup_insert_eq.
           split; [done | lia].
      * rewrite Hinc. intros [Hold|Hnew%Nat.ltb_lt]%orb_true_iff.
        -- destruct (Hflag Hold) as (k1 & f1 & k2 & f2 & H1 & H2 & Hlt).
           exists k1, f1, k2, f2.
           rewrite Hframes, !lookup_insert_ne by congruence. done.
        -- destruct Hmax as (k & f & Hk & Hf); [lia|].
           exists k, f, fr, file.
           rewrite Hframes, lookup_insert_eq, lookup_insert_ne by congruence.
           split_and!; [done | done | lia].
Qed.

(** X13. In a sequence built from [Sequence()] by successful calls of
    [append], every member has a frame number and is stored under it. *)
Theorem members_under_their_frame (ip : bool) (s : Sequence.t) :
  reachable ip s ->
  forall k f, Sequence._frames s !! k = Some f -> File.frame f = Some k.
Proof. intros H. by destruct (reachable_invariant ip s H) as (_ & _ & ? & _). Qed.

Lemma members_under_their_frame_witness :
  reachable true one_frame
  /\ forall k f, Sequence._frames one_frame !! k = Some f ->
                 File.frame f = Some k.
Proof.
  assert (H : reachable true one_frame).
  { apply (grown_append _ (Sequence.empty true)
             (Sequence.ArgStr "a.0001.exr"));
      [apply grown_refl | reflexivity]. }
  split; [exact H|]. exact (members_under_their_frame true one_frame H).
Defined.

(** X14. In such a sequence that has frames, [padding] is the greatest
    padding of a member; and [inconsistent_padding], once set, is borne
    out by two members of different padding. *)
Theorem padding_is_widest (ip : bool) (s : Sequence.t) :
  reachable ip s ->
  (forall k f, Sequence._frames s !! k = Some f ->
               (File.padding f <= Sequence.padding s)%nat)
  /\ ((0 < Sequence.frames s)%nat ->
      exists k f, Sequence._frames s !! k = Some f
                  /\ File.padding f = Sequence.padding s)
  /\ (Sequence.inconsistent_padding s = true ->
      exists k1 f1 k2 f2,
        Sequence._frames s !! k1 = Some f1
        /\ Sequence._frames s !! k2 = Some f2
        /\ (File.padding f1 < File.padding f2)%nat).
Proof.
  intros H.
  by destruct (reachable_invariant ip s H) as (_ & _ & _ & ? & ? & ?).
Qed.

Lemma padding_is_widest_witness :
  reachable true one_frame
  /\ forall k f, Sequence._frames one_frame !! k = Some f ->
                 (File.padding f <= Sequence.padding one_frame)%nat.
Proof.
  assert (H : reachable true one_frame).
  { apply (grown_append _ (Sequence.empty true)
             (Sequence.ArgStr "a.0001.exr"));
      [apply grown_refl | reflexivity]. }
  split; [exact H|]. exact (proj1 (padding_is_widest true one_frame H)).
Defined.

(** ** Sequence: indexing *)

Lemma getitems_Ok (s : Sequence.t) (frames : list Z) (fs : list File.t) :
  Sequence.getitems s frames = Ok fs
  <-> Forall2 (fun k f => Sequence._frames s !! k = Some f) frames fs.
Proof.
  revert fs. induction frames as [|k frames IH]; intros fs; simpl.
  - split; [by intros [= <-]; constructor | by inversion 1].
  - unfold Sequence.getitem.
    destruct (Sequence._frames s !! k) as [f|] eqn:Hk; cbn [mbind result_bind].
    + destruct (Sequence.getitems s frames) as [fs'|e] eqn:Hfs;
        cbn [mbind result_bind].
      * split.
        -- intros [= <-]. constructor; [done|]. by apply IH.
        -- inversion 1 as [|? f' ? fs'' Hf Hrest]; subst.
           apply IH in Hrest. congruence.
      * split; [done|]. inversion 1 as [|? f' ? fs'' Hf Hrest]; subst.
        apply IH in Hrest. congruence.
    + split; [done|]. inversion 1; congruence.
Qed.

Lemma getitems_Raise (s : Sequence.t) (frames : list Z) (e : exn) :
  Sequence.getitems s frames = Raise e ->
  exists present k rest,
    frames = present ++ k :: rest
    /\ Forall (fun k' => is_Some (Sequence._frames s !! k')) present
    /\ Sequence._frames s !! k = None
    /\ e = KeyError (str_of_int k).
Proof.
  induction frames as [|k frames IH]; simpl; [done|].
  unfold Sequence.getitem.
  destruct (Sequence._frames s !! k) as [f|] eqn:Hk; cbn [mbind result_bind].
  - destruct (Sequence.getitems s frames) as [fs'|e'] eqn:Hfs;
      cbn [mbind result_bind]; [done|].
    intros [= <-]. destruct (IH eq_refl) as (pre & k' & rest & -> & Hpre & ? & ?).
    exists (k :: pre), k', rest. split_and!; try done.
    constructor; [by rewrite Hk | done].
  - intros [= <-]. by exists [], k, frames.
Qed.

(** X15. Indexing with a list of frame numbers gives the records of
    these frames, in the order asked, exactly when every one of them is
    in the frame map; otherwise it raises [KeyError] for the first
    frame number that is not. *)
Theorem getitem_list (s : Sequence.t) (frames : list Z) :
  (forall fs,
      Sequence.__getitem__ s (Sequence.IdxList frames)
      = Ok (Sequence.ItemFiles fs)
      <-> Forall2 (fun k f => Sequence._frames s !! k = Some f) frames fs)
  /\ (forall e,
         Sequence.__getitem__ s (Sequence.IdxList frames) = Raise e ->
         exists present k rest,
           frames = present ++ k :: rest
           /\ Forall (fun k' => is_Some (Sequence._frames s !! k')) present
           /\ Sequence._frames s !! k = None
           /\ e = KeyError (str_of_int k)).
Proof.
  cbn [Sequence.__getitem__]. split.
  - intros fs. rewrite <- getitems_Ok.
    destruct (Sequence.getitems s frames); cbn [mbind result_bind];
      split; congruence.
  - intros e. destruct (Sequence.getitems s frames) eqn:H;
      cbn [mbind result_bind]; [done|].
    intros [= <-]. by apply getitems_Raise.
Qed.

Lemma range_length_spec (start stop step i : Z) :
  0 < step -> 0 <= i ->
  i < Sequence.range_length start stop step <-> start + i * step < stop.
Proof.
  intros Hstep Hi. unfold Sequence.range_length.
  destruct (Z.ltb_spec 0 step); [|lia].
  destruct (Z.ltb_spec start stop).
  - pose proof (Z.div_mod (stop - start - 1) step ltac:(lia)) as Hdm.
    pose proof (Z.mod_pos_bound (stop - start - 1) step ltac:(lia)) as Hmod.
    nia.
  - nia.
Qed.

Lemma elem_of_py_range (start stop step : Z) (r : list Z) (k : Z) :
  0 < step ->
  Sequence.py_range (Some start) (Some stop) (Some step) = Ok r ->
  k ∈ r <-> exists i, 0 <= i /\ k = start + i * step /\ k < stop.
Proof.
  intros Hstep. unfold Sequence.py_range.
  destruct (Z.eqb_spec step 0); [lia|]. intros [= <-].
  rewrite list_elem_of_fmap. split.
  - intros (i & -> & [Hi0 Hi]%elem_of_seqZ). exists i.
    split_and!; [done | done |]. apply range_length_spec; lia.
  - intros (i & Hi0 & -> & Hlt). exists i. split; [done|].
    apply elem_of_seqZ. split; [done|].
    rewrite Z.add_0_l. by apply range_length_spec.
Qed.

(** X16. A slice that leaves out its step, its start or its stop, as
    [seq[1:5]] does, raises [TypeError]; a slice of step 0 raises
    [ValueError].  A slice of positive step gives the records of the
    frames [start], [start + step], ... below [stop] when all of them
    are in the frame map. *)
Theorem getitem_slice (s : Sequence.t) (start stop step : option Z) :
  (start = None \/ stop = None \/ step = None ->
   exists msg,
     Sequence.__getitem__ s (Sequence.IdxSlice start stop step)
     = Raise (TypeError msg))
  /\ (forall a b,
        start = Some a -> stop = Some b -> step = Some 0 ->
        exists msg,
          Sequence.__getitem__ s (Sequence.IdxSlice start stop step)
          = Raise (ValueError msg))
  /\ (forall a b c fs,
        start = Some a -> stop = Some b -> step = Some c -> 0 < c ->
        Sequence.__getitem__ s (Sequence.IdxSlice start stop step)
        = Ok (Sequence.ItemFiles fs) ->
        exists r,
          Forall2 (fun k f => Sequence._frames s !! k = Some f) r fs
          /\ forall k, k ∈ r <->
                       exists i, 0 <= i /\ k = a + i * c /\ k < b).
Proof.
  split_and!.
  - intros H. eexists. cbn [Sequence.__getitem__]. unfold Sequence.py_range.
    destruct start, stop, step; try done; by destruct H as [|[|]].
  - intros a b -> -> ->. by eexists.
  - intros a b c fs -> -> -> Hc. cbn [Sequence.__getitem__].
    destruct (Sequence.py_range (Some a) (Some b) (Some c)) as [r|e] eqn:Hr;
      cbn [mbind result_bind]; [|done].
    destruct (Sequence.getitems s r) as [fs'|e] eqn:Hfs;
      cbn [mbind result_bind]; [|done].
    intros [= <-]. exists r. split; [by apply getitems_Ok|].
    intros k. by apply elem_of_py_range.
Qed.

Lemma getitem_slice_witness :
  (exists msg,
      Sequence.__getitem__ three_frames
        (Sequence.IdxSlice (Some 1) (Some 5) None)
      = Raise (TypeError msg))
  /\ exists r,
       Forall2 (fun k f => Sequence._frames three_frames !! k = Some f) r
         [File.init "a.0001.exr"; File.init "a.0004.exr"]
       /\ forall k, k ∈ r <->
                    exists i, 0 <= i /\ k = 1 + i * 3 /\ k < 5.
Proof.
  destruct (getitem_slice three_frames (Some 1) (Some 5) None)
    as (H1 & _ & _).
  split; [apply H1; auto|].
  destruct (getitem_slice three_frames (Some 1) (Some 5) (Some 3))
    as (_ & _ & H3).
  apply (H3 1 5 3); [reflexivity.. | lia | reflexivity].
Defined.

Lemma getitem_list_witness :
  Sequence.__getitem__ three_frames (Sequence.IdxList [4; 1])
  = Ok (Sequence.ItemFiles [File.init "a.0004.exr"; File.init "a.0001.exr"])
  /\ Forall2 (fun k f => Sequence._frames three_frames !! k = Some f) [4; 1]
       [File.init "a.0004.exr"; File.init "a.0001.exr"].
Proof.
  assert (H : Sequence.__getitem__ three_frames (Sequence.IdxList [4; 1])
              = Ok (Sequence.ItemFiles
                      [File.init "a.0004.exr"; File.init "a.0001.exr"]))
    by reflexivity.
  split; [exact H|].
  exact (proj1 (proj1 (getitem_list three_frames [4; 1]) _) H).
Defined.

(** ** The classifier: more of what a pass does *)

Lemma reset_config (p p' : Parser.t) :
  Parser.get_stats p' = Parser.get_stats p ->
  Parser.ignore_padding p' = Parser.ignore_padding p ->
  Parser.include_exts p' = Parser.include_exts p ->
  Parser._reset p' = Parser._reset p.
Proof. unfold Parser._reset. by intros -> -> ->. Qed.

Lemma parse_directory_config (listing : option (list string)) (p : Parser.t) :
  let p' := (Parser.parse_directory listing p).2 in
  Parser.get_stats p' = Parser.get_stats p
  /\ Parser.ignore_padding p' = Parser.ignore_padding p
  /\ Parser.include_exts p' = Parser.include_exts p.
Proof.
  unfold Parser.parse_directory. destruct listing as [file_list|]; [|done].
  destruct (sort_files_spec p file_list _ [] (sorting_reset p))
    as (g & Hloop & Hg).
  rewrite Hloop. destruct Hg as [Hgs Hip Hie _ _ _ _ _ _ _ _ _].
  unfold Parser._cleanup. by destruct (Parser.cleanup_loop _ _ _).
Qed.

(** X17. Passes do not add up: what a pass leaves in the buckets does not
    depend on what earlier passes of the same classifier found, only on
    how it is configured.  And [_cleanup], run again, changes nothing. *)
Theorem parse_directory_starts_afresh (p : Parser.t)
    (listing1 listing2 : option (list string)) :
  Parser.parse_directory listing2 (Parser.parse_directory listing1 p).2
  = Parser.parse_directory listing2 p
  /\ Parser._cleanup (Parser._cleanup p) = Parser._cleanup p.
Proof.
  split.
  - destruct (parse_directory_config listing1 p) as (Hgs & Hip & Hie).
    unfold Parser.parse_directory at 1 3.
    by rewrite (reset_config p _ Hgs Hip Hie).
  - unfold Parser._cleanup.
    by destruct (Parser.cleanup_loop (Parser._sequences p) _ _).
Qed.

(** X18. The extension filter does not look at case: with an allow-list,
    a file passes exactly when its extension and an entry of the list
    are the same once their capital letters are made small, by the table
    of the letters; with none, every file passes. *)
Theorem allow_list_ignores_case (include_exts : list string)
    (get_stats ignore_padding : bool) (f : File.t) :
  Parser.is_excluded (Parser.init include_exts get_stats ignore_padding) f
  = false
  <-> include_exts = []
      \/ exists e,
           e ∈ include_exts /\ lowercased e = lowercased (File.ext f).
Proof.
  setoid_rewrite <- lower_lowercased.
  unfold Parser.is_excluded, Parser.init. cbn [Parser.include_exts].
  rewrite andb_false_iff, !bool_decide_eq_false. split.
  - intros [Hempty|Hin].
    + left. destruct include_exts as [|e l]; [done|].
      exfalso. apply Hempty. rewrite fmap_cons. set_solver.
    + right. apply dec_stable in Hin.
      apply elem_of_list_to_set, list_elem_of_fmap in Hin as (e & He & Hin).
      by exists e.
  - intros [->|(e & Hin & He)].
    + left. intros H. by apply H.
    + right. intros H. apply H.
      apply elem_of_list_to_set, list_elem_of_fmap. by exists e.
Qed.

Lemma allow_list_ignores_case_witness :
  Parser.is_excluded (Parser.init ["EXR"; "Tif"] false true)
    (File.init "b.0001.Exr") = false
  /\ Parser.is_excluded (Parser.init ["EXR"; "Tif"] false true)
       (File.init "b.0001.jpg") <> false.
Proof.
  split.
  - apply (proj2 (allow_list_ignores_case ["EXR"; "Tif"] false true
                    (File.init "b.0001.Exr"))).
    right. exists "EXR". split; [by left | reflexivity].
  - intros H.
    apply (proj1 (allow_list_ignores_case ["EXR"; "Tif"] false true
                    (File.init "b.0001.jpg"))) in H.
    destruct H as [H|(e & He & Hl)]; [discriminate|].
    apply elem_of_cons in He as [->|He]; [vm_compute in Hl; discriminate|].
    apply elem_of_cons in He as [->|He]; [vm_compute in Hl; discriminate|].
    by apply elem_of_nil in He.
Defined.

(** X19. The constructor [Sequence(file)] raises exactly when the file
    has no frame number, and then a [ValueError]; otherwise the sequence
    holds that one record under its frame number and takes the key of
    the record as its name. *)
Theorem sequence_init (arg : Sequence.arg) (ip : bool) :
  let file := match arg with
              | Sequence.ArgFile f => f
              | Sequence.ArgStr path => File.init path
              end in
  (File.frame file = None ->
   exists msg, Sequence.init (Some arg) ip = Raise (ValueError msg))
  /\ (forall fr, File.frame file = Some fr ->
        exists s,
          Sequence.init (Some arg) ip = Ok s
          /\ Sequence._frames s = {[ fr := file ]}
          /\ Sequence.frames s = 1%nat
          /\ Sequence.seq_name s = File.get_seq_key file ip
          /\ Sequence.padding s = File.padding file
          /\ Sequence.inconsistent_padding s = false).
Proof.
  intros file.
  assert (Hfile : Sequence.as_file arg (Sequence.empty ip) = Ok file).
  { by destruct arg. }
  unfold Sequence.init, Sequence.append. rewrite Hfile. split.
  - intros ->. by eexists.
  - intros fr ->.
    change (Sequence.frames (Sequence.empty ip)) with (size (∅ : gmap Z File.t)).
    rewrite map_size_empty. cbn [Nat.eqb].
    eexists. split; [done|]. split_and!; try done.
    unfold Sequence.frames, Sequence.len.
    cbn [Sequence._frames Sequence.set_frames Sequence.empty].
    rewrite map_size_insert_None by apply lookup_empty.
    by rewrite map_size_empty.
Qed.

Lemma sequence_init_witness :
  (File.frame (File.init "notes.txt") = None
   /\ exists msg,
        Sequence.init (Some (Sequence.ArgStr "notes.txt")) true
        = Raise (ValueError msg))
  /\ (File.frame (File.init "a.0007.exr") = Some 7
      /\ exists s,
           Sequence.init (Some (Sequence.ArgStr "a.0007.exr")) true = Ok s
           /\ Sequence.frames s = 1%nat).
Proof.
  split.
  - split; [reflexivity|].
    apply (proj1 (sequence_init (Sequence.ArgStr "notes.txt") true)).
    reflexivity.
  - split; [reflexivity|].
    destruct (proj2 (sequence_init (Sequence.ArgStr "a.0007.exr") true) 7
                eq_refl) as (s & Hs & _ & Hframes & _).
    exists s. exact (conj Hs Hframes).
Defined.

(** ** The classifier: order of the groups, and collisions *)

(** X20. A pass lists the groups newest key first: the names of
    [sequences], and those of [single_frames], follow the reverse of the
    order in which the keys first appear in the listing. *)
Theorem parse_directory_order (p0 : Parser.t) (file_list : list string) :
  let newest_first :=
    remove_dups (reverse (group_keys p0 (File.init <$> file_list))) in
  exists p,
    Parser.parse_directory (Some file_list) p0 = (Ok (), p)
    /\ Sequence.seq_name <$> Parser.sequences p `sublist_of` newest_first
    /\ Sequence.seq_name <$> Parser.single_frames p `sublist_of` newest_first.
Proof.
  intros newest_first.
  destruct (sort_files_more p0 file_list _ [] (sorting_reset p0))
    as (g & Hloop & Hg & Hkeys & _).
  { by parser_simpl. }
  { by intros f ?%elem_of_nil. }
  rewrite app_nil_l in Hg, Hkeys. fold newest_first in Hkeys.
  destruct Hg as [_ _ _ Hseqs Hsing _ _ _ _ _ Hgroups _].
  exists (Parser._cleanup g).
  unfold Parser.parse_directory. rewrite Hloop.
  unfold Parser._cleanup. rewrite cleanup_loop_spec, Hseqs, Hsing.
  parser_simpl. rewrite !app_nil_l.
  assert (Hnames : Sequence.seq_name <$> (Parser._sequences g).*2
                   = newest_first).
  { rewrite <- Hkeys, <- list_fmap_compose.
    apply Forall_fmap_ext_1, Forall_forall.
    intros [k s] Hks. simpl. by destruct (Hgroups k s Hks) as [-> _]. }
  rewrite <- Hnames.
  split_and!; [done | |]; apply fmap_sublist, sublist_filter.
Qed.

(** X21. A file is put in [collisions] only when its frame number is
    taken: after a pass, the group of its key is in [sequences] or
    [single_frames] and holds a file of the same key under that frame
    number. *)
Theorem collisions_have_holder (p0 : Parser.t) (file_list : list string) :
  exists p,
    Parser.parse_directory (Some file_list) p0 = (Ok (), p)
    /\ forall f,
         f ∈ Parser.collisions p ->
         exists seq g fr,
           seq ∈ Parser.sequences p ++ Parser.single_frames p
           /\ Sequence.seq_name seq
              = File.get_seq_key f (Parser.ignore_padding p0)
           /\ File.frame f = Some fr
           /\ Sequence._frames seq !! fr = Some g
           /\ File.frame g = Some fr
           /\ File.get_seq_key g (Parser.ignore_padding p0)
              = File.get_seq_key f (Parser.ignore_padding p0).
Proof.
  destruct (sort_files_more p0 file_list _ [] (sorting_reset p0))
    as (g & Hloop & Hg & _ & Hheld).
  { by parser_simpl. }
  { by intros f ?%elem_of_nil. }
  destruct Hg as [_ Hip _ Hseqs Hsing _ _ _ _ _ Hgroups _].
  exists (Parser._cleanup g).
  unfold Parser.parse_directory. rewrite Hloop.
  unfold Parser._cleanup. rewrite cleanup_loop_spec, Hseqs, Hsing.
  parser_simpl. rewrite !app_nil_l.
  split; [done|]. intros f Hf.
  destruct (Hheld f Hf) as (seq & fr & Hget & Hfr & [h Hh]).
  rewrite Hip in Hget. apply dict_get_Some_elem in Hget.
  destruct (Hgroups _ _ Hget) as (Hname & _ & _ & Hmem).
  destruct (Hmem fr h Hh) as [Hhfr Hhkey].
  exists seq, h, fr. split_and!; try done.
  assert (Hv : seq ∈ (Parser._sequences g).*2)
    by apply (list_elem_of_fmap_2 snd _ _ Hget).
  apply elem_of_app.
  destruct (decide (Sequence.frames seq = 1%nat)).
  - right. by apply list_elem_of_filter.
  - left. by apply list_elem_of_filter.
Qed.

(** ** Listing a directory *)

Lemma walk_loop_paths {stat_result : Type} (sys : @os stat_result)
    (walked : list (string * list string * list string)) :
  forall file_list,
    walk_loop sys false walked file_list
    = Listed (file_list ++ (Path <$> walked_paths walked)).
Proof.
  induction walked as [|[[root dirs] files] walked IH]; intros file_list.
  - by rewrite app_nil_r.
  - cbn [walk_loop add_files]. rewrite IH. unfold walked_paths.
    cbn [mbind list_bind]. fold (walked_paths walked).
    by rewrite fmap_app, <- list_fmap_compose, app_assoc.
Qed.

Lemma add_stats_spec {stat_result : Type} (sys : @os stat_result)
    (root : string) (files : list string) :
  forall dir_list,
    let paths :=
      filter (fun p => islink sys p = false) (path_join root <$> files) in
    (exists l,
        add_stats sys root files dir_list = Listed (dir_list ++ l)
        /\ Forall2 (stat_entry sys) paths l)
    \/ (exists p,
          add_stats sys root files dir_list = ListingOSError p
          /\ p ∈ paths /\ stat sys p = None).
Proof.
  induction files as [|file files IH]; intros dir_list paths.
  - left. exists []. by rewrite app_nil_r.
  - cbn [add_stats]. unfold paths. rewrite fmap_cons.
    destruct (islink sys (path_join root file)) eqn:Hlink.
    + rewrite filter_cons_False by by rewrite Hlink. apply IH.
    + rewrite filter_cons_True by done.
      destruct (stat sys (path_join root file)) as [st|] eqn:Hstat.
      * destruct (IH (dir_list ++ [PathStat (path_join root file) st]))
          as [(l & -> & Hl) | (p & -> & Hp & Hnone)].
        -- left. exists (PathStat (path_join root file) st :: l).
           rewrite <- app_assoc. split; [done|].
           constructor; [by exists st | done].
        -- right. exists p. split_and!; [done | by right | done].
      * right. exists (path_join root file). split_and!; [done | by left | done].
Qed.

Lemma walk_loop_stats {stat_result : Type} (sys : @os stat_result)
    (walked : list (string * list string * list string)) :
  forall file_list,
    let paths :=
      filter (fun p => islink sys p = false) (walked_paths walked) in
    (exists l,
        walk_loop sys true walked file_list = Listed (file_list ++ l)
        /\ Forall2 (stat_entry sys) paths l)
    \/ (exists p,
          walk_loop sys true walked file_list = ListingOSError p
          /\ p ∈ paths /\ stat sys p = None).
Proof.
  induction walked as [|[[root dirs] files] walked IH];
    intros file_list paths.
  - left. exists []. by rewrite app_nil_r.
  - unfold paths, walked_paths. cbn [mbind list_bind walk_loop add_files].
    fold (walked_paths walked). rewrite filter_app.
    destruct (add_stats_spec sys root files [])
      as [(l1 & -> & Hl1) | (p & -> & Hp & Hnone)].
    + rewrite app_nil_l.
      destruct (IH (file_list ++ l1)) as [(l & -> & Hl) | (p & -> & Hp & Hnone)].
      * left. exists (l1 ++ l). rewrite app_assoc. split; [done|].
        by apply Forall2_app.
      * right. exists p. split_and!; [done | | done].
        apply elem_of_app. by right.
    + right. exists p. split_and!; [done | | done].
      apply elem_of_app. by left.
Qed.

(** X23. A recursive listing without stats is the paths of the walk, in
    its order: each directory joined with each of its file names. *)
Theorem listing_recursive_paths {stat_result : Type} (sys : @os stat_result)
    (path : string) :
  get_files_in_directory sys path false true
  = Listed (Path <$> walked_paths (walk sys path)).
Proof. unfold get_files_in_directory. by rewrite walk_loop_paths. Qed.

(** X24. A recursive listing with stats leaves out the symbolic links.
    It gives the other paths of the walk, in its order, each with its
    stat; or it raises the error of [os.stat] at one of these paths. *)
Theorem listing_recursive_stats {stat_result : Type} (sys : @os stat_result)
    (path : string) :
  let paths :=
    filter (fun p => islink sys p = false) (walked_paths (walk sys path)) in
  (exists file_list,
      get_files_in_directory sys path true true = Listed file_list
      /\ Forall2 (stat_entry sys) paths file_list)
  \/ (exists p,
        get_files_in_directory sys path true true = ListingOSError p
        /\ p ∈ paths /\ stat sys p = None).
Proof.
  intros paths. unfold get_files_in_directory.
  destruct (walk_loop_stats sys (walk sys path) [])
    as [(l & Hl & Hstats) | (p & Hp)].
  - left. by exists l.
  - right. by exists p.
Qed.

(** ** The tail directives *)

Lemma split_on_app (sep : ascii) (a b : string) :
  split_on sep (a +:+ String sep b) = split_on sep a ++ split_on sep b.
Proof.
  induction a as [|c a IH]; simpl.
  - by rewrite Ascii.eqb_refl.
  - destruct (Ascii.eqb c sep); [by rewrite IH|].
    rewrite IH. pose proof (split_on_nonempty sep a) as Hne.
    by destruct (split_on sep a).
Qed.

Lemma tail_without_ext_app (s : Sequence.t) (t e : string) :
  Sequence.tail s = t +:+ "." +:+ e ->
  has_char is_dot_char e = false ->
  Sequence.__tail_without_ext s = t.
Proof.
  intros Htail He. unfold Sequence.__tail_without_ext.
  rewrite Htail. change ("." +:+ e) with (String "." e).
  rewrite split_on_app. apply (split_on_single "." e) in He. rewrite He.
  rewrite List.removelast_last. apply concat_split_on.
Qed.

Lemma file_init_tail (filepath : string) :
  let f := File.init filepath in
  has_char is_dot_char (File.ext f) = false
  /\ (File.ext f <> "" ->
      exists t, File.tail f = t +:+ "." +:+ File.ext f).
Proof.
  unfold File.init.
  destruct (path_split filepath) as [dir name].
  destruct (split_extension_cases name) as [Hnone Hdot].
  destruct (split_extension name) as [base ext] eqn:Hsplit.
  destruct (extract_frame base) as [[namehead framenum] tl].
  cbn [File.ext File.tail]. split.
  - destruct (has_char is_dot_char name).
    + destruct (Hdot eq_refl) as (b & e & [= <- <-] & _ & He). done.
    + by specialize (Hnone eq_refl) as [= -> ->].
  - intros Hext. apply String.eqb_neq in Hext. rewrite Hext. by exists tl.
Qed.

(** X25. "%t" writes the tail up to its last dot, and nothing at all
    when the tail has no dot; on a sequence made from a path whose name
    has an extension, "%t", a dot and "%e" make up "%T". *)
Theorem formatter_tail_parts (s : Sequence.t) :
  (has_char is_dot_char (Sequence.tail s) = false ->
   Sequence.formatter s "%t" = Ok "")
  /\ (has_char is_dot_char (Sequence.tail s) = true ->
      exists t e,
        Sequence.formatter s "%t" = Ok t
        /\ Sequence.formatter s "%T" = Ok (t +:+ "." +:+ e)
        /\ has_char is_dot_char e = false)
  /\ (forall path ip,
        Sequence.init (Some (Sequence.ArgStr path)) ip = Ok s ->
        Sequence.ext s <> "" ->
        exists t,
          Sequence.formatter s "%t" = Ok t
          /\ Sequence.formatter s "%e" = Ok (Sequence.ext s)
          /\ Sequence.formatter s "%T" = Ok (t +:+ "." +:+ Sequence.ext s)).
Proof.
  rewrite !formatter_one.
  change (Sequence.directive s "t") with (Ok (Sequence.__tail_without_ext s)).
  change (Sequence.directive s "T") with (Ok (Sequence.tail s)).
  change (Sequence.directive s "e") with (Ok (Sequence.ext s)).
  split_and!.
  - intros H. apply (split_on_single "." (Sequence.tail s)) in H.
    unfold Sequence.__tail_without_ext. by rewrite H.
  - intros H.
    destruct (proj2 (split_extension_cases (Sequence.tail s)) H)
      as (t & e & _ & Htail & He).
    exists t, e. split_and!; [|by rewrite <- Htail | done].
    f_equal. by apply (tail_without_ext_app s t e).
  - intros path ip Hinit Hext.
    unfold Sequence.init in Hinit.
    destruct (Sequence.append (Sequence.ArgStr path) (Sequence.empty ip))
      as [[[]|e0] s0] eqn:Happ; [|done]. injection Hinit as ->.
    destruct (append_Ok_full _ _ _ Happ)
      as (file & fr & Hfile & _ & _ & _ & Hrest).
    assert (Hf : Sequence.as_file (Sequence.ArgStr path) (Sequence.empty ip)
                 = Ok (File.init path)) by done.
    rewrite Hf in Hfile. injection Hfile as <-.
    change (Sequence.frames (Sequence.empty ip))
      with (size (∅ : gmap Z File.t)) in Hrest.
    rewrite map_size_empty in Hrest. cbn [Nat.eqb] in Hrest.
    destruct Hrest as (_ & _ & _ & _ & Htail & Hext' & _).
    destruct (file_init_tail path) as [Hnodot Ht].
    rewrite <- Hext' in Hnodot, Ht. destruct (Ht Hext) as [t Htl].
    rewrite <- Htail in Htl.
    exists t. split_and!; [|done | by rewrite <- Htl].
    f_equal. by apply (tail_without_ext_app s t (Sequence.ext s)).
Qed.

Lemma formatter_tail_parts_witness :
  exists s,
    Sequence.init (Some (Sequence.ArgStr "shot.0001.tar.gz")) true = Ok s
    /\ Sequence.ext s <> ""
    /\ exists t,
         Sequence.formatter s "%t" = Ok t
         /\ Sequence.formatter s "%e" = Ok (Sequence.ext s)
         /\ Sequence.formatter s "%T" = Ok (t +:+ "." +:+ Sequence.ext s).
Proof.
  eexists. split; [vm_compute; reflexivity|]. split; [by vm_compute|].
  apply (proj2 (proj2 (formatter_tail_parts _)) "shot.0001.tar.gz" true);
    [vm_compute; reflexivity | by vm_compute].
Defined.
